(** * Thrill: asynchronous dispatcher and disk allocation functors

    A shallow embedding of
    - [thrill/io/block_alloc_strategy.hpp] (striping family of disk
      allocation functors), and
    - [thrill/net/dispatcher.hpp] (timer priority queue, the four
      asynchronous transfer records, the public [Async*] operations and
      the [Dispatch] loop body),
    followed by the properties established about them.

    Conventions.  [size_t] values are integers in [0, 2^64) and every
    [size_t] operation is followed by an explicit [wrap].  [ssize_t]
    results and [errno] are plain integers.  Time points of
    [std::chrono::steady_clock] are integer tick counts (nanoseconds) and
    [std::chrono::milliseconds] are integer millisecond counts; signed
    overflow of either is undefined behaviour in C++ and is not
    modelled. *)

From Stdlib Require Import ZArith List Lia Bool Permutation Sorted.
From Stdlib.Init Require Import Byte.
Import ListNotations.
Open Scope Z_scope.

(* ================================================================== *)
(** * Machine integers *)

Definition size_t_modulus : Z := 2 ^ 64.

(** Reduction of an integer to [size_t] (unsigned wrap-around). *)
Definition wrap (x : Z) : Z := x mod size_t_modulus.

Definition is_size_t (x : Z) : Prop := 0 <= x < size_t_modulus.

(* ================================================================== *)
(** * Disk allocation functors ([thrill/io/block_alloc_strategy.hpp]) *)

Module BlockAlloc.

(** [struct Striping { size_t begin_, diff_; }] *)
Record Striping := mkStriping {
  begin_ : Z;
  diff_ : Z
}.

(** [Striping(size_t b, size_t e) : begin_(b), diff_(e - b)] *)
Definition Striping_ctor (b e : Z) : Striping :=
  {| begin_ := b; diff_ := wrap (e - b) |}.

(** [size_t operator () (size_t i) const { return begin_ + i % diff_; }] *)
Definition Striping_call (s : Striping) (i : Z) : Z :=
  wrap (begin_ s + i mod diff_ s).

(** [struct FullyRandom : public Striping], with a [mutable] random engine.
    The engine is not modelled: each call receives the number [rnd] that
    [rng_()] returns on that call. *)
Definition FullyRandom_ctor (b e : Z) : Striping := Striping_ctor b e.

(** [size_t operator () (size_t) const { return begin_ + rng_() % diff_; }] *)
Definition FullyRandom_call (s : Striping) (rnd : Z) (_i : Z) : Z :=
  wrap (begin_ s + rnd mod diff_ s).

(** [struct SimpleRandom : public Striping { size_t offset_; }] *)
Record SimpleRandom := mkSimpleRandom {
  sr_base : Striping;
  offset_ : Z
}.

(** [SimpleRandom(size_t b, size_t e) : Striping(b, e) { init(); }] with
    [init() { ...; offset_ = rng() % diff_; }]; [rnd] is the value of
    [rng()]. *)
Definition SimpleRandom_ctor (rnd : Z) (b e : Z) : SimpleRandom :=
  let s := Striping_ctor b e in
  {| sr_base := s; offset_ := rnd mod diff_ s |}.

(** [return begin_ + (i + offset_) % diff_;] *)
Definition SimpleRandom_call (s : SimpleRandom) (i : Z) : Z :=
  wrap (begin_ (sr_base s) + wrap (i + offset_ s) mod diff_ (sr_base s)).

(** [struct RandomCyclic : public Striping { std::vector<size_t> perm_; }] *)
Record RandomCyclic := mkRandomCyclic {
  rc_base : Striping;
  perm_ : list Z
}.

(** The vector [0, 1, ..., n-1] written by the loop of [init()]. *)
Definition identity_perm (n : Z) : list Z :=
  map Z.of_nat (seq 0 (Z.to_nat n)).

(** [RandomCyclic(size_t b, size_t e) : Striping(b, e), perm_(diff_)
    { init(); }] where [init()] fills [perm_[i] = i] and then calls
    [std::random_shuffle]; [shuffle] stands for that call. *)
Definition RandomCyclic_ctor (shuffle : list Z -> list Z) (b e : Z)
  : RandomCyclic :=
  let s := Striping_ctor b e in
  {| rc_base := s; perm_ := shuffle (identity_perm (diff_ s)) |}.

(** [return begin_ + perm_[i % diff_];] *)
Definition RandomCyclic_call (s : RandomCyclic) (i : Z) : Z :=
  wrap (begin_ (rc_base s)
        + nth (Z.to_nat (i mod diff_ (rc_base s))) (perm_ s) 0).

End BlockAlloc.

(* ================================================================== *)
(** * Collaborators of the dispatcher that are outside the header *)

(** [errno] values tested by the transfer records (Linux [<errno.h>]). *)
Definition EINTR : Z := 4.
Definition EAGAIN : Z := 11.
Definition EPIPE : Z := 32.
Definition ECONNRESET : Z := 104.

(** A [Connection&] is represented by the identity of the connection
    object; [assert(c.IsValid())] is a debug-only precondition. *)
Definition Connection := nat.

(** Modelled from the spec: [net::Buffer] (declared in
    [thrill/net/buffer.hpp], outside the dispatcher header) is "a simple
    byte vector with size", owned and movable.  [Buffer(n)] allocates [n]
    bytes, [Buffer()] is empty, and a buffer whose contents have been
    moved out is empty. *)
Definition Buffer := list byte.

Definition Buffer_size (b : Buffer) : Z := Z.of_nat (length b).

Definition Buffer_alloc (n : Z) : Buffer := repeat x00 (Z.to_nat n).

Definition Buffer_empty : Buffer := [].

(** Modelled from the spec: [data::PinnedByteBlockPtr] is a nullable
    counting pointer to a pinned byte block; [None] is the null pointer
    left behind once the block has been moved out. *)
Definition ByteBlock := list byte.
Definition PinnedByteBlockPtr := option ByteBlock.

(** Modelled from the spec: [data::PinnedBlock], a pinned range of bytes
    with [data_begin()] and [size()]. *)
Definition PinnedBlock := list byte.

(** Completion callbacks are user code.  A callback is represented by an
    identifier that is recorded when it is invoked, and by whether it
    moves from the rvalue reference it is handed ([Buffer&&] or
    [PinnedByteBlockPtr&&]).  An empty delegate ([if (callback_)] false)
    is [None].  Callbacks are taken not to call back into the dispatcher
    while they run, except that a timer callback may call
    [Terminate()]. *)
Record Callback := mkCallback {
  cb_id : nat;
  cb_takes : bool
}.

Definition Delegate := option Callback.

(** The readiness handlers installed by the dispatcher. *)
Inductive Handler :=
| HReadBuffer
| HWriteBuffer
| HReadByteBlock
| HWriteBlock.

(** What the dispatcher does to the outside world, in program order:
    calls of the pure virtual backend functions and invocations of user
    callbacks.  A timer callback is recorded with the [next_timeout] of
    the entry it was fired for and with the boolean it returned. *)
Inductive Effect :=
| AddRead (c : Connection) (h : Handler)
| AddWrite (c : Connection) (h : Handler)
| DispatchOne (timeout_ms : Z)
| TimerFired (cb : nat) (next_timeout : Z) (returned : bool)
| ReadDone (cb : nat) (c : Connection) (buffer : Buffer)
| ReadBlockDone (cb : nat) (c : Connection) (block : PinnedByteBlockPtr)
| WriteDone (cb : nat) (c : Connection).

(** How a readiness handler ends: it returns [true] (stay registered) or
    [false] (deregister), throws [net::Exception] carrying [errno], or
    dereferences a null block pointer. *)
Inductive Outcome :=
| Return (keep : bool)
| Throw (errno : Z)
| NullDeref.

(** Result of [Connection::RecvOne]: the returned count, [errno] after
    the call, and the bytes the peer sent (the first [r] of them are
    stored when [r > 0]). *)
Record RecvResult := mkRecv {
  recv_r : Z;
  recv_errno : Z;
  recv_data : list byte
}.

(** Result of [Connection::SendOne]: the returned count and [errno]. *)
Record SendResult := mkSend {
  send_r : Z;
  send_errno : Z
}.

(** [store buf pos bytes]: [buf] with [bytes] written from offset [pos],
    never beyond the end of [buf]. *)
Fixpoint store (buf : list byte) (pos : nat) (bytes : list byte) : list byte :=
  match buf with
  | [] => []
  | b :: buf' =>
      match pos with
      | S p => b :: store buf' p bytes
      | O => match bytes with
             | [] => buf
             | x :: bytes' => x :: store buf' O bytes'
             end
      end
  end.

(** Bytes received by one [RecvOne] that returned [r]. *)
Definition received (res : RecvResult) : list byte :=
  firstn (Z.to_nat (recv_r res)) (recv_data res).

(** [l] with position [i] overwritten by [x] (no effect out of range). *)
Fixpoint list_set {A : Type} (l : list A) (i : nat) (x : A) : list A :=
  match l with
  | [] => []
  | a :: l' =>
      match i with
      | O => x :: l'
      | S i' => a :: list_set l' i' x
      end
  end.

(** [while (q.size() && q.front().IsDone()) q.pop_front();] *)
Fixpoint reap {A : Type} (is_done : A -> bool) (q : list A) : list A :=
  match q with
  | [] => []
  | a :: q' => if is_done a then reap is_done q' else q
  end.

(* ================================================================== *)
(** * The four asynchronous transfer records ([thrill/net/dispatcher.hpp]) *)

(** Events of invoking a write-completion delegate: [if (callback_)
    callback_( *conn_)]. *)
Definition fire_write (callback : Delegate) (c : Connection) : list Effect :=
  match callback with
  | Some cb => [WriteDone (cb_id cb) c]
  | None => []
  end.

(** [class Dispatcher::AsyncReadBuffer] *)
Module AsyncReadBuffer.

Record t := mk {
  conn_ : Connection;
  buffer_ : Buffer;
  size_ : Z;
  callback_ : Delegate
}.

(** [AsyncReadBuffer(conn, buffer_size, callback) : conn_(&conn),
    buffer_(buffer_size), callback_(callback)], with [size_ = 0]. *)
Definition ctor (conn : Connection) (buffer_size : Z) (callback : Delegate) : t :=
  {| conn_ := conn; buffer_ := Buffer_alloc buffer_size; size_ := 0;
     callback_ := callback |}.

(** [bool IsDone() const { return size_ == buffer_.size(); }] *)
Definition IsDone (a : t) : bool := size_ a =? Buffer_size (buffer_ a).

(** [void DoCallback() { if (callback_) callback_( *conn_,
    std::move(buffer_)); }]: the callback sees [buffer_]; if it moves from
    the reference, [buffer_] is left empty. *)
Definition DoCallback (a : t) : t * list Effect :=
  match callback_ a with
  | Some cb =>
      ({| conn_ := conn_ a;
          buffer_ := if cb_takes cb then Buffer_empty else buffer_ a;
          size_ := size_ a;
          callback_ := callback_ a |},
       [ReadDone (cb_id cb) (conn_ a) (buffer_ a)])
  | None => (a, [])
  end.

(** [bool operator () ()], given what [conn_->RecvOne(buffer_.data() +
    size_, buffer_.size() - size_)] does. *)
Definition call (res : RecvResult) (a : t) : t * list Effect * Outcome :=
  let r := recv_r res in
  let errno := recv_errno res in
  if r <=? 0 then
    if (errno =? EINTR) || (errno =? EAGAIN) then (a, [], Return true)
    else
      (* signal artificial IsDone, for clean up. *)
      let a := {| conn_ := conn_ a; buffer_ := buffer_ a;
                  size_ := Buffer_size (buffer_ a);
                  callback_ := callback_ a |} in
      if (errno =? 0) || (errno =? EPIPE) || (errno =? ECONNRESET) then
        (a,
         match callback_ a with
         | Some cb => [ReadDone (cb_id cb) (conn_ a) Buffer_empty]
         | None => []
         end,
         Return false)
      else (a, [], Throw errno)
  else
    let a := {| conn_ := conn_ a;
                buffer_ := store (buffer_ a) (Z.to_nat (size_ a)) (received res);
                size_ := wrap (size_ a + r);
                callback_ := callback_ a |} in
    if size_ a =? Buffer_size (buffer_ a) then
      let (a, ev) := DoCallback a in (a, ev, Return false)
    else (a, [], Return true).

(** The life of a record under the backend: the handler is invoked once
    per readiness notification for as long as it returns [true]. *)
Fixpoint run (ress : list RecvResult) (a : t) : t * list Effect * Outcome :=
  match ress with
  | [] => (a, [], Return true)
  | res :: ress' =>
      match call res a with
      | (a', ev, Return true) =>
          let '(a'', ev', out) := run ress' a' in (a'', ev ++ ev', out)
      | stopped => stopped
      end
  end.

End AsyncReadBuffer.

(** [class Dispatcher::AsyncWriteBuffer] *)
Module AsyncWriteBuffer.

Record t := mk {
  conn_ : Connection;
  buffer_ : Buffer;
  size_ : Z;
  callback_ : Delegate
}.

(** [AsyncWriteBuffer(conn, Buffer&& buffer, callback)], [size_ = 0]. *)
Definition ctor (conn : Connection) (buffer : Buffer) (callback : Delegate) : t :=
  {| conn_ := conn; buffer_ := buffer; size_ := 0; callback_ := callback |}.

(** [bool IsDone() const { return size_ == buffer_.size(); }] *)
Definition IsDone (a : t) : bool := size_ a =? Buffer_size (buffer_ a).

(** [void DoCallback() { if (callback_) callback_( *conn_); }] *)
Definition DoCallback (a : t) : t * list Effect :=
  (a, fire_write (callback_ a) (conn_ a)).

(** [bool operator () ()], given what [conn_->SendOne(buffer_.data() +
    size_, buffer_.size() - size_)] returns. *)
Definition call (res : SendResult) (a : t) : t * list Effect * Outcome :=
  let r := send_r res in
  let errno := send_errno res in
  if r <=? 0 then
    if (errno =? EINTR) || (errno =? EAGAIN) then (a, [], Return true)
    else
      (* signal artificial IsDone, for clean up. *)
      let a := {| conn_ := conn_ a; buffer_ := buffer_ a;
                  size_ := Buffer_size (buffer_ a);
                  callback_ := callback_ a |} in
      if errno =? EPIPE then
        let (a, ev) := DoCallback a in (a, ev, Return false)
      else (a, [], Throw errno)
  else
    let a := {| conn_ := conn_ a; buffer_ := buffer_ a;
                size_ := wrap (size_ a + r);
                callback_ := callback_ a |} in
    if size_ a =? Buffer_size (buffer_ a) then
      let (a, ev) := DoCallback a in (a, ev, Return false)
    else (a, [], Return true).

End AsyncWriteBuffer.

(** [class Dispatcher::AsyncReadByteBlock] *)
Module AsyncReadByteBlock.

Record t := mk {
  conn_ : Connection;
  block_ : PinnedByteBlockPtr;
  pos_ : Z;
  size_ : Z;
  callback_ : Delegate
}.

(** [AsyncReadByteBlock(conn, size, PinnedByteBlockPtr&& block,
    callback)], [pos_ = 0]. *)
Definition ctor (conn : Connection) (size : Z) (block : PinnedByteBlockPtr)
    (callback : Delegate) : t :=
  {| conn_ := conn; block_ := block; pos_ := 0; size_ := size;
     callback_ := callback |}.

(** [bool IsDone() const { return !block_ || pos_ == size_; }]
    ("done if block is already delivered to callback or size matches") *)
Definition IsDone (a : t) : bool :=
  match block_ a with
  | None => true
  | Some _ => pos_ a =? size_ a
  end.

(** [void DoCallback() { if (callback_) callback_( *conn_,
    std::move(block_)); }] *)
Definition DoCallback (a : t) : t * list Effect :=
  match callback_ a with
  | Some cb =>
      ({| conn_ := conn_ a;
          block_ := if cb_takes cb then None else block_ a;
          pos_ := pos_ a; size_ := size_ a;
          callback_ := callback_ a |},
       [ReadBlockDone (cb_id cb) (conn_ a) (block_ a)])
  | None => (a, [])
  end.

(** [bool operator () ()], given what [conn_->RecvOne(block_->data() +
    pos_, size_ - pos_)] does. *)
Definition call (res : RecvResult) (a : t) : t * list Effect * Outcome :=
  match block_ a with
  | None => (a, [], NullDeref)
  | Some blk =>
      let r := recv_r res in
      let errno := recv_errno res in
      if r <=? 0 then
        if (errno =? EINTR) || (errno =? EAGAIN) then (a, [], Return true)
        else
          (* signal artificial IsDone, for clean up. *)
          let a := {| conn_ := conn_ a; block_ := block_ a;
                      pos_ := size_ a; size_ := size_ a;
                      callback_ := callback_ a |} in
          if (errno =? 0) || (errno =? EPIPE) || (errno =? ECONNRESET) then
            let (a, ev) := DoCallback a in (a, ev, Return false)
          else (a, [], Throw errno)
      else
        let a := {| conn_ := conn_ a;
                    block_ := Some (store blk (Z.to_nat (pos_ a)) (received res));
                    pos_ := wrap (pos_ a + r); size_ := size_ a;
                    callback_ := callback_ a |} in
        if pos_ a =? size_ a then
          let (a, ev) := DoCallback a in (a, ev, Return false)
        else (a, [], Return true)
  end.

End AsyncReadByteBlock.

(** [class Dispatcher::AsyncWriteBlock] *)
Module AsyncWriteBlock.

Record t := mk {
  conn_ : Connection;
  block_ : PinnedBlock;
  size_ : Z;
  callback_ : Delegate
}.

(** [AsyncWriteBlock(conn, const PinnedBlock& block, callback)],
    [size_ = 0]. *)
Definition ctor (conn : Connection) (block : PinnedBlock) (callback : Delegate) : t :=
  {| conn_ := conn; block_ := block; size_ := 0; callback_ := callback |}.

(** [bool IsDone() const { return size_ == block_.size(); }] *)
Definition IsDone (a : t) : bool := size_ a =? Buffer_size (block_ a).

(** [void DoCallback() { if (callback_) callback_( *conn_); }] *)
Definition DoCallback (a : t) : t * list Effect :=
  (a, fire_write (callback_ a) (conn_ a)).

(** [bool operator () ()], given what [conn_->SendOne(block_.data_begin()
    + size_, block_.size() - size_)] returns. *)
Definition call (res : SendResult) (a : t) : t * list Effect * Outcome :=
  let r := send_r res in
  let errno := send_errno res in
  if r <=? 0 then
    if (errno =? EINTR) || (errno =? EAGAIN) then (a, [], Return true)
    else
      (* signal artificial IsDone, for clean up. *)
      let a := {| conn_ := conn_ a; block_ := block_ a;
                  size_ := Buffer_size (block_ a);
                  callback_ := callback_ a |} in
      if errno =? EPIPE then
        let (a, ev) := DoCallback a in (a, ev, Return false)
      else (a, [], Throw errno)
  else
    let a := {| conn_ := conn_ a; block_ := block_ a;
                size_ := wrap (size_ a + r);
                callback_ := callback_ a |} in
    if size_ a =? Buffer_size (block_ a) then
      let (a, ev) := DoCallback a in (a, ev, Return false)
    else (a, [], Return true).

End AsyncWriteBlock.

(* ================================================================== *)
(** * Timers and the timer priority queue *)

(** [struct Dispatcher::Timer]; the callback is represented by its
    identifier. *)
Record Timer := mkTimer {
  next_timeout : Z;   (* steady_clock::time_point, in clock ticks *)
  timeout : Z;        (* milliseconds *)
  cb : nat
}.

(** [bool operator < (const Timer& b) const
    { return next_timeout > b.next_timeout; }] *)
Definition Timer_lt (a b : Timer) : bool := next_timeout a >? next_timeout b.

(** Clock ticks (nanoseconds) per millisecond: the implicit conversion in
    [time_point + milliseconds]. *)
Definition ticks_per_ms : Z := 1000000.

Definition ms_to_ticks (ms : Z) : Z := ms * ticks_per_ms.

(** [std::chrono::duration_cast<milliseconds>] of a tick count: integer
    division truncating toward zero. *)
Definition duration_cast_ms (ticks : Z) : Z := Z.quot ticks ticks_per_ms.

(** The tick count of a [steady_clock::time_point] and the count of a
    [std::chrono::milliseconds] are 64-bit signed integers; a product or
    a sum that leaves their range wraps around. *)
Definition is_int64 (x : Z) : Prop := - 2 ^ 63 <= x < 2 ^ 63.

Definition wrap_int64 (x : Z) : Z := (x + 2 ^ 63) mod 2 ^ 64 - 2 ^ 63.

(** [time_point + milliseconds]: the milliseconds are converted to clock
    ticks (a multiplication by [ticks_per_ms]) and added to the tick
    count of the time point. *)
Definition time_point_plus (tp ms : Z) : Z :=
  wrap_int64 (tp + wrap_int64 (ms * ticks_per_ms)).

(** [std::priority_queue<Timer, std::vector<Timer>>] with [std::less],
    i.e. [Timer::operator<]: a binary max-heap stored in a vector,
    maintained by [std::push_heap] and [std::pop_heap] (the hole-based
    algorithms of the GNU C++ library). *)
Module TimerPQ.

Definition t := list Timer.

Definition empty (v : t) : bool :=
  match v with
  | [] => true
  | _ :: _ => false
  end.

(** [__push_heap(first, holeIndex, topIndex, value)]:
<<
  parent = (holeIndex - 1) / 2;
  while (holeIndex > topIndex && comp(first + parent, value)) {
    *(first + holeIndex) = *(first + parent);
    holeIndex = parent;
    parent = (holeIndex - 1) / 2;
  }
  *(first + holeIndex) = value;
>>
    [fuel] bounds the number of iterations; [holeIndex] strictly
    decreases, so [fuel = holeIndex] is never exhausted before the loop
    condition fails. *)
Fixpoint push_heap_loop (fuel : nat) (v : t) (holeIndex topIndex : nat)
    (value : Timer) : t :=
  let parent := ((holeIndex - 1) / 2)%nat in
  match fuel with
  | O => list_set v holeIndex value
  | S fuel' =>
      if (topIndex <? holeIndex)%nat && Timer_lt (nth parent v value) value
      then push_heap_loop fuel' (list_set v holeIndex (nth parent v value))
             parent topIndex value
      else list_set v holeIndex value
  end.

Definition std_push_heap (v : t) (holeIndex topIndex : nat) (value : Timer) : t :=
  push_heap_loop holeIndex v holeIndex topIndex value.

(** First loop of [__adjust_heap(first, holeIndex, len, value)]:
<<
  while (secondChild < (len - 1) / 2) {
    secondChild = 2 * (secondChild + 1);
    if (comp(first + secondChild, first + (secondChild - 1)))
      secondChild--;
    *(first + holeIndex) = *(first + secondChild);
    holeIndex = secondChild;
  }
>>
    [secondChild] strictly increases, so [fuel = len] suffices. *)
Fixpoint adjust_heap_loop (fuel : nat) (v : t) (holeIndex secondChild len : nat)
    (value : Timer) : t * nat * nat :=
  match fuel with
  | O => (v, holeIndex, secondChild)
  | S fuel' =>
      if (secondChild <? (len - 1) / 2)%nat then
        let secondChild := (2 * (secondChild + 1))%nat in
        let secondChild :=
          if Timer_lt (nth secondChild v value) (nth (secondChild - 1) v value)
          then (secondChild - 1)%nat else secondChild in
        adjust_heap_loop fuel' (list_set v holeIndex (nth secondChild v value))
          secondChild secondChild len value
      else (v, holeIndex, secondChild)
  end.

(** [__adjust_heap]: the loop above, then
<<
  if ((len & 1) == 0 && secondChild == (len - 2) / 2) {
    secondChild = 2 * (secondChild + 1);
    *(first + holeIndex) = *(first + (secondChild - 1));
    holeIndex = secondChild - 1;
  }
  __push_heap(first, holeIndex, topIndex, value);
>> *)
Definition std_adjust_heap (v : t) (holeIndex len : nat) (value : Timer) : t :=
  let topIndex := holeIndex in
  let '(v, holeIndex, secondChild) :=
    adjust_heap_loop len v holeIndex holeIndex len value in
  let '(v, holeIndex) :=
    if ((len mod 2 =? 0) && (secondChild =? (len - 2) / 2))%nat then
      let secondChild := (2 * (secondChild + 1))%nat in
      (list_set v holeIndex (nth (secondChild - 1) v value),
       (secondChild - 1)%nat)
    else (v, holeIndex) in
  std_push_heap v holeIndex topIndex value.

(** [push(x)]: [c.push_back(x); std::push_heap(c.begin(), c.end())],
    where [push_heap] calls [__push_heap(first, (last - first) - 1, 0,
    *(last - 1))]. *)
Definition push (v : t) (x : Timer) : t :=
  std_push_heap (v ++ [x]) (length v) 0 x.

(** [pop()]: [std::pop_heap(c.begin(), c.end()); c.pop_back()].  For more
    than one element [pop_heap] saves the last element as [value], stores
    the first element in the last slot and calls [__adjust_heap(first, 0,
    last - first - 1, value)], which works on the slots before the last;
    [pop_back] then drops the last slot.  The model runs [__adjust_heap]
    on the vector without its last slot. *)
Definition pop (v : t) : t :=
  match v with
  | [] => []
  | first :: _ =>
      if (1 <? length v)%nat then
        std_adjust_heap (removelast v) 0 (length v - 1) (last v first)
      else removelast v
  end.

End TimerPQ.

(* ================================================================== *)
(** * The dispatcher *)

(** What one invocation of a timer callback does, as far as the
    dispatcher can tell: the boolean it returns and whether it called
    [Terminate()]. *)
Record TimerRun := mkTimerRun {
  returns : bool;
  calls_Terminate : bool
}.

(** One readiness notification delivered by the backend during
    [DispatchOne]: the handler of the record at position [i] of the
    respective deque is invoked, and the connection's [RecvOne] /
    [SendOne] behaves as given. *)
Inductive Ready :=
| ReadyRead (i : nat) (res : RecvResult)
| ReadyWrite (i : nat) (res : SendResult)
| ReadyReadBlock (i : nat) (res : RecvResult)
| ReadyWriteBlock (i : nat) (res : SendResult).

(** How a call of [Dispatch()] ends.  [StillDraining] means that the
    timer loop was still running when the supplied timer-callback runs
    were used up. *)
Inductive Status :=
| Returned
| Threw (errno : Z)
| Crashed
| StillDraining.

Module Dispatcher.

Record t := mk {
  terminate_ : bool;
  timer_pq_ : TimerPQ.t;
  async_read_ : list AsyncReadBuffer.t;
  async_write_ : list AsyncWriteBuffer.t;
  async_read_block_ : list AsyncReadByteBlock.t;
  async_write_block_ : list AsyncWriteBlock.t;
  effects : list Effect
}.

(** A freshly constructed dispatcher. *)
Definition init : t :=
  {| terminate_ := false; timer_pq_ := []; async_read_ := [];
     async_write_ := []; async_read_block_ := []; async_write_block_ := [];
     effects := [] |}.

Definition emit (d : t) (ev : list Effect) : t :=
  {| terminate_ := terminate_ d; timer_pq_ := timer_pq_ d;
     async_read_ := async_read_ d; async_write_ := async_write_ d;
     async_read_block_ := async_read_block_ d;
     async_write_block_ := async_write_block_ d;
     effects := effects d ++ ev |}.

Definition set_timers (d : t) (term : bool) (pq : TimerPQ.t) : t :=
  {| terminate_ := term; timer_pq_ := pq;
     async_read_ := async_read_ d; async_write_ := async_write_ d;
     async_read_block_ := async_read_block_ d;
     async_write_block_ := async_write_block_ d;
     effects := effects d |}.

Definition set_async_read (d : t) (q : list AsyncReadBuffer.t) : t :=
  {| terminate_ := terminate_ d; timer_pq_ := timer_pq_ d;
     async_read_ := q; async_write_ := async_write_ d;
     async_read_block_ := async_read_block_ d;
     async_write_block_ := async_write_block_ d;
     effects := effects d |}.

Definition set_async_write (d : t) (q : list AsyncWriteBuffer.t) : t :=
  {| terminate_ := terminate_ d; timer_pq_ := timer_pq_ d;
     async_read_ := async_read_ d; async_write_ := q;
     async_read_block_ := async_read_block_ d;
     async_write_block_ := async_write_block_ d;
     effects := effects d |}.

Definition set_async_read_block (d : t) (q : list AsyncReadByteBlock.t) : t :=
  {| terminate_ := terminate_ d; timer_pq_ := timer_pq_ d;
     async_read_ := async_read_ d; async_write_ := async_write_ d;
     async_read_block_ := q;
     async_write_block_ := async_write_block_ d;
     effects := effects d |}.

Definition set_async_write_block (d : t) (q : list AsyncWriteBlock.t) : t :=
  {| terminate_ := terminate_ d; timer_pq_ := timer_pq_ d;
     async_read_ := async_read_ d; async_write_ := async_write_ d;
     async_read_block_ := async_read_block_ d;
     async_write_block_ := q;
     effects := effects d |}.

(** [void AddTimer(timeout, cb) { timer_pq_.emplace(steady_clock::now() +
    timeout, duration_cast<milliseconds>(timeout), cb); }]; [now] is the
    value of [steady_clock::now()]. *)
Definition AddTimer (now : Z) (timeout : Z) (cb : nat) (d : t) : t :=
  set_timers d (terminate_ d)
    (TimerPQ.push (timer_pq_ d)
       (mkTimer (time_point_plus now timeout) timeout cb)).

(** [void AsyncRead(Connection& c, size_t n, const AsyncReadCallback&
    done_cb)] *)
Definition AsyncRead (c : Connection) (n : Z) (done_cb : Delegate) (d : t) : t :=
  if n =? 0 then
    emit d match done_cb with
           | Some cb => [ReadDone (cb_id cb) c Buffer_empty]
           | None => []
           end
  else
    let d := set_async_read d
               (async_read_ d ++ [AsyncReadBuffer.ctor c n done_cb]) in
    emit d [AddRead c HReadBuffer].

(** [void AsyncRead(Connection& c, size_t n, data::PinnedByteBlockPtr&&
    block, const AsyncReadByteBlockCallback& done_cb)]; [block] is the
    byte block the (non-null) pointer refers to. *)
Definition AsyncRead_block (c : Connection) (n : Z) (block : ByteBlock)
    (done_cb : Delegate) (d : t) : t :=
  if Buffer_size block =? 0 then
    emit d match done_cb with
           | Some cb => [ReadBlockDone (cb_id cb) c (Some block)]
           | None => []
           end
  else
    let d := set_async_read_block d
               (async_read_block_ d
                ++ [AsyncReadByteBlock.ctor c n (Some block) done_cb]) in
    emit d [AddRead c HReadByteBlock].

(** [void AsyncWrite(Connection& c, Buffer&& buffer, const
    AsyncWriteCallback& done_cb = AsyncWriteCallback())] *)
Definition AsyncWrite (c : Connection) (buffer : Buffer) (done_cb : Delegate)
    (d : t) : t :=
  if Buffer_size buffer =? 0 then
    emit d (fire_write done_cb c)
  else
    let d := set_async_write d
               (async_write_ d ++ [AsyncWriteBuffer.ctor c buffer done_cb]) in
    emit d [AddWrite c HWriteBuffer].

(** [void AsyncWrite(Connection& c, const data::PinnedBlock& block, const
    AsyncWriteCallback& done_cb = AsyncWriteCallback())] *)
Definition AsyncWrite_block (c : Connection) (block : PinnedBlock)
    (done_cb : Delegate) (d : t) : t :=
  if Buffer_size block =? 0 then
    emit d (fire_write done_cb c)
  else
    let d := set_async_write_block d
               (async_write_block_ d ++ [AsyncWriteBlock.ctor c block done_cb]) in
    emit d [AddWrite c HWriteBlock].

(** [void Terminate() { terminate_ = true; }] *)
Definition Terminate (d : t) : t := set_timers d true (timer_pq_ d).

(** [bool HasAsyncWrites() const { return (async_write_.size() != 0) ||
    (async_write_block_.size() != 0); }] *)
Definition HasAsyncWrites (d : t) : bool :=
  negb (length (async_write_ d) =? 0)%nat
  || negb (length (async_write_block_ d) =? 0)%nat.

(** Body of the timer loop of [Dispatch()] for the entry [top] at the
    front of the queue:
<<
  const Timer& top = timer_pq_.top();
  if (top.cb()) {
    timer_pq_.emplace(top.next_timeout + top.timeout, top.timeout, top.cb);
  }
  timer_pq_.pop();
>>
    [run] is what this invocation of the callback does. *)
Definition fire_top (run : TimerRun) (top : Timer) (d : t) : t :=
  let d := emit d [TimerFired (cb top) (next_timeout top) (returns run)] in
  let term := terminate_ d || calls_Terminate run in
  let pq :=
    if returns run then
      TimerPQ.push (timer_pq_ d)
        (mkTimer (time_point_plus (next_timeout top) (timeout top))
           (timeout top) (cb top))
    else timer_pq_ d in
  set_timers d term (TimerPQ.pop pq).

(** The timer loop of [Dispatch()]:
<<
  while (!terminate_ && !timer_pq_.empty() &&
         timer_pq_.top().next_timeout <= now) { ... }
>>
    [runs] lists what the successive callback invocations do.  The result
    is the state reached and whether the loop condition became false
    (otherwise the loop was still running when [runs] was used up). *)
Fixpoint drain_timers (now : Z) (runs : list TimerRun) (d : t) : t * bool :=
  match timer_pq_ d with
  | [] => (d, true)
  | top :: _ =>
      if negb (terminate_ d) && (next_timeout top <=? now) then
        match runs with
        | [] => (d, false)
        | run :: runs' => drain_timers now runs' (fire_top run top d)
        end
      else (d, true)
  end.

(** The poll timeout of [Dispatch()]:
<<
  if (timer_pq_.empty()) DispatchOne(milliseconds(10000));
  else {
    auto diff = duration_cast<milliseconds>(timer_pq_.top().next_timeout - now);
    if (diff < milliseconds(1)) diff = milliseconds(1);
    DispatchOne(diff);
  }
>> *)
Definition wait_timeout (now : Z) (pq : TimerPQ.t) : Z :=
  match pq with
  | [] => 10000
  | top :: _ =>
      let diff := duration_cast_ms (next_timeout top - now) in
      if diff <? 1 then 1 else diff
  end.

(** Delivery of one readiness notification.  A notification for a
    position that holds no record is ignored. *)
Definition deliver (rd : Ready) (d : t) : t * Outcome :=
  match rd with
  | ReadyRead i res =>
      match nth_error (async_read_ d) i with
      | Some a =>
          let '(a, ev, out) := AsyncReadBuffer.call res a in
          (emit (set_async_read d (list_set (async_read_ d) i a)) ev, out)
      | None => (d, Return false)
      end
  | ReadyWrite i res =>
      match nth_error (async_write_ d) i with
      | Some a =>
          let '(a, ev, out) := AsyncWriteBuffer.call res a in
          (emit (set_async_write d (list_set (async_write_ d) i a)) ev, out)
      | None => (d, Return false)
      end
  | ReadyReadBlock i res =>
      match nth_error (async_read_block_ d) i with
      | Some a =>
          let '(a, ev, out) := AsyncReadByteBlock.call res a in
          (emit (set_async_read_block d
                   (list_set (async_read_block_ d) i a)) ev, out)
      | None => (d, Return false)
      end
  | ReadyWriteBlock i res =>
      match nth_error (async_write_block_ d) i with
      | Some a =>
          let '(a, ev, out) := AsyncWriteBlock.call res a in
          (emit (set_async_write_block d
                   (list_set (async_write_block_ d) i a)) ev, out)
      | None => (d, Return false)
      end
  end.

(** The backend's [DispatchOne]: the ready handlers run one after the
    other; an exception leaves the loop at once. *)
Fixpoint run_backend (io : list Ready) (d : t) : t * Status :=
  match io with
  | [] => (d, Returned)
  | rd :: io' =>
      match deliver rd d with
      | (d, Return _) => run_backend io' d
      | (d, Throw e) => (d, Threw e)
      | (d, NullDeref) => (d, Crashed)
      end
  end.

(** "clean up finished AsyncRead/Writes": the four [while] loops at the
    end of [Dispatch()]. *)
Definition cleanup (d : t) : t :=
  let d := set_async_read d (reap AsyncReadBuffer.IsDone (async_read_ d)) in
  let d := set_async_write d (reap AsyncWriteBuffer.IsDone (async_write_ d)) in
  let d := set_async_read_block d
             (reap AsyncReadByteBlock.IsDone (async_read_block_ d)) in
  set_async_write_block d
    (reap AsyncWriteBlock.IsDone (async_write_block_ d)).

(** [void Dispatch()]; [now] is the value of [steady_clock::now()] at its
    start, [runs] what the timer callbacks do and [io] what the backend
    delivers during [DispatchOne]. *)
Definition Dispatch (now : Z) (runs : list TimerRun) (io : list Ready) (d : t)
  : t * Status :=
  let (d, exited) := drain_timers now runs d in
  if negb exited then (d, StillDraining)
  else if terminate_ d then (d, Returned)
  else
    let d := emit d [DispatchOne (wait_timeout now (timer_pq_ d))] in
    match run_backend io d with
    | (d, Returned) => (cleanup d, Returned)
    | (d, st) => (d, st)
    end.

End Dispatcher.

(* ================================================================== *)
(** * Runs of the dispatcher and observations on its effects *)

(** The operations a client performs on a dispatcher. *)
Inductive Op :=
| OpAddTimer (now timeout : Z) (cb : nat)
| OpAsyncRead (c : Connection) (n : Z) (done_cb : Delegate)
| OpAsyncReadBlock (c : Connection) (n : Z) (block : ByteBlock) (done_cb : Delegate)
| OpAsyncWrite (c : Connection) (buffer : Buffer) (done_cb : Delegate)
| OpAsyncWriteBlock (c : Connection) (block : PinnedBlock) (done_cb : Delegate)
| OpTerminate
| OpDispatch (now : Z) (runs : list TimerRun) (io : list Ready).

Definition step (d : Dispatcher.t) (op : Op) : Dispatcher.t :=
  match op with
  | OpAddTimer now timeout cb => Dispatcher.AddTimer now timeout cb d
  | OpAsyncRead c n done_cb => Dispatcher.AsyncRead c n done_cb d
  | OpAsyncReadBlock c n block done_cb =>
      Dispatcher.AsyncRead_block c n block done_cb d
  | OpAsyncWrite c buffer done_cb => Dispatcher.AsyncWrite c buffer done_cb d
  | OpAsyncWriteBlock c block done_cb =>
      Dispatcher.AsyncWrite_block c block done_cb d
  | OpTerminate => Dispatcher.Terminate d
  | OpDispatch now runs io => fst (Dispatcher.Dispatch now runs io d)
  end.

Definition exec (ops : list Op) (d : Dispatcher.t) : Dispatcher.t :=
  fold_left step ops d.

(** The effects added on the way from [d] to a later state [d']. *)
Definition since (d d' : Dispatcher.t) : list Effect :=
  skipn (length (Dispatcher.effects d)) (Dispatcher.effects d').

(** The [next_timeout] values of the timer firings in a trace. *)
Fixpoint expiries (ev : list Effect) : list Z :=
  match ev with
  | [] => []
  | TimerFired _ e _ :: ev' => e :: expiries ev'
  | _ :: ev' => expiries ev'
  end.

(** The callbacks of the timer firings in a trace. *)
Fixpoint fired_callbacks (ev : list Effect) : list nat :=
  match ev with
  | [] => []
  | TimerFired c _ _ :: ev' => c :: fired_callbacks ev'
  | _ :: ev' => fired_callbacks ev'
  end.

(** The [next_timeout] values of the firings of callback [c]. *)
Fixpoint expiries_of (c : nat) (ev : list Effect) : list Z :=
  match ev with
  | [] => []
  | TimerFired c' e _ :: ev' =>
      if (c' =? c)%nat then e :: expiries_of c ev' else expiries_of c ev'
  | _ :: ev' => expiries_of c ev'
  end.

(** Every firing of callback [c] in the trace returned [true]. *)
Fixpoint keeps_returning_true (c : nat) (ev : list Effect) : bool :=
  match ev with
  | [] => true
  | TimerFired c' _ r :: ev' =>
      (negb (c' =? c)%nat || r) && keeps_returning_true c ev'
  | _ :: ev' => keeps_returning_true c ev'
  end.

(** The timeouts of the backend waits in a trace. *)
Fixpoint waits (ev : list Effect) : list Z :=
  match ev with
  | [] => []
  | DispatchOne w :: ev' => w :: waits ev'
  | _ :: ev' => waits ev'
  end.

(** The heap order of the timer vector: no entry expires before its
    parent, the parent of slot [i > 0] being slot [(i - 1) / 2]. *)
Definition heap_ordered (v : TimerPQ.t) : Prop :=
  forall i d, (0 < i < length v)%nat ->
    next_timeout (nth ((i - 1) / 2) v d) <= next_timeout (nth i v d).

(** Invariants of the two heap loops.  While an element is being sifted,
    the slot [hole] has no meaningful content: the heap order holds
    between all other slots, and the children of the hole are already
    ordered after the parent of the hole. *)
Definition ordered_around_hole (v : TimerPQ.t) (hole : nat) : Prop :=
  (forall i d, (0 < i < length v)%nat ->
     i <> hole -> ((i - 1) / 2)%nat <> hole ->
     next_timeout (nth ((i - 1) / 2) v d) <= next_timeout (nth i v d))
  /\ (forall i d, (0 < i < length v)%nat ->
     ((i - 1) / 2)%nat = hole -> (0 < hole)%nat ->
     next_timeout (nth ((hole - 1) / 2) v d) <= next_timeout (nth i v d)).

(** [value] may be stored in the hole without violating the order towards
    the children of the hole. *)
Definition below_children (v : TimerPQ.t) (hole : nat) (value : Timer) : Prop :=
  forall i d, (0 < i < length v)%nat -> ((i - 1) / 2)%nat = hole ->
    next_timeout value <= next_timeout (nth i v d).

(** Classification of effects. *)
Definition is_completion (e : Effect) : bool :=
  match e with
  | ReadDone _ _ _ | ReadBlockDone _ _ _ | WriteDone _ _ => true
  | _ => false
  end.

Definition is_timer_firing (e : Effect) : bool :=
  match e with
  | TimerFired _ _ _ => true
  | _ => false
  end.

(** What the I/O part of [Dispatch()] leaves alone (the timers and the
    terminate flag) and what it adds (completion callbacks only). *)
Definition io_only (d d' : Dispatcher.t) : Prop :=
  Dispatcher.timer_pq_ d' = Dispatcher.timer_pq_ d
  /\ Dispatcher.terminate_ d' = Dispatcher.terminate_ d
  /\ exists ev, Dispatcher.effects d' = Dispatcher.effects d ++ ev
                /\ forallb is_completion ev = true.

(** The operation registers a timer with callback [c]. *)
Definition adds_timer_for (c : nat) (op : Op) : bool :=
  match op with
  | OpAddTimer _ _ c' => (c' =? c)%nat
  | _ => false
  end.

(** The queue entries that belong to callback [c]. *)
Definition entries_of (c : nat) (pq : TimerPQ.t) : list Timer :=
  filter (fun t => (cb t =? c)%nat) pq.

(** The entry of a timer with callback [c] and interval [T] ms that was
    added at [t0] and has been requeued [k - 1] times. *)
Definition kth_entry (t0 T : Z) (c : nat) (k : nat) : Timer :=
  mkTimer (t0 + Z.of_nat k * ms_to_ticks T) T c.

(** The scheduled expiries number [k + 1], ..., [k + m] of that timer. *)
Definition kth_expiries (t0 T : Z) (k m : nat) : list Z :=
  map (fun j => t0 + Z.of_nat j * ms_to_ticks T) (seq (S k) m).

(** [tracks t0 T c K d d']: on the way from [d] to [d'], the dispatcher
    treats the repeating timer of callback [c] (added at [t0] with
    interval [T]) as scheduled: if entry number [k + 1] is the only entry
    of [c] in the queue of [d], all firings of [c] on the way return
    [true] and they do not lead beyond entry number [K], then these
    firings are for the entries number [k + 1], ..., [k + m], and entry
    number [k + m + 1] is the only entry of [c] in the queue of [d']. *)
Definition tracks (t0 T : Z) (c : nat) (K : nat) (d d' : Dispatcher.t)
  : Prop :=
  exists ev,
    Dispatcher.effects d' = Dispatcher.effects d ++ ev
    /\ forall k,
         entries_of c (Dispatcher.timer_pq_ d) = [kth_entry t0 T c (S k)] ->
         keeps_returning_true c ev = true ->
         (S k + length (expiries_of c ev) <= K)%nat ->
         exists m,
           expiries_of c ev = kth_expiries t0 T k m
           /\ entries_of c (Dispatcher.timer_pq_ d')
              = [kth_entry t0 T c (S (k + m))].

(* ================================================================== *)
(** * Further disk allocation functors *)

(** Conversion of a [size_t] to [int] (32 bits, two's complement), as in
    [int get_offset() const { return offset_; }]. *)
Definition to_int (x : Z) : Z := (x + 2 ^ 31) mod 2 ^ 32 - 2 ^ 31.

Definition is_int (x : Z) : Prop := - 2 ^ 31 <= x < 2 ^ 31.

(** [struct SingleDisk { size_t disk_; }] *)
Module SingleDisk.

Record t := mk {
  disk_ : Z
}.

(** [explicit SingleDisk(size_t d, size_t = 0) : disk_(d)] *)
Definition ctor (d : Z) (_unused : Z) : t := {| disk_ := d |}.

(** [size_t operator () (size_t) const { return disk_; }] *)
Definition call (s : t) (_i : Z) : Z := disk_ s.

End SingleDisk.

(** [template <typename BaseAllocator> struct OffsetAllocator
    { BaseAllocator base_; size_t offset_; }] *)
Module OffsetAllocator.

Section WithBase.

Variable BaseAllocator : Type.

(** [BaseAllocator::operator () (size_t)] *)
Variable base_call : BaseAllocator -> Z -> Z.

Record t := mk {
  base_ : BaseAllocator;
  offset_ : Z
}.

(** [OffsetAllocator(int offset, const BaseAllocator& base) :
    base_(base), offset_(offset)]: the [int] is converted to [size_t]. *)
Definition ctor (offset : Z) (base : BaseAllocator) : t :=
  {| base_ := base; offset_ := wrap offset |}.

(** [explicit OffsetAllocator(const BaseAllocator& base) : base_(base),
    offset_(0)] *)
Definition ctor_base (base : BaseAllocator) : t :=
  {| base_ := base; offset_ := 0 |}.

(** [size_t operator () (size_t i) const { return base_(offset_ + i); }] *)
Definition call (a : t) (i : Z) : Z :=
  base_call (base_ a) (wrap (offset_ a + i)).

(** [int get_offset() const { return offset_; }] *)
Definition get_offset (a : t) : Z := to_int (offset_ a).

(** [void set_offset(size_t i) { offset_ = i; }] *)
Definition set_offset (a : t) (i : Z) : t :=
  {| base_ := base_ a; offset_ := i |}.

End WithBase.

End OffsetAllocator.

(* ================================================================== *)
(** * Whole transfers *)

(** The life of the other three record kinds under the backend, as
    [AsyncReadBuffer.run]: the handler is invoked once per readiness
    notification for as long as it returns [true]. *)
Fixpoint run_write_buffer (ress : list SendResult) (a : AsyncWriteBuffer.t)
  : AsyncWriteBuffer.t * list Effect * Outcome :=
  match ress with
  | [] => (a, [], Return true)
  | res :: ress' =>
      match AsyncWriteBuffer.call res a with
      | (a', ev, Return true) =>
          let '(a'', ev', out) := run_write_buffer ress' a' in
          (a'', ev ++ ev', out)
      | stopped => stopped
      end
  end.

Fixpoint run_write_block (ress : list SendResult) (a : AsyncWriteBlock.t)
  : AsyncWriteBlock.t * list Effect * Outcome :=
  match ress with
  | [] => (a, [], Return true)
  | res :: ress' =>
      match AsyncWriteBlock.call res a with
      | (a', ev, Return true) =>
          let '(a'', ev', out) := run_write_block ress' a' in
          (a'', ev ++ ev', out)
      | stopped => stopped
      end
  end.

Fixpoint run_read_block (ress : list RecvResult) (a : AsyncReadByteBlock.t)
  : AsyncReadByteBlock.t * list Effect * Outcome :=
  match ress with
  | [] => (a, [], Return true)
  | res :: ress' =>
      match AsyncReadByteBlock.call res a with
      | (a', ev, Return true) =>
          let '(a'', ev', out) := run_read_block ress' a' in
          (a'', ev ++ ev', out)
      | stopped => stopped
      end
  end.

(** The bytes a successful [SendOne(data + cursor, size - cursor)] that
    returned [r] has taken: the first [r] bytes from the cursor on. *)
Definition taken (payload : list byte) (cursor r : Z) : list byte :=
  firstn (Z.to_nat r) (skipn (Z.to_nat cursor) payload).

(** The bytes handed to the connection over the life of a buffer
    write. *)
Fixpoint wire_write_buffer (ress : list SendResult) (a : AsyncWriteBuffer.t)
  : list byte :=
  match ress with
  | [] => []
  | res :: ress' =>
      let sent :=
        if 0 <? send_r res
        then taken (AsyncWriteBuffer.buffer_ a) (AsyncWriteBuffer.size_ a)
               (send_r res)
        else [] in
      match AsyncWriteBuffer.call res a with
      | (a', _, Return true) => sent ++ wire_write_buffer ress' a'
      | _ => sent
      end
  end.

(** The bytes handed to the connection over the life of a block
    write. *)
Fixpoint wire_write_block (ress : list SendResult) (a : AsyncWriteBlock.t)
  : list byte :=
  match ress with
  | [] => []
  | res :: ress' =>
      let sent :=
        if 0 <? send_r res
        then taken (AsyncWriteBlock.block_ a) (AsyncWriteBlock.size_ a)
               (send_r res)
        else [] in
      match AsyncWriteBlock.call res a with
      | (a', _, Return true) => sent ++ wire_write_block ress' a'
      | _ => sent
      end
  end.

(** A well-behaved connection: a send either makes progress ([r > 0]) or
    fails transiently ([EINTR], [EAGAIN]). *)
Definition send_progress (res : SendResult) : bool :=
  (0 <? send_r res)
  || (send_errno res =? EINTR) || (send_errno res =? EAGAIN).

(** Likewise for a receive, which hands over exactly the [r] bytes it
    reports. *)
Definition recv_progress (res : RecvResult) : bool :=
  if 0 <? recv_r res
  then Z.of_nat (length (recv_data res)) =? recv_r res
  else (recv_errno res =? EINTR) || (recv_errno res =? EAGAIN).

(** The number of bytes moved by a sequence of calls. *)
Fixpoint transferred (rs : list Z) : Z :=
  match rs with
  | [] => 0
  | r :: rs' => Z.max 0 r + transferred rs'
  end.

(** The bytes received by a sequence of calls, in order. *)
Fixpoint stream (ress : list RecvResult) : list byte :=
  match ress with
  | [] => []
  | res :: ress' =>
      (if 0 <? recv_r res then recv_data res else []) ++ stream ress'
  end.

(** Modelled from the spec: [Buffer(const void* data, size_t size)], the
    constructor of [net::Buffer] that copies [size] bytes. *)
Definition Buffer_copy (data : list byte) (size : Z) : Buffer :=
  firstn (Z.to_nat size) data.

(** [void AsyncWriteCopy(Connection& c, const void* buffer, size_t size,
    const AsyncWriteCallback& done_cb) { return AsyncWrite(c,
    Buffer(buffer, size), done_cb); }] *)
Definition AsyncWriteCopy (c : Connection) (buffer : list byte) (size : Z)
    (done_cb : Delegate) (d : Dispatcher.t) : Dispatcher.t :=
  Dispatcher.AsyncWrite c (Buffer_copy buffer size) done_cb d.

(** [void AsyncWriteCopy(Connection& c, const std::string& str, const
    AsyncWriteCallback& done_cb) { return AsyncWriteCopy(c, str.data(),
    str.size(), done_cb); }]; the string is given by its bytes. *)
Definition AsyncWriteCopy_string (c : Connection) (str : list byte)
    (done_cb : Delegate) (d : Dispatcher.t) : Dispatcher.t :=
  AsyncWriteCopy c str (Buffer_size str) done_cb d.

(* ================================================================== *)
(** * [Loop()] and further observations *)

(** What one iteration of [Loop()] meets: the clock value at the start
    of [Dispatch()], what the timer callbacks do and what the backend
    delivers. *)
Record Iteration := mkIteration {
  it_now : Z;
  it_runs : list TimerRun;
  it_io : list Ready
}.

(** How the time under [Loop()] ends: [Loop()] returns, a [Dispatch()]
    does not return normally, or the loop is still running when the
    supplied iterations are used up. *)
Inductive LoopStatus :=
| LoopReturned
| LoopStopped (st : Status)
| LoopRunning.

(** [void Loop() { while (!terminate_) { Dispatch(); } }] *)
Fixpoint Loop (iters : list Iteration) (d : Dispatcher.t)
  : Dispatcher.t * LoopStatus :=
  if Dispatcher.terminate_ d then (d, LoopReturned)
  else
    match iters with
    | [] => (d, LoopRunning)
    | it :: iters' =>
        match Dispatcher.Dispatch (it_now it) (it_runs it) (it_io it) d with
        | (d', Returned) => Loop iters' d'
        | (d', st) => (d', LoopStopped st)
        end
    end.

(** The callbacks of the timer firings in a trace that returned
    [false]. *)
Fixpoint dropped_callbacks (ev : list Effect) : list nat :=
  match ev with
  | [] => []
  | TimerFired c _ false :: ev' => c :: dropped_callbacks ev'
  | _ :: ev' => dropped_callbacks ev'
  end.

(** How often an entry with a positive interval can fire in a
    [Dispatch()] that started at [now]: once if it is due, and once more
    for every full interval that has passed since. *)
Definition due_firings (now : Z) (x : Timer) : Z :=
  if next_timeout x <=? now
  then (now - next_timeout x) / ms_to_ticks (timeout x) + 1
  else 0.

Fixpoint pending_firings (now : Z) (pq : TimerPQ.t) : Z :=
  match pq with
  | [] => 0
  | x :: pq' => due_firings now x + pending_firings now pq'
  end.

(** A repeating timer whose requeueing at [now] stays within the range
    of the clock: a positive interval, an expiry within the range, and
    [now] plus the interval within the range. *)
Definition timer_in_range (now : Z) (x : Timer) : Prop :=
  0 < timeout x
  /\ is_int64 (next_timeout x)
  /\ now + ms_to_ticks (timeout x) < 2 ^ 63.

(** A timer that is due at [now], has an interval of zero or less, and
    whose requeue time (expiry plus interval) is within the range of the
    clock. *)
Definition spinning_timer (now : Z) (x : Timer) : Prop :=
  next_timeout x <= now
  /\ timeout x <= 0
  /\ is_int64 (next_timeout x + ms_to_ticks (timeout x)).

(** [q'] is what the clean-up loop leaves of the queue [q]: the records
    removed are a prefix of [q] and all done, and the record now at the
    front, if any, is not done. *)
Definition reaped_front {A : Type} (is_done : A -> bool) (q q' : list A)
  : Prop :=
  exists finished,
    q = finished ++ q'
    /\ forallb is_done finished = true
    /\ match q' with
       | a :: _ => is_done a = false
       | [] => True
       end.

(** The lengths of the four transfer queues. *)
Definition queue_lengths (d : Dispatcher.t) : nat * nat * nat * nat :=
  (length (Dispatcher.async_read_ d), length (Dispatcher.async_write_ d),
   length (Dispatcher.async_read_block_ d),
   length (Dispatcher.async_write_block_ d)).

(* ================================================================== *)
(** * Properties of the disk allocation functors *)

Section BlockAllocFacts.
Import BlockAlloc.

Lemma wrap_small (x : Z) : is_size_t x -> wrap x = x.
Proof. intros H. unfold wrap. apply Z.mod_small. exact H. Qed.

Lemma diff_of_range (b e : Z) :
  is_size_t b -> is_size_t e -> b < e -> diff_ (Striping_ctor b e) = e - b.
Proof.
  unfold is_size_t. intros Hb He Hlt. simpl. apply wrap_small.
  unfold is_size_t. lia.
Qed.

(** Adding an in-range offset to [begin_] neither leaves the disk range
    nor wraps around. *)
Lemma offset_in_range (b e x : Z) :
  is_size_t b -> is_size_t e -> 0 <= x < e - b ->
  b <= wrap (b + x) < e.
Proof.
  unfold is_size_t. intros Hb He Hx.
  rewrite wrap_small by (unfold is_size_t; lia). lia.
Qed.

Lemma identity_perm_length (n : Z) :
  length (identity_perm n) = Z.to_nat n.
Proof. unfold identity_perm. now rewrite length_map, length_seq. Qed.

Lemma identity_perm_bound (n x : Z) :
  In x (identity_perm n) -> 0 <= x < n.
Proof.
  unfold identity_perm. rewrite in_map_iff.
  intros [k [<- Hk]]. apply in_seq in Hk. lia.
Qed.

(** Every entry of a shuffled identity vector of length [n] that is read
    at an index below [n] lies below [n]. *)
Lemma shuffled_entry_bound (p : list Z) (n k : Z) :
  Permutation p (identity_perm n) -> 0 <= k < n ->
  0 <= nth (Z.to_nat k) p 0 < n.
Proof.
  intros Hp Hk. apply identity_perm_bound.
  apply (Permutation_in _ Hp). apply nth_In.
  rewrite (Permutation_length Hp), identity_perm_length. lia.
Qed.

End BlockAllocFacts.

(** C10.  Over a disk range [b, e) with [b < e], every functor of the
    striping family maps every index [i] into the range: [Striping],
    [FullyRandom] (whatever its engine returns), [SimpleRandom] (whatever
    offset its engine chose) and [RandomCyclic] (whatever permutation
    [std::random_shuffle] produced) all return [v] with [b <= v < e]. *)
Theorem striping_family_in_range
    (b e i rnd : Z) (shuffle : list Z -> list Z) :
  is_size_t b -> is_size_t e -> b < e ->
  Permutation (shuffle (BlockAlloc.identity_perm (e - b)))
              (BlockAlloc.identity_perm (e - b)) ->
  b <= BlockAlloc.Striping_call (BlockAlloc.Striping_ctor b e) i < e
  /\ b <= BlockAlloc.FullyRandom_call (BlockAlloc.FullyRandom_ctor b e) rnd i < e
  /\ b <= BlockAlloc.SimpleRandom_call (BlockAlloc.SimpleRandom_ctor rnd b e) i < e
  /\ b <= BlockAlloc.RandomCyclic_call (BlockAlloc.RandomCyclic_ctor shuffle b e) i < e.
Proof.
  intros Hb He Hlt Hsh.
  pose proof (diff_of_range b e Hb He Hlt) as Hd.
  assert (Hpos : 0 < e - b) by lia.
  unfold BlockAlloc.Striping_call, BlockAlloc.FullyRandom_call,
    BlockAlloc.SimpleRandom_call, BlockAlloc.RandomCyclic_call,
    BlockAlloc.FullyRandom_ctor, BlockAlloc.SimpleRandom_ctor,
    BlockAlloc.RandomCyclic_ctor.
  cbn [BlockAlloc.sr_base BlockAlloc.rc_base BlockAlloc.offset_
       BlockAlloc.perm_].
  rewrite !Hd.
  cbn [BlockAlloc.begin_ BlockAlloc.Striping_ctor].
  split; [|split; [|split]].
  - apply offset_in_range; auto. apply Z.mod_pos_bound; lia.
  - apply offset_in_range; auto. apply Z.mod_pos_bound; lia.
  - apply offset_in_range; auto. apply Z.mod_pos_bound; lia.
  - apply offset_in_range; auto.
    apply shuffled_entry_bound; auto. apply Z.mod_pos_bound; lia.
Qed.

Lemma striping_family_in_range_witness :
  2 <= BlockAlloc.Striping_call (BlockAlloc.Striping_ctor 2 5) 7 < 5
  /\ 2 <= BlockAlloc.FullyRandom_call (BlockAlloc.FullyRandom_ctor 2 5) 11 7 < 5
  /\ 2 <= BlockAlloc.SimpleRandom_call (BlockAlloc.SimpleRandom_ctor 11 2 5) 7 < 5
  /\ 2 <= BlockAlloc.RandomCyclic_call
            (BlockAlloc.RandomCyclic_ctor (@rev Z) 2 5) 7 < 5.
Proof.
  apply (striping_family_in_range 2 5 7 11 (@rev Z)).
  - unfold is_size_t, size_t_modulus. lia.
  - unfold is_size_t, size_t_modulus. lia.
  - lia.
  - apply Permutation_sym, Permutation_rev.
Defined.

(* ================================================================== *)
(** * Properties of the readiness handlers *)

(** Rewrites the test [r <=? 0] of a handler whose call failed, then
    decides the [errno] comparisons once [errno] is a constant. *)
Ltac failed_call Hr :=
  cbv beta delta [AsyncReadBuffer.call AsyncWriteBuffer.call
                  AsyncReadByteBlock.call AsyncWriteBlock.call
                  AsyncReadBuffer.DoCallback AsyncWriteBuffer.DoCallback
                  AsyncReadByteBlock.DoCallback AsyncWriteBlock.DoCallback];
  cbn [recv_r recv_errno recv_data send_r send_errno];
  rewrite (proj2 (Z.leb_le _ 0) Hr);
  cbn.

Lemma Buffer_size_nonneg (b : Buffer) : 0 <= Buffer_size b.
Proof. unfold Buffer_size. lia. Qed.

Lemma store_length (buf : list byte) (pos : nat) (bytes : list byte) :
  length (store buf pos bytes) = length buf.
Proof.
  revert pos bytes. induction buf as [|b buf IH]; intros pos bytes.
  - reflexivity.
  - destruct pos as [|p]; cbn.
    + destruct bytes as [|x bytes]; cbn; [reflexivity|].
      now rewrite IH.
    + now rewrite IH.
Qed.

Lemma Buffer_alloc_size (n : Z) : 0 <= n -> Buffer_size (Buffer_alloc n) = n.
Proof.
  intros Hn. unfold Buffer_size, Buffer_alloc.
  rewrite repeat_length. lia.
Qed.

(** C9.  When [RecvOne] / [SendOne] fails ([r <= 0]) with [errno] equal
    to [EINTR] or [EAGAIN], the handler of each of the four record kinds
    returns [true] (stay registered), invokes no callback and leaves the
    record exactly as it was: cursor, payload and [IsDone()] are
    unchanged.  (For a block read the record must still hold its block,
    which is the case whenever [IsDone()] is false.) *)
Theorem transient_result_keeps_record (r errno : Z) :
  r <= 0 -> errno = EINTR \/ errno = EAGAIN ->
  (forall data a,
     AsyncReadBuffer.call (mkRecv r errno data) a = (a, [], Return true))
  /\ (forall a,
     AsyncWriteBuffer.call (mkSend r errno) a = (a, [], Return true))
  /\ (forall data a, AsyncReadByteBlock.IsDone a = false ->
     AsyncReadByteBlock.call (mkRecv r errno data) a = (a, [], Return true))
  /\ (forall a,
     AsyncWriteBlock.call (mkSend r errno) a = (a, [], Return true)).
Proof.
  intros Hr Herr. repeat split; intros.
  - destruct Herr; subst errno; failed_call Hr; reflexivity.
  - destruct Herr; subst errno; failed_call Hr; reflexivity.
  - unfold AsyncReadByteBlock.IsDone in H.
    unfold AsyncReadByteBlock.call.
    destruct (AsyncReadByteBlock.block_ a) as [blk|]; [|discriminate].
    cbn [recv_r recv_errno]. rewrite (proj2 (Z.leb_le _ 0) Hr).
    destruct Herr; subst errno; reflexivity.
  - destruct Herr; subst errno; failed_call Hr; reflexivity.
Qed.

Lemma transient_result_keeps_record_witness :
  let a := AsyncReadByteBlock.ctor 3%nat 4 (Some [x00; x00; x00; x00])
             (Some (mkCallback 1 true)) in
  AsyncReadByteBlock.call (mkRecv (-1) EAGAIN []) a = (a, [], Return true).
Proof.
  intros a.
  refine (proj1 (proj2 (proj2
           (transient_result_keeps_record (-1) EAGAIN _ _))) [] a _).
  - lia.
  - right. reflexivity.
  - reflexivity.
Defined.

(** C2, as the code has it.  Let [RecvOne] / [SendOne] fail with
    [r <= 0].  On the two read paths [errno] 0, [EPIPE] and [ECONNRESET]
    are absorbed: the cursor is set to the total, [IsDone()] holds, the
    callback (if any) is invoked -- with an empty buffer for a buffer
    read, with the block for a block read -- and the handler returns
    [false].  On the two write paths only [EPIPE] is absorbed in this
    way; any other [errno] except [EINTR] and [EAGAIN], in particular 0
    and [ECONNRESET], sets the cursor to the total and throws
    [net::Exception] with that [errno] without invoking the callback. *)
Theorem peer_closure_handling (r : Z) :
  r <= 0 ->
  (forall errno data a,
     errno = 0 \/ errno = EPIPE \/ errno = ECONNRESET ->
     exists a',
       AsyncReadBuffer.call (mkRecv r errno data) a
       = (a',
          match AsyncReadBuffer.callback_ a with
          | Some cb => [ReadDone (cb_id cb) (AsyncReadBuffer.conn_ a) Buffer_empty]
          | None => []
          end,
          Return false)
       /\ AsyncReadBuffer.size_ a' = Buffer_size (AsyncReadBuffer.buffer_ a)
       /\ AsyncReadBuffer.buffer_ a' = AsyncReadBuffer.buffer_ a
       /\ AsyncReadBuffer.IsDone a' = true)
  /\ (forall errno data a blk,
     errno = 0 \/ errno = EPIPE \/ errno = ECONNRESET ->
     AsyncReadByteBlock.block_ a = Some blk ->
     exists a',
       AsyncReadByteBlock.call (mkRecv r errno data) a
       = (a',
          match AsyncReadByteBlock.callback_ a with
          | Some cb =>
              [ReadBlockDone (cb_id cb) (AsyncReadByteBlock.conn_ a) (Some blk)]
          | None => []
          end,
          Return false)
       /\ AsyncReadByteBlock.pos_ a' = AsyncReadByteBlock.size_ a
       /\ AsyncReadByteBlock.size_ a' = AsyncReadByteBlock.size_ a
       /\ AsyncReadByteBlock.IsDone a' = true)
  /\ (forall a,
     exists a',
       AsyncWriteBuffer.call (mkSend r EPIPE) a
       = (a', fire_write (AsyncWriteBuffer.callback_ a) (AsyncWriteBuffer.conn_ a),
          Return false)
       /\ AsyncWriteBuffer.size_ a' = Buffer_size (AsyncWriteBuffer.buffer_ a)
       /\ AsyncWriteBuffer.IsDone a' = true)
  /\ (forall a,
     exists a',
       AsyncWriteBlock.call (mkSend r EPIPE) a
       = (a', fire_write (AsyncWriteBlock.callback_ a) (AsyncWriteBlock.conn_ a),
          Return false)
       /\ AsyncWriteBlock.size_ a' = Buffer_size (AsyncWriteBlock.block_ a)
       /\ AsyncWriteBlock.IsDone a' = true)
  /\ (forall errno a,
     errno <> EINTR -> errno <> EAGAIN -> errno <> EPIPE ->
     exists a',
       AsyncWriteBuffer.call (mkSend r errno) a = (a', [], Throw errno)
       /\ AsyncWriteBuffer.size_ a' = Buffer_size (AsyncWriteBuffer.buffer_ a))
  /\ (forall errno a,
     errno <> EINTR -> errno <> EAGAIN -> errno <> EPIPE ->
     exists a',
       AsyncWriteBlock.call (mkSend r errno) a = (a', [], Throw errno)
       /\ AsyncWriteBlock.size_ a' = Buffer_size (AsyncWriteBlock.block_ a)).
Proof.
  intros Hr. split; [|split; [|split; [|split; [|split]]]].
  - intros errno data a Herr.
    unfold AsyncReadBuffer.call. cbn [recv_r recv_errno].
    rewrite (proj2 (Z.leb_le _ 0) Hr).
    destruct Herr as [->|[->| ->]]; cbn;
      (eexists; split; [reflexivity|]);
      unfold AsyncReadBuffer.IsDone; cbn;
      repeat split; apply Z.eqb_refl.
  - intros errno data a blk Herr Hblk.
    unfold AsyncReadByteBlock.call. rewrite Hblk.
    cbn [recv_r recv_errno]. rewrite (proj2 (Z.leb_le _ 0) Hr).
    unfold AsyncReadByteBlock.DoCallback.
    destruct Herr as [->|[->| ->]]; cbn;
      destruct (AsyncReadByteBlock.callback_ a) as [cb|] eqn:Hcb; cbn;
      rewrite ?Hblk;
      (eexists; split; [reflexivity|]);
      unfold AsyncReadByteBlock.IsDone; cbn;
      rewrite ?Hblk; repeat split;
      try (destruct (cb_takes cb)); try reflexivity; apply Z.eqb_refl.
  - intros a. failed_call Hr.
    eexists; split; [reflexivity|].
    unfold AsyncWriteBuffer.IsDone; cbn. split; [reflexivity|apply Z.eqb_refl].
  - intros a. failed_call Hr.
    eexists; split; [reflexivity|].
    unfold AsyncWriteBlock.IsDone; cbn. split; [reflexivity|apply Z.eqb_refl].
  - intros errno a H1 H2 H3.
    unfold AsyncWriteBuffer.call. cbn [send_r send_errno].
    rewrite (proj2 (Z.leb_le _ 0) Hr).
    rewrite (proj2 (Z.eqb_neq _ _) H1), (proj2 (Z.eqb_neq _ _) H2),
      (proj2 (Z.eqb_neq _ _) H3). cbn.
    eexists; split; reflexivity.
  - intros errno a H1 H2 H3.
    unfold AsyncWriteBlock.call. cbn [send_r send_errno].
    rewrite (proj2 (Z.leb_le _ 0) Hr).
    rewrite (proj2 (Z.eqb_neq _ _) H1), (proj2 (Z.eqb_neq _ _) H2),
      (proj2 (Z.eqb_neq _ _) H3). cbn.
    eexists; split; reflexivity.
Qed.

Lemma peer_closure_handling_witness :
  exists a',
    AsyncWriteBuffer.call (mkSend (-1) EPIPE)
      (AsyncWriteBuffer.ctor 3%nat [x01; x02] (Some (mkCallback 1 false)))
    = (a', [WriteDone 1 3%nat], Return false)
    /\ AsyncWriteBuffer.size_ a' = 2
    /\ AsyncWriteBuffer.IsDone a' = true.
Proof.
  refine (proj1 (proj2 (proj2 (peer_closure_handling (-1) _)))
            (AsyncWriteBuffer.ctor 3%nat [x01; x02] (Some (mkCallback 1 false)))).
  lia.
Defined.

(** C2 as stated fails on the write paths: a send that fails with
    [ECONNRESET] makes the buffer-write handler (and likewise the
    block-write handler) throw instead of invoking the callback and
    returning [false]. *)
Lemma write_ECONNRESET_throws :
  AsyncWriteBuffer.call (mkSend (-1) ECONNRESET)
    (AsyncWriteBuffer.ctor 3%nat [x01; x02] (Some (mkCallback 1 false)))
  = (AsyncWriteBuffer.mk 3%nat [x01; x02] 2 (Some (mkCallback 1 false)),
     [], Throw ECONNRESET)
  /\ AsyncWriteBlock.call (mkSend (-1) ECONNRESET)
       (AsyncWriteBlock.ctor 3%nat [x01; x02] (Some (mkCallback 1 false)))
     = (AsyncWriteBlock.mk 3%nat [x01; x02] 2 (Some (mkCallback 1 false)),
        [], Throw ECONNRESET).
Proof. split; reflexivity. Qed.

(** One handler call on a buffer-read record that still owns its [n]
    allocated bytes: whatever the connection does, at most one callback
    is invoked, its buffer is the record's full buffer or the empty
    buffer, and the record keeps its allocation while it stays
    registered. *)
Lemma read_buffer_call_payload (res : RecvResult) (a : AsyncReadBuffer.t)
    (n : Z) (cb : Callback) :
  Buffer_size (AsyncReadBuffer.buffer_ a) = n ->
  AsyncReadBuffer.callback_ a = Some cb ->
  forall a' ev out, AsyncReadBuffer.call res a = (a', ev, out) ->
  (ev = [] \/
   exists buf, ev = [ReadDone (cb_id cb) (AsyncReadBuffer.conn_ a) buf]
               /\ out = Return false
               /\ (Buffer_size buf = n \/ Buffer_size buf = 0))
  /\ (out = Return true ->
      ev = []
      /\ Buffer_size (AsyncReadBuffer.buffer_ a') = n
      /\ AsyncReadBuffer.callback_ a' = Some cb
      /\ AsyncReadBuffer.conn_ a' = AsyncReadBuffer.conn_ a).
Proof.
  intros Hn Hcb a' ev out.
  unfold AsyncReadBuffer.call, AsyncReadBuffer.DoCallback.
  destruct (recv_r res <=? 0).
  - destruct ((recv_errno res =? EINTR) || (recv_errno res =? EAGAIN)).
    + intros [= <- <- <-]. split; [now left|]. intros _. now repeat split.
    + cbn [AsyncReadBuffer.callback_ AsyncReadBuffer.conn_]. rewrite Hcb.
      destruct ((recv_errno res =? 0) || (recv_errno res =? EPIPE)
                || (recv_errno res =? ECONNRESET)).
      * intros [= <- <- <-]. split; [|discriminate].
        right. exists Buffer_empty. repeat split. now right.
      * intros [= <- <- <-]. split; [now left|discriminate].
  - cbn [AsyncReadBuffer.size_ AsyncReadBuffer.buffer_
         AsyncReadBuffer.callback_ AsyncReadBuffer.conn_].
    rewrite Hcb.
    assert (Hlen : Buffer_size (store (AsyncReadBuffer.buffer_ a)
                     (Z.to_nat (AsyncReadBuffer.size_ a)) (received res)) = n).
    { unfold Buffer_size in *. now rewrite store_length. }
    destruct (wrap (AsyncReadBuffer.size_ a + recv_r res) =? _).
    + intros [= <- <- <-]. split; [|discriminate].
      right. eexists. repeat split. now left.
    + intros [= <- <- <-]. split; [now left|]. intros _. now repeat split.
Qed.

(** The same for a whole run of the handler. *)
Lemma read_buffer_run_payload (ress : list RecvResult) :
  forall (a : AsyncReadBuffer.t) (n : Z) (cb : Callback),
  Buffer_size (AsyncReadBuffer.buffer_ a) = n ->
  AsyncReadBuffer.callback_ a = Some cb ->
  forall a' ev out, AsyncReadBuffer.run ress a = (a', ev, out) ->
  ev = [] \/
  exists buf, ev = [ReadDone (cb_id cb) (AsyncReadBuffer.conn_ a) buf]
              /\ (Buffer_size buf = n \/ Buffer_size buf = 0).
Proof.
  induction ress as [|res ress IH]; intros a n cb Hn Hcb a' ev out.
  - intros [= <- <- <-]. now left.
  - cbn [AsyncReadBuffer.run].
    destruct (AsyncReadBuffer.call res a) as [[a1 ev1] out1] eqn:Hcall.
    destruct (read_buffer_call_payload res a n cb Hn Hcb _ _ _ Hcall)
      as [Hev Hkeep].
    destruct out1 as [[|]|e|].
    + destruct (Hkeep eq_refl) as [-> [Hn1 [Hcb1 Hc1]]].
      destruct (AsyncReadBuffer.run ress a1) as [[a2 ev2] out2] eqn:Hrun.
      intros [= <- <- <-]. cbn [app]. rewrite <- Hc1.
      exact (IH a1 n cb Hn1 Hcb1 _ _ _ Hrun).
    + intros [= <- <- <-].
      destruct Hev as [->|[buf [-> [_ H]]]]; [now left|right; eauto].
    + intros [= <- <- <-].
      destruct Hev as [->|[buf [-> [_ H]]]]; [now left|right; eauto].
    + intros [= <- <- <-].
      destruct Hev as [->|[buf [-> [_ H]]]]; [now left|right; eauto].
Qed.

(* ================================================================== *)
(** * Properties of the public operations and of [Dispatch()] *)

(** C6 as stated fails for an empty buffer without callback: nothing is
    enqueued and nothing is registered with the backend. *)
Lemma AsyncWrite_empty_without_callback :
  Dispatcher.AsyncWrite 4%nat Buffer_empty None Dispatcher.init
  = Dispatcher.init
  /\ Dispatcher.async_write_
       (Dispatcher.AsyncWrite 4%nat Buffer_empty None Dispatcher.init) = []
  /\ Dispatcher.effects
       (Dispatcher.AsyncWrite 4%nat Buffer_empty None Dispatcher.init) = []
  /\ Dispatcher.HasAsyncWrites
       (Dispatcher.AsyncWrite 4%nat Buffer_empty None Dispatcher.init) = false.
Proof. repeat split. Qed.

(** C1 at its failing input.  [AsyncRead(c, 0, block, done_cb)] with a
    block of four bytes enqueues a block-read record whose cursor already
    equals its total; the next [Dispatch()], in which the backend wait
    times out without any readiness notification, removes the record from
    the front of [async_read_block_] although its callback was never
    invoked. *)
Theorem zero_size_block_read_is_reaped_unfired :
  let block := [x00; x00; x00; x00] in
  let done_cb := Some (mkCallback 1 true) in
  let d1 := Dispatcher.AsyncRead_block 7%nat 0 block done_cb Dispatcher.init in
  Dispatcher.async_read_block_ d1
  = [AsyncReadByteBlock.mk 7%nat (Some block) 0 0 done_cb]
  /\ Dispatcher.effects d1 = [AddRead 7%nat HReadByteBlock]
  /\ snd (Dispatcher.Dispatch 0 [] [] d1) = Returned
  /\ Dispatcher.async_read_block_ (fst (Dispatcher.Dispatch 0 [] [] d1)) = []
  /\ Dispatcher.effects (fst (Dispatcher.Dispatch 0 [] [] d1))
     = [AddRead 7%nat HReadByteBlock; DispatchOne 10000].
Proof. cbv zeta. repeat split. Qed.

(** What [IsDone()] says for the three kinds whose payload and total
    cannot come apart: a write record is done exactly when its cursor
    equals its total, a block read exactly when its block pointer is null
    or its cursor equals its total. *)
Lemma write_buffer_IsDone_iff (a : AsyncWriteBuffer.t) :
  AsyncWriteBuffer.IsDone a = true
  <-> AsyncWriteBuffer.size_ a = Buffer_size (AsyncWriteBuffer.buffer_ a).
Proof. apply Z.eqb_eq. Qed.

Lemma write_block_IsDone_iff (a : AsyncWriteBlock.t) :
  AsyncWriteBlock.IsDone a = true
  <-> AsyncWriteBlock.size_ a = Buffer_size (AsyncWriteBlock.block_ a).
Proof. apply Z.eqb_eq. Qed.

Lemma read_block_IsDone_iff (a : AsyncReadByteBlock.t) :
  AsyncReadByteBlock.IsDone a = true
  <-> AsyncReadByteBlock.block_ a = None
      \/ AsyncReadByteBlock.pos_ a = AsyncReadByteBlock.size_ a.
Proof.
  unfold AsyncReadByteBlock.IsDone.
  destruct (AsyncReadByteBlock.block_ a) as [blk|].
  - rewrite Z.eqb_eq. split; [now right|]. now intros [H|H].
  - split; [now left|reflexivity].
Qed.

(** C4 at its failing input.  A buffer read of two bytes whose callback
    moves the buffer out: once both bytes have arrived the callback
    receives them and the handler deregisters, but the record is left
    with cursor 2 and an empty buffer, so [IsDone()] is false and
    [Dispatch()] does not remove the record -- neither in this iteration
    nor in the next. *)
Theorem moved_out_buffer_read_is_not_done :
  let done_cb := Some (mkCallback 1 true) in
  let d1 := Dispatcher.AsyncRead 7%nat 2 done_cb Dispatcher.init in
  let d2 := fst (Dispatcher.Dispatch 0 [] [ReadyRead 0 (mkRecv 2 0 [x68; x69])] d1) in
  let d3 := fst (Dispatcher.Dispatch 1 [] [] d2) in
  AsyncReadBuffer.call (mkRecv 2 0 [x68; x69]) (AsyncReadBuffer.ctor 7%nat 2 done_cb)
  = (AsyncReadBuffer.mk 7%nat [] 2 done_cb,
     [ReadDone 1 7%nat [x68; x69]], Return false)
  /\ AsyncReadBuffer.IsDone (AsyncReadBuffer.mk 7%nat [] 2 done_cb) = false
  /\ Dispatcher.effects d2
     = [AddRead 7%nat HReadBuffer; DispatchOne 10000;
        ReadDone 1 7%nat [x68; x69]]
  /\ Dispatcher.async_read_ d2 = [AsyncReadBuffer.mk 7%nat [] 2 done_cb]
  /\ Dispatcher.async_read_ d3 = [AsyncReadBuffer.mk 7%nat [] 2 done_cb].
Proof. cbv zeta. repeat split. Qed.

(* ================================================================== *)
(** * The timer heap: vectors, heap order, permutations *)

Section ListSet.
Context {A : Type}.

Lemma list_set_length (l : list A) (i : nat) (x : A) :
  length (list_set l i x) = length l.
Proof.
  revert i. induction l as [|a l IH]; intros [|i]; cbn; auto.
Qed.

Lemma nth_list_set_eq (l : list A) (i : nat) (x d : A) :
  (i < length l)%nat -> nth i (list_set l i x) d = x.
Proof.
  revert i. induction l as [|a l IH]; intros [|i] Hi; cbn in *;
    try lia; auto. apply IH. lia.
Qed.

Lemma nth_list_set_neq (l : list A) (i j : nat) (x d : A) :
  i <> j -> nth j (list_set l i x) d = nth j l d.
Proof.
  revert i j. induction l as [|a l IH]; intros [|i] [|j] Hij; cbn;
    try congruence; auto.
Qed.

Lemma list_set_out_of_range (l : list A) (i : nat) (x : A) :
  (length l <= i)%nat -> list_set l i x = l.
Proof.
  revert i. induction l as [|a l IH]; intros [|i] Hi; cbn in *;
    try lia; auto. f_equal. apply IH. lia.
Qed.

Lemma list_set_last (l : list A) (x y : A) :
  list_set (l ++ [x]) (length l) y = l ++ [y].
Proof. induction l as [|a l IH]; cbn; congruence. Qed.

(** Overwriting slot [j] and keeping the overwritten element aside loses
    nothing. *)
Lemma list_set_extract (l : list A) (j : nat) (x d : A) :
  (j < length l)%nat ->
  Permutation (nth j l d :: list_set l j x) (x :: l).
Proof.
  revert j. induction l as [|a l IH]; intros [|j] Hj; cbn in *; try lia.
  - apply perm_swap.
  - rewrite perm_swap. rewrite (IH j) by lia. apply perm_swap.
Qed.

(** Moving the element of slot [j] into slot [i] and putting [x] into
    slot [j] has the same content as putting [x] into slot [i]. *)
Lemma list_set_shift (l : list A) (i j : nat) (x d : A) :
  i <> j -> (i < length l)%nat -> (j < length l)%nat ->
  Permutation (list_set (list_set l i (nth j l d)) j x) (list_set l i x).
Proof.
  intros Hij Hi Hj.
  set (a := nth i l d). set (b := nth j l d).
  apply Permutation_cons_inv with (a := b).
  apply Permutation_cons_inv with (a := a).
  assert (E1 : Permutation (b :: list_set (list_set l i b) j x)
                           (x :: list_set l i b)).
  { replace b with (nth j (list_set l i b) d) at 1
      by (apply nth_list_set_neq; exact Hij).
    apply list_set_extract. rewrite list_set_length. exact Hj. }
  pose proof (list_set_extract l i x d Hi) as E2.
  pose proof (list_set_extract l i b d Hi) as E3.
  fold a in E2, E3.
  rewrite E1.
  rewrite (perm_swap x a). rewrite E3.
  rewrite (perm_swap b a (list_set l i x)). rewrite E2.
  rewrite (perm_swap b x l). reflexivity.
Qed.

End ListSet.

Lemma parent_spec (i : nat) :
  (0 < i)%nat ->
  (i = 2 * ((i - 1) / 2) + 1 \/ i = 2 * ((i - 1) / 2) + 2)%nat.
Proof.
  intros Hi.
  pose proof (Nat.div_mod_eq (i - 1) 2) as H.
  pose proof (Nat.mod_upper_bound (i - 1) 2) as H'.
  lia.
Qed.

Lemma parent_of_left (h : nat) : ((2 * h + 1 - 1) / 2 = h)%nat.
Proof.
  replace (2 * h + 1 - 1)%nat with (h * 2)%nat by lia.
  apply Nat.div_mul. lia.
Qed.

Lemma parent_of_right (h : nat) : ((2 * h + 2 - 1) / 2 = h)%nat.
Proof.
  replace (2 * h + 2 - 1)%nat with (1 + h * 2)%nat by lia.
  rewrite Nat.div_add by lia. reflexivity.
Qed.

Lemma half_spec (n : nat) :
  (n = 2 * (n / 2) + n mod 2 /\ n mod 2 < 2)%nat.
Proof.
  split; [apply Nat.div_mod_eq|apply Nat.mod_upper_bound; lia].
Qed.

Lemma Timer_lt_spec (a b : Timer) :
  Timer_lt a b = true <-> next_timeout b < next_timeout a.
Proof. unfold Timer_lt. rewrite Z.gtb_ltb. apply Z.ltb_lt. Qed.

Lemma Timer_lt_false (a b : Timer) :
  Timer_lt a b = false <-> next_timeout a <= next_timeout b.
Proof. unfold Timer_lt. rewrite Z.gtb_ltb. apply Z.ltb_ge. Qed.

(** The iteration bounds of the two heap loops are never reached while
    the loop condition still holds: more fuel does not change the
    result. *)
Lemma push_heap_loop_fuel (fuel : nat) :
  forall (v : TimerPQ.t) (hole top : nat) (value : Timer),
  (hole <= fuel)%nat ->
  TimerPQ.push_heap_loop (S fuel) v hole top value
  = TimerPQ.push_heap_loop fuel v hole top value.
Proof.
  induction fuel as [|fuel IH]; intros v hole top value Hf.
  - assert (hole = 0%nat) by lia. subst hole.
    cbn [TimerPQ.push_heap_loop].
    replace (top <? 0)%nat with false by (symmetry; apply Nat.ltb_ge; lia).
    reflexivity.
  - remember (S fuel) as fuel1 eqn:Hfuel1.
    cbn [TimerPQ.push_heap_loop]. subst fuel1.
    cbn [TimerPQ.push_heap_loop].
    destruct ((top <? hole)%nat
              && Timer_lt (nth ((hole - 1) / 2) v value) value) eqn:Hcond;
      [|reflexivity].
    apply andb_prop in Hcond. destruct Hcond as [Hpos _].
    apply Nat.ltb_lt in Hpos.
    assert (Hpos' : (0 < hole)%nat) by lia.
    pose proof (parent_spec hole Hpos').
    apply IH. lia.
Qed.

Lemma adjust_heap_loop_fuel (fuel : nat) :
  forall (v : TimerPQ.t) (hole sc len : nat) (value : Timer),
  (len - sc <= fuel)%nat ->
  TimerPQ.adjust_heap_loop (S fuel) v hole sc len value
  = TimerPQ.adjust_heap_loop fuel v hole sc len value.
Proof.
  induction fuel as [|fuel IH]; intros v hole sc len value Hf.
  - cbn [TimerPQ.adjust_heap_loop]. pose proof (half_spec (len - 1)).
    replace (sc <? (len - 1) / 2)%nat with false
      by (symmetry; apply Nat.ltb_ge; lia).
    reflexivity.
  - remember (S fuel) as fuel1 eqn:Hfuel1.
    cbn [TimerPQ.adjust_heap_loop]. subst fuel1.
    cbn [TimerPQ.adjust_heap_loop].
    destruct (sc <? (len - 1) / 2)%nat eqn:Hcond; [|reflexivity].
    cbv zeta.
    destruct (Timer_lt _ _); apply IH; lia.
Qed.

(** Filling the hole with [value] restores the heap order once [value]
    is ordered after the parent of the hole. *)
Lemma fill_hole_ordered (v : TimerPQ.t) (hole : nat) (value : Timer) :
  (hole < length v)%nat ->
  ordered_around_hole v hole ->
  below_children v hole value ->
  ((0 < hole)%nat ->
   next_timeout (nth ((hole - 1) / 2) v value) <= next_timeout value) ->
  heap_ordered (list_set v hole value).
Proof.
  intros Hh [Ho Hg] Hc Hp i d Hi. rewrite list_set_length in Hi.
  pose proof (parent_spec i (proj1 Hi)) as Hpi.
  destruct (Nat.eq_dec i hole) as [->|Hne].
  - rewrite nth_list_set_eq by lia.
    rewrite nth_list_set_neq by lia.
    rewrite (nth_indep v d value) by lia. apply Hp. lia.
  - rewrite (nth_list_set_neq v hole i) by lia.
    destruct (Nat.eq_dec ((i - 1) / 2) hole) as [Heq|Hne'].
    + rewrite Heq. rewrite nth_list_set_eq by lia. now apply Hc.
    + rewrite nth_list_set_neq by lia. now apply Ho.
Qed.

(** [__push_heap] restores the heap order. *)
Lemma push_heap_loop_ordered (fuel : nat) :
  forall (v : TimerPQ.t) (hole : nat) (value : Timer),
  (hole <= fuel)%nat -> (hole < length v)%nat ->
  ordered_around_hole v hole ->
  below_children v hole value ->
  heap_ordered (TimerPQ.push_heap_loop fuel v hole 0 value).
Proof.
  induction fuel as [|fuel IH]; intros v hole value Hf Hh Hinv Hc.
  - cbn. apply fill_hole_ordered; auto. lia.
  - cbn [TimerPQ.push_heap_loop].
    destruct ((0 <? hole)%nat
              && Timer_lt (nth ((hole - 1) / 2) v value) value) eqn:Hcond.
    + apply andb_prop in Hcond. destruct Hcond as [Hpos Hlt].
      apply Nat.ltb_lt in Hpos. apply Timer_lt_spec in Hlt.
      pose proof (parent_spec hole Hpos) as Hph.
      destruct Hinv as [Ho Hg].
      set (p := ((hole - 1) / 2)%nat) in *.
      assert (Hpv : forall d, next_timeout (nth p v d)
                              = next_timeout (nth p v value)).
      { intros d. f_equal. apply nth_indep. lia. }
      apply IH.
      * lia.
      * rewrite list_set_length. lia.
      * split.
        -- intros i d Hi Hip Hpp. rewrite list_set_length in Hi.
           pose proof (parent_spec i (proj1 Hi)) as Hpi.
           destruct (Nat.eq_dec i hole) as [->|Hne]; [now elim Hpp|].
           rewrite (nth_list_set_neq v hole i) by lia.
           destruct (Nat.eq_dec ((i - 1) / 2) hole) as [Heq|Hne'].
           ++ rewrite Heq. rewrite nth_list_set_eq by lia.
              rewrite <- (Hpv d). now apply Hg.
           ++ rewrite nth_list_set_neq by lia. now apply Ho.
        -- intros i d Hi Hpi Hp0. rewrite list_set_length in Hi.
           pose proof (parent_spec i (proj1 Hi)) as Hsi.
           pose proof (parent_spec p Hp0) as Hsp.
           rewrite (nth_list_set_neq v hole ((p - 1) / 2)) by lia.
           assert (Hgp : next_timeout (nth ((p - 1) / 2) v d)
                         <= next_timeout (nth p v d)).
           { apply Ho; lia. }
           destruct (Nat.eq_dec i hole) as [->|Hne].
           ++ rewrite nth_list_set_eq by lia. rewrite <- (Hpv d). exact Hgp.
           ++ rewrite nth_list_set_neq by lia.
              etransitivity; [exact Hgp|].
              rewrite <- Hpi. apply Ho; lia.
      * intros i d Hi Hpi. rewrite list_set_length in Hi.
        destruct (Nat.eq_dec i hole) as [->|Hne].
        -- rewrite nth_list_set_eq by lia. lia.
        -- rewrite nth_list_set_neq by lia.
           assert (next_timeout (nth p v d) <= next_timeout (nth i v d)).
           { rewrite <- Hpi. apply Ho; lia. }
           rewrite (Hpv d) in *. lia.
    + apply fill_hole_ordered; auto.
      intros Hpos. apply andb_false_iff in Hcond.
      destruct Hcond as [Hcond|Hcond].
      * apply Nat.ltb_ge in Hcond. lia.
      * now apply Timer_lt_false in Hcond.
Qed.

(** [__push_heap] only rearranges: its result holds the elements of the
    vector with [value] in the hole. *)
Lemma push_heap_loop_perm (fuel : nat) :
  forall (v : TimerPQ.t) (hole top : nat) (value : Timer),
  (hole < length v)%nat ->
  Permutation (TimerPQ.push_heap_loop fuel v hole top value)
              (list_set v hole value).
Proof.
  induction fuel as [|fuel IH]; intros v hole top value Hh.
  - reflexivity.
  - cbn [TimerPQ.push_heap_loop].
    destruct ((top <? hole)%nat
              && Timer_lt (nth ((hole - 1) / 2) v value) value) eqn:Hcond;
      [|reflexivity].
    apply andb_prop in Hcond. destruct Hcond as [Hpos _].
    apply Nat.ltb_lt in Hpos.
    assert (Hpos' : (0 < hole)%nat) by lia.
    pose proof (parent_spec hole Hpos') as Hph.
    rewrite IH by (rewrite list_set_length; lia).
    apply list_set_shift; lia.
Qed.

(** The first loop of [__adjust_heap] moves the hole from the root to
    the bottom of the heap, pulling up the smaller-keyed child each
    time. *)
Lemma adjust_heap_loop_spec (fuel : nat) :
  forall (v : TimerPQ.t) (hole : nat) (value : Timer),
  (hole < length v)%nat -> (length v - hole <= fuel)%nat ->
  forall v' hole' sc',
  TimerPQ.adjust_heap_loop fuel v hole hole (length v) value = (v', hole', sc') ->
  hole' = sc'
  /\ length v' = length v
  /\ (hole' < length v)%nat
  /\ ~ (sc' < (length v - 1) / 2)%nat
  /\ Permutation (list_set v' hole' value) (list_set v hole value)
  /\ (ordered_around_hole v hole -> ordered_around_hole v' hole').
Proof.
  induction fuel as [|fuel IH]; intros v hole value Hh Hf v' hole' sc'.
  - lia.
  - cbn [TimerPQ.adjust_heap_loop].
    destruct (hole <? (length v - 1) / 2)%nat eqn:Hcond.
    + apply Nat.ltb_lt in Hcond.
      pose proof (half_spec (length v - 1)) as Hhalf.
      cbv zeta.
      set (r := (2 * (hole + 1))%nat).
      set (c := if Timer_lt (nth r v value) (nth (r - 1) v value)
                then (r - 1)%nat else r).
      assert (Hc : (c = 2 * hole + 1 \/ c = 2 * hole + 2)%nat
                   /\ next_timeout (nth c v value)
                      <= next_timeout (nth (2 * hole + 1) v value)
                   /\ next_timeout (nth c v value)
                      <= next_timeout (nth (2 * hole + 2) v value)).
      { subst c.
        replace (2 * hole + 2)%nat with r by (subst r; lia).
        replace (2 * hole + 1)%nat with (r - 1)%nat by (subst r; lia).
        destruct (Timer_lt (nth r v value) (nth (r - 1) v value)) eqn:Hlt.
        - apply Timer_lt_spec in Hlt. split; [left; reflexivity|lia].
        - apply Timer_lt_false in Hlt. split; [right; reflexivity|lia]. }
      clearbody c. destruct Hc as [Hcc [Hcl Hcr]].
      assert (Hclen : (c < length v)%nat) by (subst r; lia).
      assert (Hpc : ((c - 1) / 2 = hole)%nat).
      { destruct Hcc as [->| ->];
          [apply parent_of_left|apply parent_of_right]. }
      intros Hrun.
      rewrite <- (list_set_length v hole (nth c v value)) in Hrun.
      apply IH in Hrun; rewrite ?list_set_length in *; try lia.
      destruct Hrun as [E1 [E2 [E3 [E4 [E5 E6]]]]].
      split; [exact E1|]. split; [exact E2|]. split; [exact E3|].
      split; [exact E4|]. split.
      * rewrite E5. apply list_set_shift; lia.
      * intros [Ho Hg]. apply E6. split.
        -- intros i d Hi Hic Hpic. rewrite list_set_length in Hi.
           pose proof (parent_spec i (proj1 Hi)) as Hsi.
           destruct (Nat.eq_dec i hole) as [->|Hne].
           ++ rewrite nth_list_set_eq by lia.
              rewrite nth_list_set_neq by lia.
              rewrite (nth_indep v value d) by lia.
              apply Hg; lia.
           ++ rewrite (nth_list_set_neq v hole i) by lia.
              destruct (Nat.eq_dec ((i - 1) / 2) hole) as [Heq|Hne'].
              ** rewrite Heq. rewrite nth_list_set_eq by lia.
                 assert (Hi' : i = (2 * hole + 1)%nat \/ i = (2 * hole + 2)%nat)
                   by lia.
                 rewrite (nth_indep v d value) by lia.
                 destruct Hi' as [->| ->]; assumption.
              ** rewrite nth_list_set_neq by lia. apply Ho; lia.
        -- intros i d Hi Hpi Hc0. rewrite list_set_length in Hi.
           pose proof (parent_spec i (proj1 Hi)) as Hsi.
           rewrite Hpc. rewrite nth_list_set_eq by lia.
           rewrite nth_list_set_neq by lia.
           rewrite (nth_indep v value d) by lia.
           rewrite <- Hpi. apply Ho; lia.
    + apply Nat.ltb_ge in Hcond.
      intros [= <- <- <-].
      split; [reflexivity|]. split; [reflexivity|]. split; [exact Hh|].
      split; [lia|]. split; [reflexivity|auto].
Qed.

(** [__adjust_heap] from the root of a vector whose only disorder is at
    the root: the result is heap ordered and holds the elements of the
    vector with [value] in place of the root. *)
Lemma std_adjust_heap_spec (v : TimerPQ.t) (value : Timer) :
  (0 < length v)%nat ->
  Permutation (TimerPQ.std_adjust_heap v 0 (length v) value)
              (list_set v 0 value)
  /\ (ordered_around_hole v 0 ->
      heap_ordered (TimerPQ.std_adjust_heap v 0 (length v) value)).
Proof.
  intros Hlen. unfold TimerPQ.std_adjust_heap.
  destruct (TimerPQ.adjust_heap_loop (length v) v 0 0 (length v) value)
    as [[v1 hole1] sc1] eqn:Hloop.
  apply adjust_heap_loop_spec in Hloop; try lia.
  destruct Hloop as [E1 [E2 [E3 [E4 [E5 E6]]]]]. subst sc1.
  pose proof (half_spec (length v)) as H0.
  pose proof (half_spec (length v - 1)) as H1.
  pose proof (half_spec (length v - 2)) as H2.
  destruct ((length v mod 2 =? 0)%nat
            && (hole1 =? (length v - 2) / 2)%nat) eqn:Hcond.
  - apply andb_prop in Hcond. destruct Hcond as [Hev Hsc].
    apply Nat.eqb_eq in Hev. apply Nat.eqb_eq in Hsc.
    cbv zeta.
    replace (2 * (hole1 + 1) - 1)%nat with (length v - 1)%nat by lia.
    assert (Hne : hole1 <> (length v - 1)%nat) by lia.
    assert (Hpl : ((length v - 1 - 1) / 2 = hole1)%nat).
    { rewrite <- (parent_of_left hole1). f_equal. lia. }
    unfold TimerPQ.std_push_heap. split.
    + rewrite push_heap_loop_perm by (rewrite list_set_length; lia).
      rewrite <- E5.
      apply list_set_shift; lia.
    + intros Hord. apply E6 in Hord. destruct Hord as [Ho Hg].
      apply push_heap_loop_ordered.
      * lia.
      * rewrite list_set_length. lia.
      * split.
        -- intros i d Hi Hil Hpil. rewrite list_set_length, E2 in Hi.
           pose proof (parent_spec i (proj1 Hi)) as Hsi.
           destruct (Nat.eq_dec i hole1) as [->|Hni].
           ++ rewrite nth_list_set_eq by lia.
              rewrite nth_list_set_neq by lia.
              rewrite (nth_indep v1 value d) by lia.
              apply Hg; lia.
           ++ rewrite (nth_list_set_neq v1 hole1 i) by lia.
              assert (Hp : ((i - 1) / 2)%nat <> hole1) by lia.
              rewrite nth_list_set_neq by lia. apply Ho; lia.
        -- intros i d Hi Hpi _. rewrite list_set_length, E2 in Hi.
           pose proof (parent_spec i (proj1 Hi)). lia.
      * intros i d Hi Hpi. rewrite list_set_length, E2 in Hi.
        pose proof (parent_spec i (proj1 Hi)). lia.
  - unfold TimerPQ.std_push_heap. split.
    + rewrite push_heap_loop_perm by lia. exact E5.
    + intros Hord. apply E6 in Hord.
      apply push_heap_loop_ordered; auto; try lia.
      intros i d Hi Hpi. rewrite E2 in Hi.
      pose proof (parent_spec i (proj1 Hi)) as Hsi.
      apply andb_false_iff in Hcond.
      destruct Hcond as [Hc|Hc]; apply Nat.eqb_neq in Hc; lia.
Qed.

Lemma heap_ordered_nil : heap_ordered [].
Proof. intros i d Hi. cbn in Hi. lia. Qed.

Lemma nth_removelast (v : TimerPQ.t) (i : nat) (d : Timer) :
  (i < length v - 1)%nat -> nth i (removelast v) d = nth i v d.
Proof.
  intros Hi.
  destruct (exists_last (l := v)) as [v0 [x ->]].
  { intros ->. cbn in Hi. lia. }
  rewrite removelast_last. rewrite length_app in Hi. cbn in Hi.
  rewrite app_nth1 by lia. reflexivity.
Qed.

Lemma removelast_length (v : TimerPQ.t) :
  length (removelast v) = (length v - 1)%nat.
Proof.
  destruct v as [|a v]; [reflexivity|].
  destruct (exists_last (l := a :: v)) as [v0 [x ->]]; [discriminate|].
  rewrite removelast_last, length_app. cbn. lia.
Qed.

(** [push] keeps the heap order and adds exactly [x]. *)
Lemma push_ordered (v : TimerPQ.t) (x : Timer) :
  heap_ordered v -> heap_ordered (TimerPQ.push v x).
Proof.
  intros Hv. unfold TimerPQ.push, TimerPQ.std_push_heap.
  apply push_heap_loop_ordered.
  - lia.
  - rewrite length_app. cbn. lia.
  - split.
    + intros i d Hi Hil Hpil. rewrite length_app in Hi. cbn in Hi.
      pose proof (parent_spec i (proj1 Hi)) as Hsi.
      rewrite !app_nth1 by lia. apply Hv. lia.
    + intros i d Hi Hpi _. rewrite length_app in Hi. cbn in Hi.
      pose proof (parent_spec i (proj1 Hi)). lia.
  - intros i d Hi Hpi. rewrite length_app in Hi. cbn in Hi.
    pose proof (parent_spec i (proj1 Hi)). lia.
Qed.

Lemma push_perm (v : TimerPQ.t) (x : Timer) :
  Permutation (TimerPQ.push v x) (x :: v).
Proof.
  unfold TimerPQ.push, TimerPQ.std_push_heap.
  rewrite push_heap_loop_perm by (rewrite length_app; cbn; lia).
  rewrite list_set_last. symmetry. apply Permutation_cons_append.
Qed.

(** [pop] keeps the heap order and removes exactly the first element. *)
Lemma pop_ordered (v : TimerPQ.t) :
  heap_ordered v -> heap_ordered (TimerPQ.pop v).
Proof.
  intros Hv. unfold TimerPQ.pop.
  destruct v as [|first rest]; [exact heap_ordered_nil|].
  destruct (1 <? length (first :: rest))%nat eqn:Hlen.
  - apply Nat.ltb_lt in Hlen.
    rewrite <- removelast_length.
    apply std_adjust_heap_spec.
    + rewrite removelast_length. lia.
    + split.
      * intros i d Hi _ Hp. rewrite removelast_length in Hi.
        pose proof (parent_spec i (proj1 Hi)) as Hsi.
        rewrite !nth_removelast by lia. apply Hv. lia.
      * intros i d _ _ Hp. lia.
  - apply Nat.ltb_ge in Hlen. destruct rest; [|cbn in Hlen; lia].
    exact heap_ordered_nil.
Qed.

Lemma pop_perm (first : Timer) (rest : TimerPQ.t) :
  Permutation (first :: TimerPQ.pop (first :: rest)) (first :: rest).
Proof.
  unfold TimerPQ.pop.
  destruct (1 <? length (first :: rest))%nat eqn:Hlen.
  - apply Nat.ltb_lt in Hlen.
    rewrite <- removelast_length.
    assert (Hpos : (0 < length (removelast (first :: rest)))%nat)
      by (rewrite removelast_length; lia).
    rewrite (proj1 (std_adjust_heap_spec _ (last (first :: rest) first) Hpos)).
    destruct (exists_last (l := rest)) as [rest0 [x ->]].
    { intros ->. cbn in Hlen. lia. }
    rewrite app_comm_cons, removelast_last, last_last. cbn.
    apply perm_skip. apply Permutation_cons_append.
  - apply Nat.ltb_ge in Hlen. destruct rest; [|cbn in Hlen; lia].
    reflexivity.
Qed.

(** In a heap-ordered vector the first element expires first. *)
Lemma heap_root_minimal (v : TimerPQ.t) (d : Timer) :
  heap_ordered v ->
  forall i, (i < length v)%nat ->
  next_timeout (nth 0 v d) <= next_timeout (nth i v d).
Proof.
  intros Hv i. induction i as [i IH] using lt_wf_ind. intros Hi.
  destruct (Nat.eq_dec i 0) as [->|Hne]; [lia|].
  assert (Hpos : (0 < i)%nat) by lia.
  pose proof (parent_spec i Hpos) as Hsi.
  etransitivity; [apply (IH ((i - 1) / 2)%nat); lia|].
  apply Hv. lia.
Qed.

Lemma heap_head_minimal (top : Timer) (rest : TimerPQ.t) :
  heap_ordered (top :: rest) ->
  forall x, In x (top :: rest) -> next_timeout top <= next_timeout x.
Proof.
  intros Hv x Hx. destruct (In_nth _ _ top Hx) as [i [Hi <-]].
  exact (heap_root_minimal (top :: rest) top Hv i Hi).
Qed.

(** [__push_heap] towards the root leaves the root in place unless
    [value] itself ends up there. *)
Lemma push_heap_loop_root (fuel : nat) :
  forall (v : TimerPQ.t) (hole : nat) (value d : Timer),
  (hole < length v)%nat -> (0 < hole)%nat ->
  nth 0 (TimerPQ.push_heap_loop fuel v hole 0 value) d = value
  \/ nth 0 (TimerPQ.push_heap_loop fuel v hole 0 value) d = nth 0 v d.
Proof.
  induction fuel as [|fuel IH]; intros v hole value d Hh Hpos.
  - right. cbn. apply nth_list_set_neq. lia.
  - cbn [TimerPQ.push_heap_loop].
    pose proof (parent_spec hole Hpos) as Hph.
    destruct ((0 <? hole)%nat
              && Timer_lt (nth ((hole - 1) / 2) v value) value) eqn:Hcond.
    + destruct (Nat.eq_dec ((hole - 1) / 2) 0) as [Hz|Hnz].
      * left. rewrite Hz.
        destruct fuel; cbn; apply nth_list_set_eq;
          rewrite list_set_length; lia.
      * destruct (IH (list_set v hole (nth ((hole - 1) / 2) v value))
                    ((hole - 1) / 2)%nat value d) as [H|H].
        -- rewrite list_set_length. lia.
        -- lia.
        -- now left.
        -- right. rewrite H. apply nth_list_set_neq. lia.
    + right. apply nth_list_set_neq. lia.
Qed.

(** The root stays in place when [value] does not expire before it. *)
Lemma push_heap_loop_root_kept (fuel : nat) :
  forall (v : TimerPQ.t) (hole : nat) (value d : Timer),
  (hole < length v)%nat -> (0 < hole)%nat ->
  Timer_lt (nth 0 v value) value = false ->
  nth 0 (TimerPQ.push_heap_loop fuel v hole 0 value) d = nth 0 v d.
Proof.
  induction fuel as [|fuel IH]; intros v hole value d Hh Hpos Hroot.
  - cbn. apply nth_list_set_neq. lia.
  - cbn [TimerPQ.push_heap_loop].
    pose proof (parent_spec hole Hpos) as Hph.
    destruct ((0 <? hole)%nat
              && Timer_lt (nth ((hole - 1) / 2) v value) value) eqn:Hcond.
    + apply andb_prop in Hcond. destruct Hcond as [_ Hlt].
      destruct (Nat.eq_dec ((hole - 1) / 2) 0) as [Hz|Hnz].
      * rewrite Hz in Hlt. congruence.
      * rewrite IH.
        -- apply nth_list_set_neq. lia.
        -- rewrite list_set_length. lia.
        -- lia.
        -- rewrite nth_list_set_neq by lia. exact Hroot.
    + apply nth_list_set_neq. lia.
Qed.

(** Pushing onto a non-empty queue: the new top is the old top or the
    pushed timer, and it is the old top whenever the pushed timer does
    not expire before it. *)
Lemma push_cons (top : Timer) (rest : TimerPQ.t) (x : Timer) :
  exists top' rest',
    TimerPQ.push (top :: rest) x = top' :: rest'
    /\ (top' = x \/ top' = top)
    /\ (Timer_lt top x = false -> top' = top).
Proof.
  pose proof (Permutation_length (push_perm (top :: rest) x)) as Hlen.
  destruct (TimerPQ.push (top :: rest) x) as [|top' rest'] eqn:Hpush;
    [discriminate|].
  exists top', rest'. split; [reflexivity|].
  assert (Hh : (length (top :: rest) < length ((top :: rest) ++ [x]))%nat)
    by (rewrite length_app; cbn; lia).
  assert (Hpos : (0 < length (top :: rest))%nat) by (cbn; lia).
  change top' with (nth 0 (top' :: rest') top). rewrite <- Hpush.
  unfold TimerPQ.push, TimerPQ.std_push_heap. split.
  - exact (push_heap_loop_root _ _ _ x top Hh Hpos).
  - intros Hlt. exact (push_heap_loop_root_kept _ _ _ x top Hh Hpos Hlt).
Qed.

(* ================================================================== *)
(** * Effects of the parts of [Dispatch()] *)

Lemma expiries_app (a b : list Effect) :
  expiries (a ++ b) = expiries a ++ expiries b.
Proof.
  induction a as [|e a IH]; [reflexivity|].
  destruct e; cbn; rewrite IH; reflexivity.
Qed.

Lemma waits_app (a b : list Effect) : waits (a ++ b) = waits a ++ waits b.
Proof.
  induction a as [|e a IH]; [reflexivity|].
  destruct e; cbn; rewrite IH; reflexivity.
Qed.

Lemma expiries_of_app (c : nat) (a b : list Effect) :
  expiries_of c (a ++ b) = expiries_of c a ++ expiries_of c b.
Proof.
  induction a as [|e a IH]; [reflexivity|].
  destruct e; cbn; rewrite ?IH; try reflexivity.
  destruct (cb0 =? c)%nat; cbn; now rewrite ?IH.
Qed.

Lemma keeps_returning_true_app (c : nat) (a b : list Effect) :
  keeps_returning_true c (a ++ b)
  = keeps_returning_true c a && keeps_returning_true c b.
Proof.
  induction a as [|e a IH]; [reflexivity|].
  destruct e; cbn; rewrite ?IH; try reflexivity.
  now rewrite andb_assoc.
Qed.

Lemma since_app (d d' : Dispatcher.t) (ev : list Effect) :
  Dispatcher.effects d' = Dispatcher.effects d ++ ev -> since d d' = ev.
Proof.
  intros H. unfold since. rewrite H.
  rewrite skipn_app, skipn_all, Nat.sub_diag. reflexivity.
Qed.

(** Completion callbacks are neither timer firings nor backend waits. *)
Lemma completions_observed (c : nat) (ev : list Effect) :
  forallb is_completion ev = true ->
  waits ev = [] /\ expiries ev = [] /\ expiries_of c ev = []
  /\ keeps_returning_true c ev = true.
Proof.
  induction ev as [|e ev IH]; [now repeat split|].
  cbn [forallb]. intros H. apply andb_prop in H. destruct H as [He Hev].
  destruct e; try discriminate; cbn; auto.
Qed.

(** Timer firings are not backend waits. *)
Lemma timer_firings_no_wait (ev : list Effect) :
  forallb is_timer_firing ev = true -> waits ev = [].
Proof.
  induction ev as [|e ev IH]; [reflexivity|].
  cbn [forallb]. intros H. apply andb_prop in H. destruct H as [He Hev].
  destruct e; try discriminate; cbn; auto.
Qed.

Lemma fire_write_completion (callback : Delegate) (c : Connection) :
  forallb is_completion (fire_write callback c) = true.
Proof. destruct callback; reflexivity. Qed.

(** The four handlers emit completion callbacks only. *)
Lemma read_buffer_call_completion (res : RecvResult) (a : AsyncReadBuffer.t) :
  forallb is_completion (snd (fst (AsyncReadBuffer.call res a))) = true.
Proof.
  unfold AsyncReadBuffer.call, AsyncReadBuffer.DoCallback.
  repeat match goal with
         | |- context [if ?b then _ else _] => destruct b; cbn
         | |- context [match ?x with Some _ => _ | None => _ end] =>
             destruct x; cbn
         end; reflexivity.
Qed.

Lemma write_buffer_call_completion (res : SendResult) (a : AsyncWriteBuffer.t) :
  forallb is_completion (snd (fst (AsyncWriteBuffer.call res a))) = true.
Proof.
  unfold AsyncWriteBuffer.call, AsyncWriteBuffer.DoCallback, fire_write.
  repeat match goal with
         | |- context [if ?b then _ else _] => destruct b; cbn
         | |- context [match ?x with Some _ => _ | None => _ end] =>
             destruct x; cbn
         end; reflexivity.
Qed.

Lemma read_block_call_completion (res : RecvResult) (a : AsyncReadByteBlock.t) :
  forallb is_completion (snd (fst (AsyncReadByteBlock.call res a))) = true.
Proof.
  unfold AsyncReadByteBlock.call, AsyncReadByteBlock.DoCallback.
  repeat match goal with
         | |- context [if ?b then _ else _] => destruct b; cbn
         | |- context [match ?x with Some _ => _ | None => _ end] =>
             destruct x; cbn
         end; reflexivity.
Qed.

Lemma write_block_call_completion (res : SendResult) (a : AsyncWriteBlock.t) :
  forallb is_completion (snd (fst (AsyncWriteBlock.call res a))) = true.
Proof.
  unfold AsyncWriteBlock.call, AsyncWriteBlock.DoCallback, fire_write.
  repeat match goal with
         | |- context [if ?b then _ else _] => destruct b; cbn
         | |- context [match ?x with Some _ => _ | None => _ end] =>
             destruct x; cbn
         end; reflexivity.
Qed.

Lemma io_only_refl (d : Dispatcher.t) : io_only d d.
Proof.
  repeat split. exists []. now rewrite app_nil_r.
Qed.

Lemma io_only_trans (d1 d2 d3 : Dispatcher.t) :
  io_only d1 d2 -> io_only d2 d3 -> io_only d1 d3.
Proof.
  intros [P1 [T1 [ev1 [E1 C1]]]] [P2 [T2 [ev2 [E2 C2]]]].
  split; [congruence|]. split; [congruence|].
  exists (ev1 ++ ev2). split.
  - rewrite E2, E1. now rewrite app_assoc.
  - rewrite forallb_app. now rewrite C1, C2.
Qed.

Lemma deliver_io_only (rd : Ready) (d : Dispatcher.t) :
  io_only d (fst (Dispatcher.deliver rd d)).
Proof.
  destruct rd as [i res|i res|i res|i res]; cbn [Dispatcher.deliver].
  - destruct (nth_error (Dispatcher.async_read_ d) i) as [a|];
      [|apply io_only_refl].
    pose proof (read_buffer_call_completion res a) as H.
    destruct (AsyncReadBuffer.call res a) as [[a' ev] out].
    repeat split. now exists ev.
  - destruct (nth_error (Dispatcher.async_write_ d) i) as [a|];
      [|apply io_only_refl].
    pose proof (write_buffer_call_completion res a) as H.
    destruct (AsyncWriteBuffer.call res a) as [[a' ev] out].
    repeat split. now exists ev.
  - destruct (nth_error (Dispatcher.async_read_block_ d) i) as [a|];
      [|apply io_only_refl].
    pose proof (read_block_call_completion res a) as H.
    destruct (AsyncReadByteBlock.call res a) as [[a' ev] out].
    repeat split. now exists ev.
  - destruct (nth_error (Dispatcher.async_write_block_ d) i) as [a|];
      [|apply io_only_refl].
    pose proof (write_block_call_completion res a) as H.
    destruct (AsyncWriteBlock.call res a) as [[a' ev] out].
    repeat split. now exists ev.
Qed.

Lemma run_backend_io_only (io : list Ready) :
  forall d, io_only d (fst (Dispatcher.run_backend io d)).
Proof.
  induction io as [|rd io IH]; intros d; [apply io_only_refl|].
  cbn [Dispatcher.run_backend].
  pose proof (deliver_io_only rd d) as H.
  destruct (Dispatcher.deliver rd d) as [d1 [keep|e|]]; cbn [fst] in *.
  - exact (io_only_trans _ _ _ H (IH d1)).
  - exact H.
  - exact H.
Qed.

Lemma cleanup_io_only (d : Dispatcher.t) : io_only d (Dispatcher.cleanup d).
Proof.
  repeat split. exists []. cbn. now rewrite app_nil_r.
Qed.

(** The state after [Dispatch()] in terms of the state [d1] after its
    timer loop: if the loop has ended and [terminate_] is not set, one
    [DispatchOne] with the computed timeout, then completion callbacks;
    otherwise nothing more. *)
Lemma Dispatch_after_drain (now : Z) (runs : list TimerRun) (io : list Ready)
    (d : Dispatcher.t) :
  let d1 := fst (Dispatcher.drain_timers now runs d) in
  let exited := snd (Dispatcher.drain_timers now runs d) in
  let d' := fst (Dispatcher.Dispatch now runs io d) in
  Dispatcher.timer_pq_ d' = Dispatcher.timer_pq_ d1
  /\ exists ev,
       Dispatcher.effects d'
       = Dispatcher.effects d1
         ++ (if exited && negb (Dispatcher.terminate_ d1)
             then [DispatchOne
                     (Dispatcher.wait_timeout now (Dispatcher.timer_pq_ d1))]
             else [])
         ++ ev
       /\ forallb is_completion ev = true.
Proof.
  unfold Dispatcher.Dispatch.
  destruct (Dispatcher.drain_timers now runs d) as [d1 exited]. cbn [fst snd].
  destruct exited; cbn [negb andb].
  - destruct (Dispatcher.terminate_ d1) eqn:Hterm; cbn [negb fst].
    + split; [reflexivity|]. exists []. now rewrite !app_nil_r.
    + set (d2 := Dispatcher.emit d1 _).
      pose proof (run_backend_io_only io d2) as H.
      destruct (Dispatcher.run_backend io d2) as [d3 st]. cbn [fst] in H.
      destruct H as [P [T [ev [E C]]]].
      destruct st; (split; [exact P|]); exists ev; (split; [|exact C]);
        cbn [fst Dispatcher.cleanup Dispatcher.effects
             Dispatcher.set_async_read Dispatcher.set_async_write
             Dispatcher.set_async_read_block Dispatcher.set_async_write_block];
        rewrite E; subst d2; cbn [Dispatcher.emit Dispatcher.effects];
        now rewrite <- app_assoc.
  - split; [reflexivity|]. exists []. now rewrite !app_nil_r.
Qed.

(* ================================================================== *)
(** * The timer loop *)

Lemma fire_top_effects (run : TimerRun) (top : Timer) (d : Dispatcher.t) :
  Dispatcher.effects (Dispatcher.fire_top run top d)
  = Dispatcher.effects d
    ++ [TimerFired (cb top) (next_timeout top) (returns run)].
Proof. reflexivity. Qed.

Lemma fire_top_timers (run : TimerRun) (top : Timer) (d : Dispatcher.t) :
  Dispatcher.timer_pq_ (Dispatcher.fire_top run top d)
  = TimerPQ.pop
      (if returns run then
         TimerPQ.push (Dispatcher.timer_pq_ d)
           (mkTimer (time_point_plus (next_timeout top) (timeout top))
              (timeout top) (cb top))
       else Dispatcher.timer_pq_ d).
Proof. reflexivity. Qed.

(** Induction along the iterations of the timer loop. *)
Lemma drain_timers_ind (now : Z) (P : Dispatcher.t -> Dispatcher.t -> Prop) :
  (forall d, P d d) ->
  (forall d top rest run d',
     Dispatcher.timer_pq_ d = top :: rest ->
     Dispatcher.terminate_ d = false ->
     next_timeout top <= now ->
     P (Dispatcher.fire_top run top d) d' -> P d d') ->
  forall runs d, P d (fst (Dispatcher.drain_timers now runs d)).
Proof.
  intros Hrefl Hstep. induction runs as [|run runs IH]; intros d.
  - cbn. destruct (Dispatcher.timer_pq_ d) as [|top rest]; [apply Hrefl|].
    destruct (negb (Dispatcher.terminate_ d) && (next_timeout top <=? now));
      apply Hrefl.
  - cbn [Dispatcher.drain_timers].
    destruct (Dispatcher.timer_pq_ d) as [|top rest] eqn:Hpq; [apply Hrefl|].
    destruct (negb (Dispatcher.terminate_ d) && (next_timeout top <=? now))
      eqn:Hcond; [|apply Hrefl].
    apply andb_prop in Hcond. destruct Hcond as [Hterm Hdue].
    apply negb_true_iff in Hterm. apply Z.leb_le in Hdue.
    eapply Hstep; eauto.
Qed.

(** The timer loop adds timer firings only. *)
Lemma drain_timers_effects (now : Z) (runs : list TimerRun) (d : Dispatcher.t) :
  exists tf,
    Dispatcher.effects (fst (Dispatcher.drain_timers now runs d))
    = Dispatcher.effects d ++ tf
    /\ forallb is_timer_firing tf = true.
Proof.
  revert runs d.
  apply (drain_timers_ind now
           (fun d d' => exists tf,
              Dispatcher.effects d' = Dispatcher.effects d ++ tf
              /\ forallb is_timer_firing tf = true)).
  - intros d. exists []. now rewrite app_nil_r.
  - intros d top rest run d' _ _ _ [tf [E F]].
    exists (TimerFired (cb top) (next_timeout top) (returns run) :: tf).
    split; [|exact F].
    rewrite E, fire_top_effects. now rewrite <- app_assoc.
Qed.

Lemma wait_timeout_spec (now : Z) (pq : TimerPQ.t) :
  Dispatcher.wait_timeout now pq
  = match pq with
    | [] => 10000
    | top :: _ => Z.max 1 (Z.quot (next_timeout top - now) 1000000)
    end.
Proof.
  destruct pq as [|top rest]; [reflexivity|].
  unfold Dispatcher.wait_timeout, duration_cast_ms, ticks_per_ms.
  destruct (Z.ltb_spec ((next_timeout top - now) ÷ 1000000) 1); lia.
Qed.

(** C8.  In a call of [Dispatch()] whose timer loop comes to an end, the
    backend wait [DispatchOne] is invoked exactly once if [terminate_] is
    not set after the loop, and not at all if it is.  Its timeout is
    10000 ms when the timer queue is then empty, and otherwise the
    difference between the top entry's [next_timeout] and the [now]
    captured at the start, in whole milliseconds, raised to 1 ms if it is
    smaller. *)
Theorem Dispatch_wait_deadline
    (now : Z) (runs : list TimerRun) (io : list Ready) (d : Dispatcher.t) :
  snd (Dispatcher.drain_timers now runs d) = true ->
  let d1 := fst (Dispatcher.drain_timers now runs d) in
  waits (since d (fst (Dispatcher.Dispatch now runs io d)))
  = if Dispatcher.terminate_ d1 then []
    else [match Dispatcher.timer_pq_ d1 with
          | [] => 10000
          | top :: _ => Z.max 1 (Z.quot (next_timeout top - now) 1000000)
          end].
Proof.
  intros Hexit d1.
  destruct (Dispatch_after_drain now runs io d) as [_ [ev [E C]]].
  destruct (drain_timers_effects now runs d) as [tf [Etf Ftf]].
  fold d1 in E, Etf. rewrite Hexit in E. rewrite Etf in E.
  rewrite <- app_assoc in E.
  rewrite (since_app _ _ _ E), !waits_app.
  rewrite (timer_firings_no_wait tf Ftf).
  destruct (completions_observed 0 ev C) as [-> _].
  rewrite app_nil_r. cbn [app andb].
  destruct (Dispatcher.terminate_ d1); cbn [negb]; [reflexivity|].
  cbn [waits]. now rewrite wait_timeout_spec.
Qed.

Lemma Dispatch_wait_deadline_witness :
  waits (since (Dispatcher.AddTimer 0 5 1 Dispatcher.init)
           (fst (Dispatcher.Dispatch 2500000 [] []
                   (Dispatcher.AddTimer 0 5 1 Dispatcher.init))))
  = [2].
Proof.
  refine (Dispatch_wait_deadline 2500000 [] []
            (Dispatcher.AddTimer 0 5 1 Dispatcher.init) _).
  reflexivity.
Defined.

(* ================================================================== *)
(** * Order of timer firings *)

(** After one iteration of the timer loop, nothing in the queue expires
    before the entry that was just fired -- whether or not the entry was
    requeued, and whatever its interval. *)
Lemma fire_top_lower_bound (run : TimerRun) (top : Timer) (rest : TimerPQ.t)
    (d : Dispatcher.t) :
  Dispatcher.timer_pq_ d = top :: rest ->
  heap_ordered (top :: rest) ->
  forall x, In x (Dispatcher.timer_pq_ (Dispatcher.fire_top run top d)) ->
  next_timeout top <= next_timeout x.
Proof.
  intros Hpq Hord x. rewrite fire_top_timers, Hpq.
  destruct (returns run).
  - set (N := mkTimer _ _ _).
    pose proof (push_ordered _ N Hord) as Hord1.
    pose proof (push_perm (top :: rest) N) as Hperm1.
    destruct (push_cons top rest N) as [top' [rest' [Hpush [Htop' _]]]].
    rewrite Hpush in *.
    pose proof (pop_perm top' rest') as Hperm2.
    intros Hx. destruct Htop' as [->| ->].
    + (* the requeued entry went to the top and is popped again *)
      pose proof (Permutation_trans Hperm2 Hperm1) as Hperm.
      apply Permutation_cons_inv in Hperm.
      apply (heap_head_minimal top rest Hord).
      exact (Permutation_in _ Hperm Hx).
    + assert (HN : next_timeout top <= next_timeout N).
      { apply (heap_head_minimal top rest' Hord1).
        apply (Permutation_in _ (Permutation_sym Hperm1)). now left. }
      assert (Hin : In x (N :: top :: rest)).
      { apply (Permutation_in _ Hperm1).
        apply (Permutation_in _ Hperm2). now right. }
      destruct Hin as [<-|Hin]; [exact HN|].
      exact (heap_head_minimal top rest Hord x Hin).
  - intros Hx. apply (heap_head_minimal top rest Hord).
    apply (Permutation_in _ (pop_perm top rest)). now right.
Qed.

Lemma fire_top_ordered (run : TimerRun) (top : Timer) (d : Dispatcher.t) :
  heap_ordered (Dispatcher.timer_pq_ d) ->
  heap_ordered (Dispatcher.timer_pq_ (Dispatcher.fire_top run top d)).
Proof.
  intros Hord. rewrite fire_top_timers. apply pop_ordered.
  destruct (returns run); [apply push_ordered|]; exact Hord.
Qed.

(** The timer loop on a heap-ordered queue: the queue stays heap
    ordered, and the entries are fired in non-decreasing order of
    [next_timeout], none before the earliest entry of the queue. *)
Lemma drain_timers_sorted (now : Z) (runs : list TimerRun) (d : Dispatcher.t) :
  heap_ordered (Dispatcher.timer_pq_ d) ->
  heap_ordered (Dispatcher.timer_pq_ (fst (Dispatcher.drain_timers now runs d)))
  /\ exists tf,
       Dispatcher.effects (fst (Dispatcher.drain_timers now runs d))
       = Dispatcher.effects d ++ tf
       /\ StronglySorted Z.le (expiries tf)
       /\ forall m, Forall (fun x => m <= next_timeout x) (Dispatcher.timer_pq_ d) ->
                    Forall (Z.le m) (expiries tf).
Proof.
  revert runs d.
  apply (drain_timers_ind now
           (fun d d' =>
              heap_ordered (Dispatcher.timer_pq_ d) ->
              heap_ordered (Dispatcher.timer_pq_ d')
              /\ exists tf,
                   Dispatcher.effects d' = Dispatcher.effects d ++ tf
                   /\ StronglySorted Z.le (expiries tf)
                   /\ forall m,
                        Forall (fun x => m <= next_timeout x)
                          (Dispatcher.timer_pq_ d) ->
                        Forall (Z.le m) (expiries tf))).
  - intros d Hord. split; [exact Hord|]. exists [].
    rewrite app_nil_r. repeat split; constructor.
  - intros d top rest run d' Hpq _ _ IH Hord.
    destruct (IH (fire_top_ordered run top d Hord)) as [Hord' [tf [E [S B]]]].
    split; [exact Hord'|].
    exists (TimerFired (cb top) (next_timeout top) (returns run) :: tf).
    assert (Hlow : Forall (Z.le (next_timeout top)) (expiries tf)).
    { apply B. apply Forall_forall. intros x Hx.
      rewrite Hpq in Hord.
      exact (fire_top_lower_bound run top rest d Hpq Hord x Hx). }
    split; [|split].
    + rewrite E, fire_top_effects. now rewrite <- app_assoc.
    + cbn [expiries]. now constructor.
    + intros m Hm. cbn [expiries]. rewrite Hpq in Hm.
      assert (Hmt : m <= next_timeout top) by (now inversion Hm).
      constructor; [exact Hmt|].
      eapply Forall_impl; [|exact Hlow]. cbn. intros; lia.
Qed.

Lemma exec_snoc (ops : list Op) (op : Op) (d : Dispatcher.t) :
  exec (ops ++ [op]) d = step (exec ops d) op.
Proof. unfold exec. now rewrite fold_left_app. Qed.

(** The timer queue of a dispatcher is heap ordered at all times. *)
Lemma step_ordered (d : Dispatcher.t) (op : Op) :
  heap_ordered (Dispatcher.timer_pq_ d) ->
  heap_ordered (Dispatcher.timer_pq_ (step d op)).
Proof.
  intros Hord. destruct op; cbn [step].
  - now apply push_ordered.
  - unfold Dispatcher.AsyncRead. now destruct (n =? 0).
  - unfold Dispatcher.AsyncRead_block. now destruct (Buffer_size block =? 0).
  - unfold Dispatcher.AsyncWrite. now destruct (Buffer_size buffer =? 0).
  - unfold Dispatcher.AsyncWrite_block. now destruct (Buffer_size block =? 0).
  - exact Hord.
  - destruct (Dispatch_after_drain now runs io d) as [-> _].
    now apply drain_timers_sorted.
Qed.

Lemma exec_ordered (ops : list Op) :
  heap_ordered (Dispatcher.timer_pq_ (exec ops Dispatcher.init)).
Proof.
  induction ops as [|op ops IH] using rev_ind.
  - exact heap_ordered_nil.
  - rewrite exec_snoc. now apply step_ordered.
Qed.

(** C3, as the code has it.  In every call of [Dispatch()], on every
    dispatcher state that can be reached from a fresh dispatcher, the
    timer callbacks are fired in non-decreasing order of the
    [next_timeout] of their entries.  (Nothing is promised about the
    order among entries with equal [next_timeout].) *)
Theorem timers_fire_in_expiry_order
    (ops : list Op) (now : Z) (runs : list TimerRun) (io : list Ready) :
  let d := exec ops Dispatcher.init in
  StronglySorted Z.le
    (expiries (since d (fst (Dispatcher.Dispatch now runs io d)))).
Proof.
  intros d.
  destruct (Dispatch_after_drain now runs io d) as [_ [ev [E C]]].
  destruct (drain_timers_sorted now runs d (exec_ordered ops))
    as [_ [tf [Etf [S _]]]].
  rewrite Etf in E. rewrite <- app_assoc in E.
  rewrite (since_app _ _ _ E), !expiries_app.
  destruct (completions_observed 0 ev C) as [_ [-> _]].
  rewrite app_nil_r.
  match goal with
  | |- context [if ?b then _ else _] => destruct b
  end; cbn [expiries]; now rewrite app_nil_r.
Qed.

(** C3 as stated fails on ties.  Four timers A, B, C, D (callbacks 0, 1,
    2, 3) are added in this order, at 0 ms, 1 ms, 2 ms and 3 ms with
    intervals 4 ms, 3 ms, 2 ms and 1 ms, so that all four expire at 4 ms.
    [Dispatch()] at 4 ms fires A, then C, then B, then D: C fires before
    B although B was inserted first. *)
Lemma equal_expiries_do_not_fire_in_insertion_order :
  let d := exec [OpAddTimer 0 4 0; OpAddTimer 1000000 3 1;
                 OpAddTimer 2000000 2 2; OpAddTimer 3000000 1 3]
             Dispatcher.init in
  let once := mkTimerRun false false in
  map next_timeout (Dispatcher.timer_pq_ d)
  = [4000000; 4000000; 4000000; 4000000]
  /\ map cb (Dispatcher.timer_pq_ d) = [0; 1; 2; 3]%nat
  /\ fired_callbacks
       (Dispatcher.effects
          (fst (Dispatcher.Dispatch 4000000 [once; once; once; once] [] d)))
     = [0; 2; 1; 3]%nat.
Proof. cbv zeta. repeat split. Qed.

(* ================================================================== *)
(** * Rescheduling of repeating timers *)

Lemma entries_of_perm (c : nat) (l l' : TimerPQ.t) :
  Permutation l l' -> Permutation (entries_of c l) (entries_of c l').
Proof.
  unfold entries_of. induction 1 as [|x l l' _ IH|x y l|l l' l'' _ IH1 _ IH2];
    cbn.
  - constructor.
  - destruct (cb x =? c)%nat; [now constructor|exact IH].
  - destruct (cb x =? c)%nat, (cb y =? c)%nat;
      try reflexivity. apply perm_swap.
  - now transitivity (filter (fun t => (cb t =? c)%nat) l').
Qed.

Lemma perm_singleton (l : TimerPQ.t) (a : Timer) :
  Permutation l [a] -> l = [a].
Proof.
  intros H. apply Permutation_sym in H.
  now apply Permutation_length_1_inv in H.
Qed.

(** Pushing a timer of another callback keeps the entries of [c]. *)
Lemma entries_of_push_other (c : nat) (pq : TimerPQ.t) (x e : Timer) :
  cb x <> c -> entries_of c pq = [e] ->
  entries_of c (TimerPQ.push pq x) = [e].
Proof.
  intros Hx He. apply perm_singleton.
  rewrite (entries_of_perm c _ _ (push_perm pq x)).
  unfold entries_of in *. cbn.
  apply Nat.eqb_neq in Hx. now rewrite Hx, He.
Qed.

(** One iteration of the timer loop for an entry of another callback
    keeps the entries of [c]. *)
Lemma fire_top_other (c : nat) (run : TimerRun) (top : Timer)
    (rest : TimerPQ.t) (d : Dispatcher.t) (e : Timer) :
  Dispatcher.timer_pq_ d = top :: rest ->
  cb top <> c ->
  entries_of c (top :: rest) = [e] ->
  entries_of c (Dispatcher.timer_pq_ (Dispatcher.fire_top run top d)) = [e].
Proof.
  intros Hpq Hc He. rewrite fire_top_timers, Hpq.
  apply Nat.eqb_neq in Hc.
  assert (Hrest : entries_of c rest = [e]).
  { unfold entries_of in *. cbn in He. now rewrite Hc in He. }
  apply perm_singleton. rewrite <- Hrest.
  destruct (returns run).
  - set (N := mkTimer _ _ _).
    pose proof (push_perm (top :: rest) N) as Hperm1.
    destruct (push_cons top rest N) as [top' [rest' [Hpush [Htop' _]]]].
    rewrite Hpush in *.
    pose proof (Permutation_trans (pop_perm top' rest') Hperm1) as Hperm.
    apply (entries_of_perm c) in Hperm.
    assert (Hc' : (cb top' =? c)%nat = false)
      by (destruct Htop' as [->| ->]; exact Hc).
    unfold entries_of in *. cbn in Hperm.
    now rewrite Hc', Hc in Hperm.
  - pose proof (pop_perm top rest) as Hperm.
    apply Permutation_cons_inv in Hperm.
    exact (entries_of_perm c _ _ Hperm).
Qed.

(** Sums of clock ticks that stay in the 64-bit range are exact. *)
Lemma wrap_int64_small (x : Z) : is_int64 x -> wrap_int64 x = x.
Proof.
  unfold is_int64, wrap_int64. intros H.
  rewrite Z.mod_small by lia. lia.
Qed.

Lemma time_point_plus_eq (tp ms : Z) :
  time_point_plus tp ms = wrap_int64 (tp + ms * ticks_per_ms).
Proof.
  unfold time_point_plus, wrap_int64. f_equal.
  replace (tp + ((ms * ticks_per_ms + 2 ^ 63) mod 2 ^ 64 - 2 ^ 63) + 2 ^ 63)
    with (tp + (ms * ticks_per_ms + 2 ^ 63) mod 2 ^ 64) by lia.
  rewrite Z.add_mod_idemp_r by lia. f_equal. lia.
Qed.

Lemma time_point_plus_small (tp ms : Z) :
  is_int64 (tp + ms_to_ticks ms) ->
  time_point_plus tp ms = tp + ms_to_ticks ms.
Proof.
  intros H. rewrite time_point_plus_eq. now apply wrap_int64_small.
Qed.

(** One iteration of the timer loop for the entry of [c] whose callback
    returns [true]: with a non-negative interval and a requeue time
    within the range of the clock, the fired entry is the one that is
    popped, and the queue is left with the next entry of [c]. *)
Lemma fire_top_requeue (t0 T : Z) (c k : nat) (run : TimerRun)
    (rest : TimerPQ.t) (d : Dispatcher.t) :
  0 <= T ->
  is_int64 (t0 + Z.of_nat (S k) * ms_to_ticks T) ->
  Dispatcher.timer_pq_ d = kth_entry t0 T c k :: rest ->
  entries_of c rest = [] ->
  returns run = true ->
  entries_of c (Dispatcher.timer_pq_
                  (Dispatcher.fire_top run (kth_entry t0 T c k) d))
  = [kth_entry t0 T c (S k)].
Proof.
  intros HT Hrange Hpq Hrest Hret. rewrite fire_top_timers, Hpq, Hret.
  set (top := kth_entry t0 T c k).
  set (N := mkTimer _ _ _).
  assert (HN : N = kth_entry t0 T c (S k)).
  { subst N top. unfold kth_entry. cbn [next_timeout timeout cb].
    f_equal. rewrite time_point_plus_small.
    - unfold ms_to_ticks, ticks_per_ms. lia.
    - replace (t0 + Z.of_nat k * ms_to_ticks T + ms_to_ticks T)
        with (t0 + Z.of_nat (S k) * ms_to_ticks T) by lia.
      exact Hrange. }
  assert (Hlt : Timer_lt top N = false).
  { apply Timer_lt_false. rewrite HN. subst top.
    unfold kth_entry. cbn [next_timeout]. rewrite Nat2Z.inj_succ.
    assert (0 <= ms_to_ticks T) by (unfold ms_to_ticks, ticks_per_ms; lia).
    lia. }
  pose proof (push_perm (top :: rest) N) as Hperm1.
  destruct (push_cons top rest N) as [top' [rest' [Hpush [_ Htop']]]].
  rewrite (Htop' Hlt) in Hpush. rewrite Hpush in *.
  pose proof (Permutation_trans (pop_perm top rest') Hperm1) as Hperm.
  rewrite (perm_swap top N rest) in Hperm.
  apply Permutation_cons_inv in Hperm.
  apply perm_singleton. rewrite (entries_of_perm c _ _ Hperm).
  unfold entries_of in *. cbn [filter].
  rewrite Hrest, HN. cbn [cb kth_entry]. now rewrite Nat.eqb_refl.
Qed.

Lemma kth_expiries_length (t0 T : Z) (k m : nat) :
  length (kth_expiries t0 T k m) = m.
Proof. unfold kth_expiries. now rewrite length_map, length_seq. Qed.

(** The timer loop, seen from a repeating timer with callback [c] and
    non-negative interval [T] whose entry number [k + 1] is the only
    entry of [c] in the queue: as long as the callback returns [true]
    and the requeue times stay within the range of the clock, its
    firings are for the entries number [k + 1], [k + 2], ... in turn. *)
Lemma drain_timers_drift_free (t0 T : Z) (c : nat) (K : nat) (now : Z)
    (runs : list TimerRun) (d : Dispatcher.t) :
  0 <= T ->
  (forall j, (1 <= j <= K)%nat ->
             is_int64 (t0 + Z.of_nat j * ms_to_ticks T)) ->
  exists tf,
    Dispatcher.effects (fst (Dispatcher.drain_timers now runs d))
    = Dispatcher.effects d ++ tf
    /\ forall k,
         entries_of c (Dispatcher.timer_pq_ d) = [kth_entry t0 T c (S k)] ->
         keeps_returning_true c tf = true ->
         (S k + length (expiries_of c tf) <= K)%nat ->
         exists m,
           expiries_of c tf = kth_expiries t0 T k m
           /\ entries_of c
                (Dispatcher.timer_pq_ (fst (Dispatcher.drain_timers now runs d)))
              = [kth_entry t0 T c (S (k + m))].
Proof.
  intros HT Hrange. revert runs d.
  apply (drain_timers_ind now
           (fun d d' =>
              exists tf,
                Dispatcher.effects d' = Dispatcher.effects d ++ tf
                /\ forall k,
                     entries_of c (Dispatcher.timer_pq_ d)
                     = [kth_entry t0 T c (S k)] ->
                     keeps_returning_true c tf = true ->
                     (S k + length (expiries_of c tf) <= K)%nat ->
                     exists m,
                       expiries_of c tf = kth_expiries t0 T k m
                       /\ entries_of c (Dispatcher.timer_pq_ d')
                          = [kth_entry t0 T c (S (k + m))])).
  - intros d. exists []. rewrite app_nil_r. split; [reflexivity|].
    intros k Hk _ _. exists 0%nat. rewrite Nat.add_0_r. now split.
  - intros d top rest run d' Hpq _ _ [tf [E IH]].
    exists (TimerFired (cb top) (next_timeout top) (returns run) :: tf).
    split; [rewrite E, fire_top_effects; now rewrite <- app_assoc|].
    intros k Hk Hkeep Hbound. cbn [keeps_returning_true expiries_of] in *.
    rewrite Hpq in Hk.
    destruct (cb top =? c)%nat eqn:Hc.
    + (* the entry of [c] is fired *)
      cbn [negb orb] in Hkeep. apply andb_prop in Hkeep.
      destruct Hkeep as [Hret Hkeep].
      cbn [length] in Hbound.
      assert (Htop : top = kth_entry t0 T c (S k)
                     /\ entries_of c rest = []).
      { unfold entries_of in *. cbn [filter] in Hk. rewrite Hc in Hk.
        injection Hk as H1 H2. now split. }
      destruct Htop as [-> Hrest].
      destruct (IH (S k)) as [m [Em Hm]]; [|exact Hkeep|lia|].
      { apply (fire_top_requeue t0 T c (S k) run rest d); try assumption.
        apply Hrange. lia. }
      exists (S m). split.
      * rewrite Em. reflexivity.
      * rewrite Hm. do 2 f_equal. lia.
    + (* an entry of another callback is fired *)
      cbn [negb orb andb] in Hkeep.
      destruct (IH k) as [m [Em Hm]]; [|exact Hkeep|exact Hbound|].
      { apply (fire_top_other c run top rest d _ Hpq); [|exact Hk].
        now apply Nat.eqb_neq. }
      exists m. now split.
Qed.

Lemma kth_expiries_app (t0 T : Z) (k m m' : nat) :
  kth_expiries t0 T k m ++ kth_expiries t0 T (k + m) m'
  = kth_expiries t0 T k (m + m').
Proof.
  unfold kth_expiries. rewrite seq_app, map_app.
  now replace (S k + m)%nat with (S (k + m)) by lia.
Qed.

Lemma tracks_trans (t0 T : Z) (c : nat) (K : nat)
    (d1 d2 d3 : Dispatcher.t) :
  tracks t0 T c K d1 d2 -> tracks t0 T c K d2 d3 -> tracks t0 T c K d1 d3.
Proof.
  intros [ev1 [E1 H1]] [ev2 [E2 H2]]. exists (ev1 ++ ev2). split.
  - rewrite E2, E1. now rewrite app_assoc.
  - intros k Hk Hkeep Hbound. rewrite keeps_returning_true_app in Hkeep.
    apply andb_prop in Hkeep. destruct Hkeep as [K1 K2].
    rewrite expiries_of_app, length_app in Hbound.
    destruct (H1 k Hk K1 ltac:(lia)) as [m1 [X1 Q1]].
    assert (Hm1 : length (expiries_of c ev1) = m1)
      by (rewrite X1; apply kth_expiries_length).
    destruct (H2 (k + m1)%nat Q1 K2 ltac:(lia)) as [m2 [X2 Q2]].
    exists (m1 + m2)%nat. split.
    + now rewrite expiries_of_app, X1, X2, kth_expiries_app.
    + rewrite Q2. do 2 f_equal. lia.
Qed.

(** A step that fires no timer and keeps the entries of [c]. *)
Lemma tracks_quiet (t0 T : Z) (c : nat) (K : nat) (d d' : Dispatcher.t)
    (ev : list Effect) :
  Dispatcher.effects d' = Dispatcher.effects d ++ ev ->
  forallb (fun e => negb (is_timer_firing e)) ev = true ->
  (forall e, entries_of c (Dispatcher.timer_pq_ d) = [e] ->
             entries_of c (Dispatcher.timer_pq_ d') = [e]) ->
  tracks t0 T c K d d'.
Proof.
  intros E Hq Hpq. exists ev. split; [exact E|].
  intros k Hk _ _. exists 0%nat. rewrite Nat.add_0_r.
  split; [|now apply Hpq].
  clear E. induction ev as [|e ev IH]; [reflexivity|].
  cbn [forallb] in Hq. apply andb_prop in Hq. destruct Hq as [He Hq].
  destruct e; try discriminate; cbn; auto.
Qed.

Lemma completions_quiet (ev : list Effect) :
  forallb is_completion ev = true ->
  forallb (fun e => negb (is_timer_firing e)) ev = true.
Proof.
  intros H. rewrite forallb_forall in *. intros e He.
  specialize (H e He). now destruct e.
Qed.

Lemma step_tracks (t0 T : Z) (c : nat) (K : nat) (d : Dispatcher.t)
    (op : Op) :
  0 <= T ->
  (forall j, (1 <= j <= K)%nat ->
             is_int64 (t0 + Z.of_nat j * ms_to_ticks T)) ->
  adds_timer_for c op = false ->
  tracks t0 T c K d (step d op).
Proof.
  intros HT Hrange Hop. destruct op; cbn [step].
  - (* AddTimer for another callback *)
    apply tracks_quiet with (ev := []).
    + cbn. now rewrite app_nil_r.
    + reflexivity.
    + intros e He. cbn in Hop. apply Nat.eqb_neq in Hop.
      now apply entries_of_push_other.
  - unfold Dispatcher.AsyncRead. destruct (n =? 0);
      (eapply tracks_quiet; [reflexivity| |auto]);
      [now destruct done_cb|reflexivity].
  - unfold Dispatcher.AsyncRead_block. destruct (Buffer_size block =? 0);
      (eapply tracks_quiet; [reflexivity| |auto]);
      [now destruct done_cb|reflexivity].
  - unfold Dispatcher.AsyncWrite. destruct (Buffer_size buffer =? 0);
      (eapply tracks_quiet; [reflexivity| |auto]);
      [now destruct done_cb|reflexivity].
  - unfold Dispatcher.AsyncWrite_block. destruct (Buffer_size block =? 0);
      (eapply tracks_quiet; [reflexivity| |auto]);
      [now destruct done_cb|reflexivity].
  - apply tracks_quiet with (ev := []); auto. cbn. now rewrite app_nil_r.
  - (* Dispatch: the timer loop, then the wait and the completions *)
    apply tracks_trans with (d2 := fst (Dispatcher.drain_timers now runs d)).
    + exact (drain_timers_drift_free t0 T c K now runs d HT Hrange).
    + destruct (Dispatch_after_drain now runs io d) as [P [ev [E C]]].
      eapply tracks_quiet; [exact E| |now rewrite P].
      rewrite forallb_app, (completions_quiet ev C), andb_true_r.
      match goal with
      | |- context [if ?b then _ else _] => now destruct b
      end.
Qed.

Lemma exec_tracks (t0 T : Z) (c : nat) (K : nat) (ops : list Op)
    (d : Dispatcher.t) :
  0 <= T ->
  (forall j, (1 <= j <= K)%nat ->
             is_int64 (t0 + Z.of_nat j * ms_to_ticks T)) ->
  forallb (fun op => negb (adds_timer_for c op)) ops = true ->
  tracks t0 T c K d (exec ops d).
Proof.
  intros HT Hrange. induction ops as [|op ops IH] using rev_ind; intros Hops.
  - exists []. rewrite app_nil_r. split; [reflexivity|].
    intros k Hk _ _. exists 0%nat. rewrite Nat.add_0_r. now split.
  - rewrite forallb_app in Hops. apply andb_prop in Hops.
    destruct Hops as [Hops Hop]. cbn in Hop. rewrite andb_true_r in Hop.
    apply negb_true_iff in Hop.
    rewrite exec_snoc.
    exact (tracks_trans _ _ _ _ _ _ _ (IH Hops)
             (step_tracks t0 T c K _ op HT Hrange Hop)).
Qed.

(** C5, as the code has it.  A timer with a non-negative interval [T] is
    added at time [t0] with a callback [c] that no other timer uses.
    Whatever the client does afterwards and whenever [Dispatch()] runs,
    as long as the callback returns [true] each time and the scheduled
    expiries, up to the one of the entry left waiting in the queue, are
    within the 64-bit tick range of the clock, its k-th firing is for
    the entry with [next_timeout = t0 + k * T] (k = 1, 2, ...), and the
    entry waiting in the queue after k firings is scheduled for
    [t0 + (k + 1) * T]: the schedule depends neither on the times at
    which [Dispatch()] runs nor on how late a firing is. *)
Theorem repeating_timer_is_drift_free
    (d0 : Dispatcher.t) (t0 T : Z) (c : nat) (ops : list Op) :
  0 <= T ->
  entries_of c (Dispatcher.timer_pq_ d0) = [] ->
  forallb (fun op => negb (adds_timer_for c op)) ops = true ->
  let d1 := Dispatcher.AddTimer t0 T c d0 in
  let fired := expiries_of c (since d1 (exec ops d1)) in
  keeps_returning_true c (since d1 (exec ops d1)) = true ->
  - 2 ^ 63 <= t0 ->
  t0 + Z.of_nat (S (length fired)) * ms_to_ticks T < 2 ^ 63 ->
  fired = map (fun k => t0 + Z.of_nat k * ms_to_ticks T) (seq 1 (length fired))
  /\ entries_of c (Dispatcher.timer_pq_ (exec ops d1))
     = [mkTimer (t0 + Z.of_nat (S (length fired)) * ms_to_ticks T) T c].
Proof.
  intros HT Hfresh Hops d1 fired Hkeep Hlo Hhi.
  assert (Hrange : forall j, (1 <= j <= S (length fired))%nat ->
                     is_int64 (t0 + Z.of_nat j * ms_to_ticks T)).
  { intros j Hj. unfold is_int64.
    assert (0 <= ms_to_ticks T) by (unfold ms_to_ticks, ticks_per_ms; lia).
    assert (Z.of_nat j * ms_to_ticks T
            <= Z.of_nat (S (length fired)) * ms_to_ticks T)
      by (apply Z.mul_le_mono_nonneg_r; lia).
    assert (0 <= Z.of_nat j * ms_to_ticks T) by lia.
    lia. }
  destruct (exec_tracks t0 T c (S (length fired)) ops d1 HT Hrange Hops)
    as [ev [E H]].
  subst fired. rewrite (since_app _ _ _ E) in *.
  destruct (H 0%nat) as [m [Em Hm]]; [|exact Hkeep|lia|].
  - subst d1. cbn [Dispatcher.AddTimer Dispatcher.set_timers
                   Dispatcher.timer_pq_].
    apply perm_singleton.
    rewrite (entries_of_perm c _ _ (push_perm _ _)).
    unfold entries_of in *. cbn [filter cb]. rewrite Nat.eqb_refl, Hfresh.
    unfold kth_entry. rewrite time_point_plus_small.
    + replace (Z.of_nat 1 * ms_to_ticks T) with (ms_to_ticks T) by lia.
      reflexivity.
    + replace (t0 + ms_to_ticks T) with (t0 + Z.of_nat 1 * ms_to_ticks T)
        by lia.
      apply Hrange. lia.
  - rewrite Em, Hm. unfold kth_expiries.
    rewrite length_map, length_seq. split; reflexivity.
Qed.

Lemma repeating_timer_is_drift_free_witness :
  let d1 := Dispatcher.AddTimer 0 20 7 Dispatcher.init in
  let again := mkTimerRun true false in
  let ops := [OpDispatch 45000000 [again; again] [];
              OpDispatch 61000000 [again] []] in
  expiries_of 7 (since d1 (exec ops d1)) = [20000000; 40000000; 60000000]
  /\ entries_of 7 (Dispatcher.timer_pq_ (exec ops d1))
     = [mkTimer 80000000 20 7].
Proof.
  refine (repeating_timer_is_drift_free Dispatcher.init 0 20 7
            [OpDispatch 45000000 [mkTimerRun true false; mkTimerRun true false] [];
             OpDispatch 61000000 [mkTimerRun true false] []]
            ltac:(lia) eq_refl eq_refl eq_refl _ _).
  - lia.
  - vm_compute. reflexivity.
Defined.

(** A timeout whose tick count does not fit the clock wraps around:
    [AddTimer(9223372036855 ms)] at time 0 schedules the entry for a
    negative time point. *)
Lemma large_timeout_wraps_around :
  map next_timeout
    (Dispatcher.timer_pq_
       (Dispatcher.AddTimer 0 9223372036855 7 Dispatcher.init))
  = [-9223372036854551616].
Proof. reflexivity. Qed.

(** C5 as stated fails for a negative interval.  A timer added at 10 ms
    with interval -1 ms is fired for the entry with [next_timeout] 9 ms;
    its callback returns [true], the entry requeued for 8 ms goes to the
    top of the queue and is the one removed by [pop()], so the second
    firing is again for the entry of 9 ms and not for [t0 + 2 * T] = 8
    ms. *)
Lemma negative_interval_is_not_rescheduled :
  let d1 := Dispatcher.AddTimer 10000000 (-1) 7 Dispatcher.init in
  let again := mkTimerRun true false in
  let d2 := exec [OpDispatch 10000000 [again; again] []] d1 in
  keeps_returning_true 7 (since d1 d2) = true
  /\ expiries_of 7 (since d1 d2) = [9000000; 9000000]
  /\ nth 1 (expiries_of 7 (since d1 d2)) 0
     <> 10000000 + 2 * ms_to_ticks (-1).
Proof. cbv zeta. repeat split. discriminate. Qed.

(* ================================================================== *)
(** * Further properties of the disk allocation functors *)

Lemma Striping_call_eq (b e i : Z) :
  is_size_t b -> is_size_t e -> b < e ->
  BlockAlloc.Striping_call (BlockAlloc.Striping_ctor b e) i
  = b + i mod (e - b).
Proof.
  intros Hb He Hlt. unfold BlockAlloc.Striping_call.
  rewrite (diff_of_range b e Hb He Hlt). cbn [BlockAlloc.begin_ BlockAlloc.Striping_ctor].
  pose proof (Z.mod_pos_bound i (e - b) ltac:(lia)).
  apply wrap_small. unfold is_size_t in *. lia.
Qed.

(** Two indices less than a stripe apart with the same remainder are
    equal. *)
Lemma same_remainder_in_window (d i j : Z) :
  0 < d -> i <= j < i + d -> i mod d = j mod d -> i = j.
Proof.
  intros Hd Hw Hm.
  assert (H : (j - i) mod d = 0).
  { rewrite Zminus_mod, Hm, Z.sub_diag. apply Z.mod_0_l. lia. }
  rewrite Z.mod_small in H by lia. lia.
Qed.

(** Striping is round robin: the first [e - b] blocks go to the disks
    [b], [b + 1], ..., [e - 1] in this order, and the assignment repeats
    with period [e - b]. *)
Theorem Striping_round_robin (b e i : Z) :
  is_size_t b -> is_size_t e -> b < e -> 0 <= i ->
  (i < e - b ->
   BlockAlloc.Striping_call (BlockAlloc.Striping_ctor b e) i = b + i)
  /\ BlockAlloc.Striping_call (BlockAlloc.Striping_ctor b e) (i + (e - b))
     = BlockAlloc.Striping_call (BlockAlloc.Striping_ctor b e) i.
Proof.
  intros Hb He Hlt Hi. rewrite !Striping_call_eq by assumption. split.
  - intros Hs. rewrite Z.mod_small by lia. reflexivity.
  - f_equal. rewrite <- (Z.mul_1_l (e - b)) at 1.
    apply Z.mod_add. lia.
Qed.

Lemma Striping_round_robin_witness :
  BlockAlloc.Striping_call (BlockAlloc.Striping_ctor 2 5) 1 = 3
  /\ BlockAlloc.Striping_call (BlockAlloc.Striping_ctor 2 5) (1 + (5 - 2))
     = BlockAlloc.Striping_call (BlockAlloc.Striping_ctor 2 5) 1.
Proof.
  assert (H : is_size_t 2 /\ is_size_t 5)
    by (unfold is_size_t, size_t_modulus; lia).
  destruct (Striping_round_robin 2 5 1 (proj1 H) (proj2 H)
              ltac:(lia) ltac:(lia)) as [H1 H2].
  split; [apply H1; lia|exact H2].
Defined.

Lemma identity_perm_NoDup (n : Z) : NoDup (BlockAlloc.identity_perm n).
Proof.
  unfold BlockAlloc.identity_perm.
  apply Finite.Injective_map_NoDup.
  - intros x y H. lia.
  - apply seq_NoDup.
Qed.

(** Any [e - b] consecutive blocks [i <= j < i + (e - b)] are placed on
    pairwise different disks by [Striping] and by [RandomCyclic]
    (whatever permutation the shuffle produced): within such a window,
    two blocks on the same disk are the same block.  The same holds for
    [SimpleRandom] when the indices are at least [e - b] below the
    largest [size_t], [j + (e - b) < 2^64], so that adding its offset
    does not wrap around. *)
Theorem stripe_window_uses_distinct_disks
    (b e i j rnd : Z) (shuffle : list Z -> list Z) :
  is_size_t b -> is_size_t e -> b < e ->
  0 <= i -> i <= j < i + (e - b) ->
  Permutation (shuffle (BlockAlloc.identity_perm (e - b)))
              (BlockAlloc.identity_perm (e - b)) ->
  (BlockAlloc.Striping_call (BlockAlloc.Striping_ctor b e) i
   = BlockAlloc.Striping_call (BlockAlloc.Striping_ctor b e) j -> i = j)
  /\ (j + (e - b) < size_t_modulus ->
      BlockAlloc.SimpleRandom_call (BlockAlloc.SimpleRandom_ctor rnd b e) i
      = BlockAlloc.SimpleRandom_call (BlockAlloc.SimpleRandom_ctor rnd b e) j
      -> i = j)
  /\ (BlockAlloc.RandomCyclic_call (BlockAlloc.RandomCyclic_ctor shuffle b e) i
      = BlockAlloc.RandomCyclic_call (BlockAlloc.RandomCyclic_ctor shuffle b e) j
      -> i = j).
Proof.
  intros Hb He Hlt Hi Hw Hsh.
  pose proof (diff_of_range b e Hb He Hlt) as Hd.
  assert (Hpos : 0 < e - b) by lia.
  split; [|split].
  - rewrite !Striping_call_eq by assumption. intros H.
    apply (same_remainder_in_window (e - b)); lia.
  - intros Hover.
    unfold BlockAlloc.SimpleRandom_call, BlockAlloc.SimpleRandom_ctor.
    cbn [BlockAlloc.sr_base BlockAlloc.offset_]. rewrite !Hd.
    cbn [BlockAlloc.begin_ BlockAlloc.Striping_ctor].
    pose proof (Z.mod_pos_bound rnd (e - b) Hpos) as Hoff.
    set (off := rnd mod (e - b)) in *.
    rewrite (wrap_small (i + off)), (wrap_small (j + off))
      by (unfold is_size_t; lia).
    pose proof (Z.mod_pos_bound (i + off) (e - b) Hpos).
    pose proof (Z.mod_pos_bound (j + off) (e - b) Hpos).
    rewrite !wrap_small by (unfold is_size_t in *; lia).
    intros Heq.
    assert (i + off = j + off); [|lia].
    apply (same_remainder_in_window (e - b)); lia.
  - unfold BlockAlloc.RandomCyclic_call, BlockAlloc.RandomCyclic_ctor.
    cbn [BlockAlloc.rc_base BlockAlloc.perm_]. rewrite !Hd.
    cbn [BlockAlloc.begin_ BlockAlloc.Striping_ctor].
    set (p := shuffle (BlockAlloc.identity_perm (e - b))) in *.
    pose proof (Z.mod_pos_bound i (e - b) Hpos) as Hi'.
    pose proof (Z.mod_pos_bound j (e - b) Hpos) as Hj'.
    pose proof (shuffled_entry_bound p (e - b) _ Hsh Hi').
    pose proof (shuffled_entry_bound p (e - b) _ Hsh Hj').
    rewrite !wrap_small by (unfold is_size_t in *; lia).
    intros Heq.
    assert (Hlen : length p = Z.to_nat (e - b)).
    { rewrite (Permutation_length Hsh). apply identity_perm_length. }
    assert (Hnd : NoDup p).
    { apply (Permutation_NoDup (Permutation_sym Hsh)).
      apply identity_perm_NoDup. }
    apply (same_remainder_in_window (e - b)); try lia.
    assert (Hn : Z.to_nat (i mod (e - b)) = Z.to_nat (j mod (e - b))).
    { apply (proj1 (NoDup_nth p 0) Hnd); try lia. }
    lia.
Qed.

Lemma stripe_window_uses_distinct_disks_witness :
  4 <= 6 < 4 + (5 - 2)
  /\ Permutation (rev (BlockAlloc.identity_perm (5 - 2)))
                 (BlockAlloc.identity_perm (5 - 2))
  /\ (BlockAlloc.Striping_call (BlockAlloc.Striping_ctor 2 5) 4
      = BlockAlloc.Striping_call (BlockAlloc.Striping_ctor 2 5) 6 -> 4 = 6)
  /\ (6 + (5 - 2) < size_t_modulus ->
      BlockAlloc.SimpleRandom_call (BlockAlloc.SimpleRandom_ctor 7 2 5) 4
      = BlockAlloc.SimpleRandom_call (BlockAlloc.SimpleRandom_ctor 7 2 5) 6
      -> 4 = 6)
  /\ (BlockAlloc.RandomCyclic_call
        (BlockAlloc.RandomCyclic_ctor (@rev Z) 2 5) 4
      = BlockAlloc.RandomCyclic_call
          (BlockAlloc.RandomCyclic_ctor (@rev Z) 2 5) 6
      -> 4 = 6).
Proof.
  split; [lia|].
  split; [apply Permutation_sym, Permutation_rev|].
  refine (stripe_window_uses_distinct_disks 2 5 4 6 7 (@rev Z)
            _ _ _ _ _ _).
  all: try (unfold is_size_t, size_t_modulus; lia).
  apply Permutation_sym, Permutation_rev.
Defined.

Lemma wrap_wrap_add (x y : Z) : wrap (wrap x + y) = wrap (x + y).
Proof.
  unfold wrap. rewrite Z.add_mod_idemp_l; [reflexivity|].
  unfold size_t_modulus. lia.
Qed.

(** [OffsetAllocator(offset, base)] shifts the index handed to the base
    functor by [offset] -- also by a negative [offset], which is stored
    as a huge [size_t] -- whenever the shifted index is itself a
    [size_t]. *)
Theorem OffsetAllocator_shifts_index
    (BaseAllocator : Type) (base_call : BaseAllocator -> Z -> Z)
    (base : BaseAllocator) (offset i : Z) :
  is_size_t (offset + i) ->
  OffsetAllocator.call BaseAllocator base_call
    (OffsetAllocator.ctor BaseAllocator offset base) i
  = base_call base (offset + i).
Proof.
  intros H. unfold OffsetAllocator.call, OffsetAllocator.ctor.
  cbn [OffsetAllocator.base_ OffsetAllocator.offset_].
  now rewrite wrap_wrap_add, wrap_small.
Qed.

Lemma OffsetAllocator_shifts_index_witness :
  OffsetAllocator.call BlockAlloc.Striping BlockAlloc.Striping_call
    (OffsetAllocator.ctor BlockAlloc.Striping (-1)
       (BlockAlloc.Striping_ctor 2 5)) 4
  = BlockAlloc.Striping_call (BlockAlloc.Striping_ctor 2 5) (-1 + 4).
Proof.
  apply OffsetAllocator_shifts_index.
  unfold is_size_t, size_t_modulus. lia.
Defined.

(** An [OffsetAllocator] over [Striping] stays within the disk range of
    the striping, whatever offset it was given or set to. *)
Theorem OffsetAllocator_over_Striping_in_range (b e offset i : Z) :
  is_size_t b -> is_size_t e -> b < e ->
  b <= OffsetAllocator.call BlockAlloc.Striping BlockAlloc.Striping_call
         (OffsetAllocator.set_offset BlockAlloc.Striping
            (OffsetAllocator.ctor_base BlockAlloc.Striping
               (BlockAlloc.Striping_ctor b e)) offset) i < e.
Proof.
  intros Hb He Hlt. unfold OffsetAllocator.call.
  cbn [OffsetAllocator.base_ OffsetAllocator.offset_
       OffsetAllocator.set_offset OffsetAllocator.ctor_base].
  rewrite Striping_call_eq by assumption.
  pose proof (Z.mod_pos_bound (wrap (offset + i)) (e - b) ltac:(lia)). lia.
Qed.

Lemma OffsetAllocator_over_Striping_in_range_witness :
  2 <= OffsetAllocator.call BlockAlloc.Striping BlockAlloc.Striping_call
         (OffsetAllocator.set_offset BlockAlloc.Striping
            (OffsetAllocator.ctor_base BlockAlloc.Striping
               (BlockAlloc.Striping_ctor 2 5)) 7) 9 < 5.
Proof.
  apply OffsetAllocator_over_Striping_in_range;
    unfold is_size_t, size_t_modulus; lia.
Defined.

(** The offset of an [OffsetAllocator] is stored as [size_t] but read
    back as [int].  An offset given to the constructor as an [int] is
    read back unchanged, and so is an offset below [2^31] stored by
    [set_offset]; an offset from [2^31] up to [2^32 - 1] stored by
    [set_offset] is read back as a negative number. *)
Theorem OffsetAllocator_offset_read_back
    (BaseAllocator : Type) (a : OffsetAllocator.t BaseAllocator) (x : Z) :
  (is_int x ->
   OffsetAllocator.get_offset BaseAllocator
     (OffsetAllocator.ctor BaseAllocator x (OffsetAllocator.base_ _ a)) = x)
  /\ (0 <= x < 2 ^ 31 ->
      OffsetAllocator.get_offset BaseAllocator
        (OffsetAllocator.set_offset BaseAllocator a x) = x)
  /\ (2 ^ 31 <= x < 2 ^ 32 ->
      OffsetAllocator.get_offset BaseAllocator
        (OffsetAllocator.set_offset BaseAllocator a x) = x - 2 ^ 32).
Proof.
  unfold OffsetAllocator.get_offset, OffsetAllocator.ctor,
    OffsetAllocator.set_offset, to_int, is_int, wrap, size_t_modulus.
  cbn [OffsetAllocator.offset_]. repeat split; intros H.
  - destruct (Z_lt_le_dec x 0) as [Hneg|Hpos].
    + replace (x mod 2 ^ 64) with (x + 2 ^ 64).
      * replace (x + 2 ^ 64 + 2 ^ 31)
          with (x + 2 ^ 31 + 2 ^ 32 * 2 ^ 32) by lia.
        rewrite Z.mod_add by lia. rewrite Z.mod_small; lia.
      * symmetry. rewrite <- (Z.mod_add x 1 (2 ^ 64)) by lia.
        rewrite Z.mod_small; lia.
    + rewrite (Z.mod_small x) by lia. rewrite Z.mod_small; lia.
  - rewrite Z.mod_small; lia.
  - replace (x + 2 ^ 31) with (x - 2 ^ 31 + 1 * 2 ^ 32) by lia.
    rewrite Z.mod_add by lia. rewrite Z.mod_small; lia.
Qed.

Lemma OffsetAllocator_offset_read_back_witness :
  OffsetAllocator.get_offset SingleDisk.t
    (OffsetAllocator.ctor SingleDisk.t (-3)
       (OffsetAllocator.base_ _
          (OffsetAllocator.ctor_base SingleDisk.t (SingleDisk.ctor 1 0))))
  = -3.
Proof.
  apply (proj1 (OffsetAllocator_offset_read_back SingleDisk.t
                  (OffsetAllocator.ctor_base SingleDisk.t (SingleDisk.ctor 1 0))
                  (-3))).
  unfold is_int. lia.
Defined.

(* ================================================================== *)
(** * Whole transfers: completion exactly at the last byte *)

Lemma transferred_nonneg (rs : list Z) : 0 <= transferred rs.
Proof. induction rs as [|r rs IH]; cbn; lia. Qed.

Lemma skipn_skipn_add {A : Type} (n m : nat) (l : list A) :
  skipn n (skipn m l) = skipn (m + n) l.
Proof.
  revert l. induction m as [|m IH]; intros l; [reflexivity|].
  destruct l as [|x l]; cbn; [now rewrite skipn_nil|apply IH].
Qed.

Lemma firstn_add {A : Type} (n m : nat) (l : list A) :
  firstn (n + m) l = firstn n l ++ firstn m (skipn n l).
Proof.
  revert l. induction n as [|n IH]; intros l; [reflexivity|].
  destruct l as [|x l]; cbn; [now rewrite firstn_nil|now rewrite IH].
Qed.

(** Taking [r] bytes at the cursor and the rest after them gives the
    rest from the cursor. *)
Lemma taken_then_rest (payload : list byte) (cursor r : Z) :
  0 <= cursor -> 0 <= r ->
  taken payload cursor r ++ skipn (Z.to_nat (cursor + r)) payload
  = skipn (Z.to_nat cursor) payload.
Proof.
  intros Hc Hr. unfold taken.
  rewrite Z2Nat.inj_add by lia.
  rewrite <- skipn_skipn_add. apply firstn_skipn.
Qed.

Lemma taken_all (payload : list byte) (cursor r : Z) :
  0 <= cursor -> cursor + r = Buffer_size payload ->
  taken payload cursor r = skipn (Z.to_nat cursor) payload.
Proof.
  intros Hc Hr. unfold taken, Buffer_size in *.
  apply firstn_all2. rewrite length_skipn. lia.
Qed.

Lemma send_progress_cases (res : SendResult) :
  send_progress res = true ->
  0 < send_r res
  \/ (send_r res <= 0
      /\ ((send_errno res =? EINTR) || (send_errno res =? EAGAIN)) = true).
Proof.
  unfold send_progress. intros H.
  destruct (Z.ltb_spec 0 (send_r res)); [now left|right].
  split; [lia|]. cbn in H. exact H.
Qed.

(** A buffer write in progress, over a well-behaved connection that
    takes [transferred] bytes in all, no more than what is left. *)
Lemma run_write_buffer_progress (ress : list SendResult) :
  forall a : AsyncWriteBuffer.t,
  0 <= AsyncWriteBuffer.size_ a < Buffer_size (AsyncWriteBuffer.buffer_ a) ->
  Buffer_size (AsyncWriteBuffer.buffer_ a) < size_t_modulus ->
  forallb send_progress ress = true ->
  AsyncWriteBuffer.size_ a + transferred (map send_r ress)
  <= Buffer_size (AsyncWriteBuffer.buffer_ a) ->
  let done :=
    AsyncWriteBuffer.size_ a + transferred (map send_r ress)
    =? Buffer_size (AsyncWriteBuffer.buffer_ a) in
  let '(a', ev, out) := run_write_buffer ress a in
  ev = (if done
        then fire_write (AsyncWriteBuffer.callback_ a) (AsyncWriteBuffer.conn_ a)
        else [])
  /\ out = Return (negb done)
  /\ AsyncWriteBuffer.IsDone a' = done
  /\ AsyncWriteBuffer.size_ a'
     = AsyncWriteBuffer.size_ a + transferred (map send_r ress)
  /\ wire_write_buffer ress a
     = taken (AsyncWriteBuffer.buffer_ a) (AsyncWriteBuffer.size_ a)
         (transferred (map send_r ress)).
Proof.
  induction ress as [|res ress IH]; intros a Hcur Hmax Hok Hsum.
  - cbn in *. rewrite Z.add_0_r.
    replace (AsyncWriteBuffer.size_ a =? _) with false
      by (symmetry; apply Z.eqb_neq; lia).
    unfold AsyncWriteBuffer.IsDone.
    replace (AsyncWriteBuffer.size_ a =? _) with false
      by (symmetry; apply Z.eqb_neq; lia).
    repeat split.
  - cbn [forallb] in Hok. apply andb_prop in Hok. destruct Hok as [Hres Hok].
    cbn [map transferred] in *.
    pose proof (transferred_nonneg (map send_r ress)) as Hnn.
    cbn [run_write_buffer wire_write_buffer].
    destruct (send_progress_cases res Hres) as [Hpos|[Hneg Htrans]].
    + (* progress *)
      rewrite Z.max_r in * by lia.
      unfold AsyncWriteBuffer.call.
      rewrite (proj2 (Z.leb_gt _ _) Hpos), (proj2 (Z.ltb_lt _ _) Hpos).
      cbn [AsyncWriteBuffer.size_ AsyncWriteBuffer.buffer_].
      rewrite (wrap_small (AsyncWriteBuffer.size_ a + send_r res))
        by (unfold is_size_t; lia).
      destruct (Z.eqb_spec (AsyncWriteBuffer.size_ a + send_r res)
                  (Buffer_size (AsyncWriteBuffer.buffer_ a))) as [Hfin|Hmore].
      * (* the last byte *)
        assert (Hz : transferred (map send_r ress) = 0) by lia.
        rewrite Hz, Z.add_0_r.
        unfold AsyncWriteBuffer.DoCallback, AsyncWriteBuffer.IsDone.
        cbn [AsyncWriteBuffer.size_ AsyncWriteBuffer.buffer_
             AsyncWriteBuffer.callback_ AsyncWriteBuffer.conn_].
        rewrite (proj2 (Z.eqb_eq _ _) Hfin). now repeat split.
      * set (a1 := AsyncWriteBuffer.mk _ _ _ _).
        specialize (IH a1). cbn [AsyncWriteBuffer.size_ AsyncWriteBuffer.buffer_
                                 AsyncWriteBuffer.callback_ AsyncWriteBuffer.conn_
                                 a1] in IH.
        subst a1.
        specialize (IH ltac:(lia) Hmax Hok ltac:(lia)).
        destruct (run_write_buffer ress _) as [[a2 ev2] out2].
        rewrite Z.add_assoc in *.
        destruct IH as [E1 [E2 [E3 [E4 E5]]]].
        cbn [app]. repeat split; try assumption.
        rewrite E5. unfold taken.
        rewrite (Z2Nat.inj_add (send_r res)) by lia.
        rewrite firstn_add. f_equal.
        rewrite skipn_skipn_add.
        rewrite <- Z2Nat.inj_add by lia. reflexivity.
    + (* transient failure: nothing changes *)
      rewrite Z.max_l in * by lia. rewrite Z.add_0_l in *.
      unfold AsyncWriteBuffer.call at 1 2.
      rewrite (proj2 (Z.leb_le _ _) Hneg), Htrans.
      replace (0 <? send_r res) with false
        by (symmetry; apply Z.ltb_ge; lia).
      specialize (IH a Hcur Hmax Hok Hsum).
      destruct (run_write_buffer ress a) as [[a2 ev2] out2].
      exact IH.
Qed.

Lemma store_at_end (got rest chunk : list byte) :
  store (got ++ rest) (length got) chunk = got ++ store rest 0 chunk.
Proof.
  induction got as [|g got IH]; cbn; [reflexivity|now rewrite IH].
Qed.

Lemma store_at_start (rest chunk : list byte) :
  (length chunk <= length rest)%nat ->
  store rest 0 chunk = chunk ++ skipn (length chunk) rest.
Proof.
  revert rest. induction chunk as [|x chunk IH]; intros rest Hlen.
  - destruct rest; reflexivity.
  - destruct rest as [|r rest]; cbn in *; [lia|].
    rewrite IH by lia. reflexivity.
Qed.

Lemma recv_progress_cases (res : RecvResult) :
  recv_progress res = true ->
  (0 < recv_r res /\ Z.of_nat (length (recv_data res)) = recv_r res
   /\ received res = recv_data res)
  \/ (recv_r res <= 0
      /\ ((recv_errno res =? EINTR) || (recv_errno res =? EAGAIN)) = true).
Proof.
  unfold recv_progress, received. intros H.
  destruct (Z.ltb_spec 0 (recv_r res)); [left|right].
  - apply Z.eqb_eq in H. repeat split; try lia.
    apply firstn_all2. lia.
  - split; [lia|exact H].
Qed.

Lemma stream_length (ress : list RecvResult) :
  forallb recv_progress ress = true ->
  Z.of_nat (length (stream ress)) = transferred (map recv_r ress).
Proof.
  induction ress as [|res ress IH]; [reflexivity|].
  cbn [forallb]. intros H. apply andb_prop in H. destruct H as [Hres Hok].
  cbn [stream map transferred]. rewrite length_app, Nat2Z.inj_add, IH by exact Hok.
  destruct (recv_progress_cases res Hres) as [[Hpos [Hlen _]]|[Hneg _]].
  - rewrite (proj2 (Z.ltb_lt _ _) Hpos). lia.
  - replace (0 <? recv_r res) with false by (symmetry; apply Z.ltb_ge; lia).
    cbn. lia.
Qed.

Lemma stream_nothing (ress : list RecvResult) :
  forallb recv_progress ress = true ->
  transferred (map recv_r ress) = 0 -> stream ress = [].
Proof.
  intros Hok Hz. apply length_zero_iff_nil.
  pose proof (stream_length ress Hok). lia.
Qed.

(** A buffer read in progress: [got] has been received, [rest] is still
    to be filled. *)
Lemma run_read_buffer_progress (ress : list RecvResult) :
  forall (a : AsyncReadBuffer.t) (got rest : list byte),
  AsyncReadBuffer.buffer_ a = got ++ rest ->
  AsyncReadBuffer.size_ a = Z.of_nat (length got) ->
  rest <> [] ->
  Buffer_size (AsyncReadBuffer.buffer_ a) < size_t_modulus ->
  forallb recv_progress ress = true ->
  transferred (map recv_r ress) <= Z.of_nat (length rest) ->
  let done := transferred (map recv_r ress) =? Z.of_nat (length rest) in
  let '(a', ev, out) := AsyncReadBuffer.run ress a in
  ev = (if done
        then match AsyncReadBuffer.callback_ a with
             | Some cb => [ReadDone (cb_id cb) (AsyncReadBuffer.conn_ a)
                             (got ++ stream ress)]
             | None => []
             end
        else [])
  /\ out = Return (negb done)
  /\ (done = false ->
      AsyncReadBuffer.IsDone a' = false
      /\ AsyncReadBuffer.buffer_ a'
         = got ++ stream ress
           ++ skipn (Z.to_nat (transferred (map recv_r ress))) rest).
Proof.
  induction ress as [|res ress IH]; intros a got rest Hbuf Hcur Hrest Hmax Hok Hsum.
  - cbn [AsyncReadBuffer.run map transferred stream] in *.
    assert (Hlen : (0 < length rest)%nat) by (destruct rest; cbn; [easy|lia]).
    replace (0 =? Z.of_nat (length rest)) with false
      by (symmetry; apply Z.eqb_neq; lia).
    split; [reflexivity|]. split; [reflexivity|]. intros _. split.
    + unfold AsyncReadBuffer.IsDone, Buffer_size.
      rewrite Hbuf, Hcur, length_app. apply Z.eqb_neq. lia.
    + rewrite Hbuf. reflexivity.
  - cbn [forallb] in Hok. apply andb_prop in Hok. destruct Hok as [Hres Hok].
    cbn [map transferred stream] in *.
    pose proof (transferred_nonneg (map recv_r ress)) as Hnn.
    assert (Htot : Buffer_size (AsyncReadBuffer.buffer_ a)
                   = Z.of_nat (length got) + Z.of_nat (length rest)).
    { unfold Buffer_size. rewrite Hbuf, length_app. lia. }
    cbn [AsyncReadBuffer.run].
    destruct (recv_progress_cases res Hres)
      as [[Hpos [Hlen Hrecv]]|[Hneg Htrans]].
    + rewrite Z.max_r in * by lia.
      rewrite (proj2 (Z.ltb_lt _ _) Hpos).
      unfold AsyncReadBuffer.call.
      rewrite (proj2 (Z.leb_gt _ _) Hpos).
      cbn [AsyncReadBuffer.size_ AsyncReadBuffer.buffer_].
      rewrite Hrecv, Hbuf, Hcur, Nat2Z.id, store_at_end,
        store_at_start by lia.
      rewrite (wrap_small (Z.of_nat (length got) + recv_r res))
        by (unfold is_size_t; lia).
      assert (Hsize : Buffer_size (got ++ recv_data res
                                   ++ skipn (length (recv_data res)) rest)
                      = Z.of_nat (length got) + Z.of_nat (length rest)).
      { unfold Buffer_size. rewrite !length_app, length_skipn. lia. }
      rewrite Hsize.
      destruct (Z.eqb_spec (Z.of_nat (length got) + recv_r res)
                  (Z.of_nat (length got) + Z.of_nat (length rest)))
        as [Hfin|Hmore].
      * assert (Hz : transferred (map recv_r ress) = 0) by lia.
        rewrite Hz, Z.add_0_r, (stream_nothing ress Hok Hz), app_nil_r.
        replace (recv_r res =? Z.of_nat (length rest)) with true
          by (symmetry; apply Z.eqb_eq; lia).
        unfold AsyncReadBuffer.DoCallback.
        cbn [AsyncReadBuffer.callback_ AsyncReadBuffer.conn_
             AsyncReadBuffer.buffer_].
        rewrite skipn_all2, app_nil_r by lia.
        destruct (AsyncReadBuffer.callback_ a) as [cb|];
          (split; [reflexivity|]); (split; [reflexivity|]); discriminate.
      * set (a1 := AsyncReadBuffer.mk _ _ _ _).
        specialize (IH a1 (got ++ recv_data res)
                      (skipn (length (recv_data res)) rest)).
        cbn [AsyncReadBuffer.size_ AsyncReadBuffer.buffer_
             AsyncReadBuffer.callback_ AsyncReadBuffer.conn_ a1] in IH.
        rewrite <- app_assoc in IH. specialize (IH eq_refl).
        rewrite length_app, length_skipn in IH.
        assert (Hne : skipn (length (recv_data res)) rest <> []).
        { intros E. apply (f_equal (@length byte)) in E.
          rewrite length_skipn in E. cbn in E. lia. }
        specialize (IH ltac:(lia) Hne).
        rewrite Hsize in IH. specialize (IH ltac:(lia) Hok ltac:(lia)).
        destruct (AsyncReadBuffer.run ress a1) as [[a2 ev2] out2].
        replace (recv_r res + transferred (map recv_r ress)
                 =? Z.of_nat (length rest))
          with (transferred (map recv_r ress)
                =? Z.of_nat (length rest - length (recv_data res)))
          by (apply eq_true_iff_eq; rewrite !Z.eqb_eq; lia).
        destruct IH as [E1 [E2 E3]]. cbn [app].
        split; [rewrite E1; now rewrite <- app_assoc|].
        split; [exact E2|].
        intros Hd. destruct (E3 Hd) as [E4 E5]. split; [exact E4|].
        rewrite E5, <- !app_assoc. do 3 f_equal.
        rewrite skipn_skipn. f_equal. lia.
    + rewrite Z.max_l in * by lia. rewrite Z.add_0_l in *.
      replace (0 <? recv_r res) with false by (symmetry; apply Z.ltb_ge; lia).
      unfold AsyncReadBuffer.call at 1.
      rewrite (proj2 (Z.leb_le _ _) Hneg), Htrans. cbn [app].
      specialize (IH a got rest Hbuf Hcur Hrest Hmax Hok Hsum).
      destruct (AsyncReadBuffer.run ress a) as [[a2 ev2] out2].
      exact IH.
Qed.

(** A block read in progress: [got] has been received into the block,
    [rest] is the part of the block after the cursor. *)
Lemma run_read_block_progress (ress : list RecvResult) :
  forall (a : AsyncReadByteBlock.t) (got rest : list byte),
  AsyncReadByteBlock.block_ a = Some (got ++ rest) ->
  AsyncReadByteBlock.pos_ a = Z.of_nat (length got) ->
  AsyncReadByteBlock.pos_ a < AsyncReadByteBlock.size_ a ->
  AsyncReadByteBlock.size_ a <= Z.of_nat (length got) + Z.of_nat (length rest) ->
  AsyncReadByteBlock.size_ a < size_t_modulus ->
  forallb recv_progress ress = true ->
  AsyncReadByteBlock.pos_ a + transferred (map recv_r ress)
  <= AsyncReadByteBlock.size_ a ->
  let done :=
    AsyncReadByteBlock.pos_ a + transferred (map recv_r ress)
    =? AsyncReadByteBlock.size_ a in
  let filled :=
    got ++ stream ress
    ++ skipn (Z.to_nat (transferred (map recv_r ress))) rest in
  let '(a', ev, out) := run_read_block ress a in
  ev = (if done
        then match AsyncReadByteBlock.callback_ a with
             | Some cb =>
                 [ReadBlockDone (cb_id cb) (AsyncReadByteBlock.conn_ a)
                    (Some filled)]
             | None => []
             end
        else [])
  /\ out = Return (negb done)
  /\ (done = false ->
      AsyncReadByteBlock.IsDone a' = false
      /\ AsyncReadByteBlock.block_ a' = Some filled).
Proof.
  induction ress as [|res ress IH];
    intros a got rest Hblk Hcur Hlt Hcap Hmax Hok Hsum.
  - cbn [run_read_block map transferred stream] in *.
    rewrite Z.add_0_r in *.
    replace (AsyncReadByteBlock.pos_ a =? AsyncReadByteBlock.size_ a)
      with false by (symmetry; apply Z.eqb_neq; lia).
    split; [reflexivity|]. split; [reflexivity|]. intros _. split.
    + unfold AsyncReadByteBlock.IsDone. rewrite Hblk.
      apply Z.eqb_neq. lia.
    + rewrite Hblk. reflexivity.
  - cbn [forallb] in Hok. apply andb_prop in Hok. destruct Hok as [Hres Hok].
    cbn [map transferred stream] in *.
    pose proof (transferred_nonneg (map recv_r ress)) as Hnn.
    cbn [run_read_block].
    destruct (recv_progress_cases res Hres)
      as [[Hpos [Hlen Hrecv]]|[Hneg Htrans]].
    + rewrite Z.max_r in * by lia.
      rewrite (proj2 (Z.ltb_lt _ _) Hpos).
      unfold AsyncReadByteBlock.call. rewrite Hblk.
      rewrite (proj2 (Z.leb_gt _ _) Hpos).
      cbn [AsyncReadByteBlock.size_ AsyncReadByteBlock.pos_].
      rewrite Hrecv, Hcur, Nat2Z.id, store_at_end, store_at_start by lia.
      rewrite (wrap_small (Z.of_nat (length got) + recv_r res))
        by (unfold is_size_t; lia).
      destruct (Z.eqb_spec (Z.of_nat (length got) + recv_r res)
                  (AsyncReadByteBlock.size_ a)) as [Hfin|Hmore].
      * assert (Hz : transferred (map recv_r ress) = 0) by lia.
        rewrite Hz, Z.add_0_r, (stream_nothing ress Hok Hz), app_nil_r.
        replace (Z.of_nat (length got) + recv_r res
                 =? AsyncReadByteBlock.size_ a) with true
          by (symmetry; apply Z.eqb_eq; lia).
        unfold AsyncReadByteBlock.DoCallback.
        cbn [AsyncReadByteBlock.callback_ AsyncReadByteBlock.conn_
             AsyncReadByteBlock.block_].
        rewrite <- Hlen, Nat2Z.id.
        destruct (AsyncReadByteBlock.callback_ a) as [cb|];
          (split; [reflexivity|]); (split; [reflexivity|]); discriminate.
      * set (a1 := AsyncReadByteBlock.mk _ _ _ _ _).
        specialize (IH a1 (got ++ recv_data res)
                      (skipn (length (recv_data res)) rest)).
        cbn [AsyncReadByteBlock.size_ AsyncReadByteBlock.pos_
             AsyncReadByteBlock.block_ AsyncReadByteBlock.callback_
             AsyncReadByteBlock.conn_ a1] in IH.
        rewrite <- app_assoc in IH. specialize (IH eq_refl).
        rewrite length_app, length_skipn in IH.
        specialize (IH ltac:(lia) ltac:(lia) ltac:(lia) Hmax Hok ltac:(lia)).
        destruct (run_read_block ress a1) as [[a2 ev2] out2].
        rewrite Z.add_assoc in *.
        replace (Z.of_nat (length got + length (recv_data res)))
          with (Z.of_nat (length got) + recv_r res) in IH by lia.
        assert (Hskip :
          skipn (Z.to_nat (transferred (map recv_r ress)))
            (skipn (length (recv_data res)) rest)
          = skipn (Z.to_nat (recv_r res + transferred (map recv_r ress))) rest).
        { rewrite skipn_skipn. f_equal. lia. }
        rewrite Hskip, <- !app_assoc in IH.
        destruct IH as [E1 [E2 E3]]. cbn [app].
        rewrite <- !app_assoc.
        split; [exact E1|]. split; [exact E2|exact E3].
    + rewrite Z.max_l in * by lia. rewrite Z.add_0_l in *.
      replace (0 <? recv_r res) with false by (symmetry; apply Z.ltb_ge; lia).
      unfold AsyncReadByteBlock.call at 1. rewrite Hblk.
      rewrite (proj2 (Z.leb_le _ _) Hneg), Htrans. cbn [app].
      specialize (IH a got rest Hblk Hcur Hlt Hcap Hmax Hok Hsum).
      destruct (run_read_block ress a) as [[a2 ev2] out2].
      exact IH.
Qed.
(** A block write in progress, over a well-behaved connection that
    takes [transferred] bytes in all, no more than what is left. *)
Lemma run_write_block_progress (ress : list SendResult) :
  forall a : AsyncWriteBlock.t,
  0 <= AsyncWriteBlock.size_ a < Buffer_size (AsyncWriteBlock.block_ a) ->
  Buffer_size (AsyncWriteBlock.block_ a) < size_t_modulus ->
  forallb send_progress ress = true ->
  AsyncWriteBlock.size_ a + transferred (map send_r ress)
  <= Buffer_size (AsyncWriteBlock.block_ a) ->
  let done :=
    AsyncWriteBlock.size_ a + transferred (map send_r ress)
    =? Buffer_size (AsyncWriteBlock.block_ a) in
  let '(a', ev, out) := run_write_block ress a in
  ev = (if done
        then fire_write (AsyncWriteBlock.callback_ a) (AsyncWriteBlock.conn_ a)
        else [])
  /\ out = Return (negb done)
  /\ AsyncWriteBlock.IsDone a' = done
  /\ AsyncWriteBlock.size_ a'
     = AsyncWriteBlock.size_ a + transferred (map send_r ress)
  /\ wire_write_block ress a
     = taken (AsyncWriteBlock.block_ a) (AsyncWriteBlock.size_ a)
         (transferred (map send_r ress)).
Proof.
  induction ress as [|res ress IH]; intros a Hcur Hmax Hok Hsum.
  - cbn in *. rewrite Z.add_0_r.
    replace (AsyncWriteBlock.size_ a =? _) with false
      by (symmetry; apply Z.eqb_neq; lia).
    unfold AsyncWriteBlock.IsDone.
    replace (AsyncWriteBlock.size_ a =? _) with false
      by (symmetry; apply Z.eqb_neq; lia).
    repeat split.
  - cbn [forallb] in Hok. apply andb_prop in Hok. destruct Hok as [Hres Hok].
    cbn [map transferred] in *.
    pose proof (transferred_nonneg (map send_r ress)) as Hnn.
    cbn [run_write_block wire_write_block].
    destruct (send_progress_cases res Hres) as [Hpos|[Hneg Htrans]].
    + (* progress *)
      rewrite Z.max_r in * by lia.
      unfold AsyncWriteBlock.call.
      rewrite (proj2 (Z.leb_gt _ _) Hpos), (proj2 (Z.ltb_lt _ _) Hpos).
      cbn [AsyncWriteBlock.size_ AsyncWriteBlock.block_].
      rewrite (wrap_small (AsyncWriteBlock.size_ a + send_r res))
        by (unfold is_size_t; lia).
      destruct (Z.eqb_spec (AsyncWriteBlock.size_ a + send_r res)
                  (Buffer_size (AsyncWriteBlock.block_ a))) as [Hfin|Hmore].
      * (* the last byte *)
        assert (Hz : transferred (map send_r ress) = 0) by lia.
        rewrite Hz, Z.add_0_r.
        unfold AsyncWriteBlock.DoCallback, AsyncWriteBlock.IsDone.
        cbn [AsyncWriteBlock.size_ AsyncWriteBlock.block_
             AsyncWriteBlock.callback_ AsyncWriteBlock.conn_].
        rewrite (proj2 (Z.eqb_eq _ _) Hfin). now repeat split.
      * set (a1 := AsyncWriteBlock.mk _ _ _ _).
        specialize (IH a1). cbn [AsyncWriteBlock.size_ AsyncWriteBlock.block_
                                 AsyncWriteBlock.callback_ AsyncWriteBlock.conn_
                                 a1] in IH.
        subst a1.
        specialize (IH ltac:(lia) Hmax Hok ltac:(lia)).
        destruct (run_write_block ress _) as [[a2 ev2] out2].
        rewrite Z.add_assoc in *.
        destruct IH as [E1 [E2 [E3 [E4 E5]]]].
        cbn [app]. repeat split; try assumption.
        rewrite E5. unfold taken.
        rewrite (Z2Nat.inj_add (send_r res)) by lia.
        rewrite firstn_add. f_equal.
        rewrite skipn_skipn_add.
        rewrite <- Z2Nat.inj_add by lia. reflexivity.
    + (* transient failure: nothing changes *)
      rewrite Z.max_l in * by lia. rewrite Z.add_0_l in *.
      unfold AsyncWriteBlock.call at 1 2.
      rewrite (proj2 (Z.leb_le _ _) Hneg), Htrans.
      replace (0 <? send_r res) with false
        by (symmetry; apply Z.ltb_ge; lia).
      specialize (IH a Hcur Hmax Hok Hsum).
      destruct (run_write_block ress a) as [[a2 ev2] out2].
      exact IH.
Qed.

(** C6, as the code has it.  [AsyncWrite(c, buffer, done_cb)] with an
    empty buffer enqueues nothing and registers nothing: it only invokes
    [done_cb], synchronously, if one was given.  With a non-empty buffer
    it appends one write record owning the buffer (cursor 0) to
    [async_write_], registers write-readiness with the backend by one
    [AddWrite], and invokes no callback; [HasAsyncWrites()] then holds.
    No other queue changes in either case.  The record writes the entire
    buffer: over a connection that makes progress or fails transiently,
    its handler stays registered, and hands the bytes of the buffer to
    [SendOne] in order, without gap or repetition, until the last byte
    has been taken; then, and not before, it invokes [done_cb] and asks
    to be deregistered. *)
Theorem AsyncWrite_enqueues_nonempty
    (c : Connection) (buffer : Buffer) (done_cb : Delegate) (d : Dispatcher.t) :
  let d' := Dispatcher.AsyncWrite c buffer done_cb d in
  let a := AsyncWriteBuffer.mk c buffer 0 done_cb in
  (Buffer_size buffer = 0 ->
     Dispatcher.async_write_ d' = Dispatcher.async_write_ d
     /\ Dispatcher.effects d' = Dispatcher.effects d ++ fire_write done_cb c
     /\ Dispatcher.HasAsyncWrites d' = Dispatcher.HasAsyncWrites d)
  /\ (Buffer_size buffer <> 0 ->
     Dispatcher.async_write_ d' = Dispatcher.async_write_ d ++ [a]
     /\ Dispatcher.effects d'
        = Dispatcher.effects d ++ [AddWrite c HWriteBuffer]
     /\ Dispatcher.HasAsyncWrites d' = true)
  /\ Dispatcher.async_read_ d' = Dispatcher.async_read_ d
  /\ Dispatcher.async_read_block_ d' = Dispatcher.async_read_block_ d
  /\ Dispatcher.async_write_block_ d' = Dispatcher.async_write_block_ d
  /\ Dispatcher.timer_pq_ d' = Dispatcher.timer_pq_ d
  /\ (forall ress : list SendResult,
        Buffer_size buffer <> 0 ->
        Buffer_size buffer < size_t_modulus ->
        forallb send_progress ress = true ->
        transferred (map send_r ress) <= Buffer_size buffer ->
        let done := transferred (map send_r ress) =? Buffer_size buffer in
        wire_write_buffer ress a
        = firstn (Z.to_nat (transferred (map send_r ress))) buffer
        /\ (done = true -> wire_write_buffer ress a = buffer)
        /\ snd (fst (run_write_buffer ress a))
           = (if done then fire_write done_cb c else [])
        /\ snd (run_write_buffer ress a) = Return (negb done)
        /\ AsyncWriteBuffer.IsDone (fst (fst (run_write_buffer ress a)))
           = done).
Proof.
  intros d' a.
  assert (Hqueue :
    (Buffer_size buffer = 0 ->
       Dispatcher.async_write_ d' = Dispatcher.async_write_ d
       /\ Dispatcher.effects d' = Dispatcher.effects d ++ fire_write done_cb c
       /\ Dispatcher.HasAsyncWrites d' = Dispatcher.HasAsyncWrites d)
    /\ (Buffer_size buffer <> 0 ->
       Dispatcher.async_write_ d' = Dispatcher.async_write_ d ++ [a]
       /\ Dispatcher.effects d'
          = Dispatcher.effects d ++ [AddWrite c HWriteBuffer]
       /\ Dispatcher.HasAsyncWrites d' = true)
    /\ Dispatcher.async_read_ d' = Dispatcher.async_read_ d
    /\ Dispatcher.async_read_block_ d' = Dispatcher.async_read_block_ d
    /\ Dispatcher.async_write_block_ d' = Dispatcher.async_write_block_ d
    /\ Dispatcher.timer_pq_ d' = Dispatcher.timer_pq_ d).
  { subst d' a. unfold Dispatcher.AsyncWrite.
    destruct (Buffer_size buffer =? 0) eqn:Hsz.
    - apply Z.eqb_eq in Hsz. split; [|split].
      + intros _. repeat split.
      + intros Hne. contradiction.
      + repeat split.
    - apply Z.eqb_neq in Hsz. split; [|split].
      + intros Hz. contradiction.
      + intros _. cbn. repeat split.
        unfold Dispatcher.HasAsyncWrites. cbn.
        rewrite length_app. cbn.
        replace (length (Dispatcher.async_write_ d) + 1 =? 0)%nat with false;
          [reflexivity|].
        symmetry. apply Nat.eqb_neq. lia.
      + repeat split. }
  destruct Hqueue as [H0 [H1 [H2 [H3 [H4 H5]]]]].
  split; [exact H0|]. split; [exact H1|]. split; [exact H2|].
  split; [exact H3|]. split; [exact H4|]. split; [exact H5|].
  intros ress Hne Hmax Hok Hsum done.
  assert (Hpos : 0 < Buffer_size buffer) by (unfold Buffer_size in *; lia).
  pose proof (run_write_buffer_progress ress a) as H.
  subst a.
  cbn [AsyncWriteBuffer.size_ AsyncWriteBuffer.buffer_
       AsyncWriteBuffer.callback_ AsyncWriteBuffer.conn_] in H.
  rewrite Z.add_0_l in H.
  specialize (H ltac:(lia) Hmax Hok Hsum). fold done in H.
  destruct (run_write_buffer ress _) as [[a1 ev1] out1].
  destruct H as [A1 [A2 [A3 [_ A5]]]]. cbn [fst snd].
  assert (Hwire : wire_write_buffer ress (AsyncWriteBuffer.mk c buffer 0 done_cb)
                  = firstn (Z.to_nat (transferred (map send_r ress))) buffer)
    by exact A5.
  split; [exact Hwire|]. split; [|split; [exact A1|split; [exact A2|exact A3]]].
  intros Hdone. rewrite Hwire. subst done. apply Z.eqb_eq in Hdone.
  rewrite Hdone. apply firstn_all2. unfold Buffer_size. lia.
Qed.

Lemma AsyncWrite_enqueues_nonempty_witness :
  let d' := Dispatcher.AsyncWrite 4%nat [x68; x69] None Dispatcher.init in
  let ress := [mkSend 1 0; mkSend (-1) EAGAIN; mkSend 1 0] in
  (Dispatcher.async_write_ d' = [AsyncWriteBuffer.mk 4%nat [x68; x69] 0 None]
   /\ Dispatcher.effects d' = [AddWrite 4%nat HWriteBuffer]
   /\ Dispatcher.HasAsyncWrites d' = true)
  /\ wire_write_buffer ress (AsyncWriteBuffer.mk 4%nat [x68; x69] 0 None)
     = [x68; x69]
  /\ snd (run_write_buffer ress (AsyncWriteBuffer.mk 4%nat [x68; x69] 0 None))
     = Return false.
Proof.
  intros d' ress.
  pose proof (AsyncWrite_enqueues_nonempty 4%nat [x68; x69] None
                Dispatcher.init) as H.
  cbv zeta in H.
  destruct H as [_ [Hq [_ [_ [_ [_ Hw]]]]]].
  split; [apply Hq; discriminate|].
  specialize (Hw ress ltac:(discriminate)
                ltac:(unfold size_t_modulus; cbn; lia) eq_refl
                ltac:(cbn; lia)).
  destruct Hw as [_ [Hall [_ [Hout _]]]].
  split; [apply Hall; reflexivity|exact Hout].
Defined.

(** Over a connection that makes progress or fails transiently and takes
    no more than the payload in all, a buffer write and a block write
    invoke their callback exactly when the last byte has been taken and
    not before: until then the handler stays registered, [IsDone()] is
    false and nothing is reported; at the last byte the callback is
    invoked once, the handler deregisters and [IsDone()] holds.  The
    bytes handed to the connection are, in order and without gap or
    repetition, the bytes of the payload. *)
Theorem write_completes_at_the_last_byte
    (c : Connection) (payload : list byte) (cb : Delegate)
    (ress : list SendResult) :
  0 < Buffer_size payload < size_t_modulus ->
  forallb send_progress ress = true ->
  transferred (map send_r ress) <= Buffer_size payload ->
  let done := transferred (map send_r ress) =? Buffer_size payload in
  let sent := firstn (Z.to_nat (transferred (map send_r ress))) payload in
  let buffer_write := run_write_buffer ress (AsyncWriteBuffer.ctor c payload cb) in
  let block_write := run_write_block ress (AsyncWriteBlock.ctor c payload cb) in
  (snd (fst buffer_write) = (if done then fire_write cb c else [])
   /\ snd buffer_write = Return (negb done)
   /\ AsyncWriteBuffer.IsDone (fst (fst buffer_write)) = done
   /\ wire_write_buffer ress (AsyncWriteBuffer.ctor c payload cb) = sent)
  /\ (snd (fst block_write) = (if done then fire_write cb c else [])
      /\ snd block_write = Return (negb done)
      /\ AsyncWriteBlock.IsDone (fst (fst block_write)) = done
      /\ wire_write_block ress (AsyncWriteBlock.ctor c payload cb) = sent).
Proof.
  intros Hsize Hok Hsum done sent buffer_write block_write.
  subst buffer_write block_write.
  pose proof (run_write_buffer_progress ress
                (AsyncWriteBuffer.ctor c payload cb)) as H1.
  pose proof (run_write_block_progress ress
                (AsyncWriteBlock.ctor c payload cb)) as H2.
  cbn [AsyncWriteBuffer.ctor AsyncWriteBuffer.size_ AsyncWriteBuffer.buffer_
       AsyncWriteBuffer.callback_ AsyncWriteBuffer.conn_] in H1.
  cbn [AsyncWriteBlock.ctor AsyncWriteBlock.size_ AsyncWriteBlock.block_
       AsyncWriteBlock.callback_ AsyncWriteBlock.conn_] in H2.
  rewrite Z.add_0_l in H1, H2.
  specialize (H1 ltac:(lia) ltac:(lia) Hok Hsum).
  specialize (H2 ltac:(lia) ltac:(lia) Hok Hsum).
  fold done in H1, H2.
  destruct (run_write_buffer ress _) as [[a1 ev1] out1].
  destruct (run_write_block ress _) as [[a2 ev2] out2].
  destruct H1 as [A1 [A2 [A3 [_ A5]]]].
  destruct H2 as [B1 [B2 [B3 [_ B5]]]].
  cbn [fst snd]. repeat split; assumption.
Qed.

Lemma write_completes_at_the_last_byte_witness :
  let ress := [mkSend 2 0; mkSend (-1) EAGAIN; mkSend 1 0] in
  let a := AsyncWriteBuffer.ctor 3%nat [x61; x62; x63] (Some (mkCallback 1 false)) in
  snd (fst (run_write_buffer ress a)) = [WriteDone 1 3%nat]
  /\ snd (run_write_buffer ress a) = Return false
  /\ AsyncWriteBuffer.IsDone (fst (fst (run_write_buffer ress a))) = true
  /\ wire_write_buffer ress a = [x61; x62; x63].
Proof.
  refine (proj1 (write_completes_at_the_last_byte 3%nat [x61; x62; x63]
                   (Some (mkCallback 1 false))
                   [mkSend 2 0; mkSend (-1) EAGAIN; mkSend 1 0] _ _ _)).
  - cbn. unfold size_t_modulus. lia.
  - reflexivity.
  - cbn. lia.
Defined.

(** [AsyncWriteCopy(c, str, done_cb)] with a non-empty string queues one
    buffer write and registers it; over a connection that takes the
    whole string, possibly in pieces, the bytes handed to the connection
    are the bytes of the string and the callback is invoked once. *)
Theorem AsyncWriteCopy_sends_the_string
    (c : Connection) (str : list byte) (cb : Delegate) (d : Dispatcher.t)
    (ress : list SendResult) :
  0 < Buffer_size str < size_t_modulus ->
  forallb send_progress ress = true ->
  transferred (map send_r ress) = Buffer_size str ->
  exists a,
    Dispatcher.async_write_ (AsyncWriteCopy_string c str cb d)
    = Dispatcher.async_write_ d ++ [a]
    /\ Dispatcher.effects (AsyncWriteCopy_string c str cb d)
       = Dispatcher.effects d ++ [AddWrite c HWriteBuffer]
    /\ wire_write_buffer ress a = str
    /\ snd (fst (run_write_buffer ress a)) = fire_write cb c
    /\ snd (run_write_buffer ress a) = Return false.
Proof.
  intros Hsize Hok Hsum.
  unfold AsyncWriteCopy_string, AsyncWriteCopy, Dispatcher.AsyncWrite,
    Buffer_copy.
  assert (Hcopy : firstn (Z.to_nat (Buffer_size str)) str = str).
  { apply firstn_all2. unfold Buffer_size. lia. }
  rewrite Hcopy.
  replace (Buffer_size str =? 0) with false
    by (symmetry; apply Z.eqb_neq; lia).
  exists (AsyncWriteBuffer.ctor c str cb).
  split; [reflexivity|]. split; [reflexivity|].
  pose proof (run_write_buffer_progress ress
                (AsyncWriteBuffer.ctor c str cb)) as H.
  cbn [AsyncWriteBuffer.ctor AsyncWriteBuffer.size_ AsyncWriteBuffer.buffer_
       AsyncWriteBuffer.callback_ AsyncWriteBuffer.conn_] in H.
  rewrite Z.add_0_l in H.
  specialize (H ltac:(lia) ltac:(lia) Hok ltac:(lia)).
  rewrite Hsum, Z.eqb_refl in H.
  destruct (run_write_buffer ress _) as [[a1 ev1] out1].
  destruct H as [A1 [A2 [_ [_ A5]]]]. cbn [fst snd].
  split; [|split; assumption].
  rewrite A5. unfold taken. cbn [skipn Z.to_nat]. exact Hcopy.
Qed.

Lemma AsyncWriteCopy_sends_the_string_witness :
  exists a,
    Dispatcher.async_write_
      (AsyncWriteCopy_string 3%nat [x68; x69] None Dispatcher.init) = [] ++ [a]
    /\ Dispatcher.effects
         (AsyncWriteCopy_string 3%nat [x68; x69] None Dispatcher.init)
       = [] ++ [AddWrite 3%nat HWriteBuffer]
    /\ wire_write_buffer [mkSend 1 0; mkSend 1 0] a = [x68; x69]
    /\ snd (fst (run_write_buffer [mkSend 1 0; mkSend 1 0] a)) = []
    /\ snd (run_write_buffer [mkSend 1 0; mkSend 1 0] a) = Return false.
Proof.
  apply (AsyncWriteCopy_sends_the_string 3%nat [x68; x69] None Dispatcher.init
           [mkSend 1 0; mkSend 1 0]).
  - cbn. unfold size_t_modulus. lia.
  - reflexivity.
  - reflexivity.
Defined.

Lemma read_buffer_run_app (ress more : list RecvResult) :
  forall (a a1 : AsyncReadBuffer.t) (ev1 : list Effect),
  AsyncReadBuffer.run ress a = (a1, ev1, Return true) ->
  AsyncReadBuffer.run (ress ++ more) a
  = (let '(a2, ev2, out) := AsyncReadBuffer.run more a1 in
     (a2, ev1 ++ ev2, out)).
Proof.
  induction ress as [|res ress IH]; intros a a1 ev1.
  - cbn [AsyncReadBuffer.run app]. intros [= <- <-].
    now destruct (AsyncReadBuffer.run more a) as [[a2 ev2] out].
  - cbn [AsyncReadBuffer.run app].
    destruct (AsyncReadBuffer.call res a) as [[a' ev'] [[|]|e|]];
      try discriminate.
    destruct (AsyncReadBuffer.run ress a') as [[a'' ev''] out''] eqn:Hrun.
    intros [= <- <- ->].
    rewrite (IH a' a'' ev'' Hrun).
    destruct (AsyncReadBuffer.run more a'') as [[a2 ev2] out].
    now rewrite app_assoc.
Qed.

(** A handler that stays registered keeps its connection and its
    callback. *)
Lemma read_buffer_run_keeps (ress : list RecvResult) :
  forall (a a1 : AsyncReadBuffer.t) (ev1 : list Effect),
  AsyncReadBuffer.run ress a = (a1, ev1, Return true) ->
  AsyncReadBuffer.callback_ a1 = AsyncReadBuffer.callback_ a
  /\ AsyncReadBuffer.conn_ a1 = AsyncReadBuffer.conn_ a.
Proof.
  induction ress as [|res ress IH]; intros a a1 ev1.
  - cbn [AsyncReadBuffer.run]. intros [= <- _]. now split.
  - cbn [AsyncReadBuffer.run].
    destruct (AsyncReadBuffer.call res a) as [[a' ev'] out'] eqn:Hcall.
    assert (Hkeep : out' = Return true ->
                    AsyncReadBuffer.callback_ a' = AsyncReadBuffer.callback_ a
                    /\ AsyncReadBuffer.conn_ a' = AsyncReadBuffer.conn_ a).
    { revert Hcall. unfold AsyncReadBuffer.call, AsyncReadBuffer.DoCallback.
      destruct (recv_r res <=? 0).
      - destruct ((recv_errno res =? EINTR) || (recv_errno res =? EAGAIN)).
        + intros [= <- _ _] _. now split.
        + destruct ((recv_errno res =? 0) || (recv_errno res =? EPIPE)
                    || (recv_errno res =? ECONNRESET));
            intros [= _ _ <-]; discriminate.
      - cbn [AsyncReadBuffer.size_ AsyncReadBuffer.buffer_
             AsyncReadBuffer.callback_ AsyncReadBuffer.conn_].
        destruct (wrap (AsyncReadBuffer.size_ a + recv_r res) =? _).
        + destruct (AsyncReadBuffer.callback_ a);
            intros [= _ _ <-]; discriminate.
        + intros [= <- _ _] _. now split. }
    destruct out' as [[|]|e|]; try discriminate.
    destruct (Hkeep eq_refl) as [Hcb Hconn].
    destruct (AsyncReadBuffer.run ress a') as [[a'' ev''] out''] eqn:Hrun.
    intros [= <- _ ->].
    destruct (IH a' a'' ev'' Hrun) as [Hcb' Hconn'].
    split; congruence.
Qed.

(** C7.  Over the whole life of a buffer read of [n > 0] bytes, whatever
    the connection returns, every buffer handed to the completion
    callback has size exactly [n] or size 0.  On success -- the
    connection delivers the [n] bytes, in any number of pieces -- the
    callback is invoked once, with a buffer of size exactly [n] that
    holds the received bytes.  When the peer closes the connection
    before that, the callback is invoked once with the empty buffer: the
    bytes read before the closure are not passed on.  And a call that
    finds the connection failed ([r <= 0]) never hands over anything but
    the empty buffer. *)
Theorem buffer_read_delivers_full_or_empty
    (c : Connection) (n : Z) (cb : Callback) (ress : list RecvResult) :
  0 < n ->
  let a := AsyncReadBuffer.ctor c n (Some cb) in
  Forall (fun e => exists buf,
            e = ReadDone (cb_id cb) c buf
            /\ (Buffer_size buf = n \/ Buffer_size buf = 0))
    (snd (fst (AsyncReadBuffer.run ress a)))
  /\ (n < size_t_modulus ->
      forallb recv_progress ress = true ->
      transferred (map recv_r ress) = n ->
      snd (fst (AsyncReadBuffer.run ress a))
      = [ReadDone (cb_id cb) c (stream ress)]
      /\ Buffer_size (stream ress) = n)
  /\ (forall closed : RecvResult,
      n < size_t_modulus ->
      forallb recv_progress ress = true ->
      transferred (map recv_r ress) < n ->
      recv_r closed <= 0 ->
      recv_errno closed = 0 \/ recv_errno closed = EPIPE
      \/ recv_errno closed = ECONNRESET ->
      snd (fst (AsyncReadBuffer.run (ress ++ [closed]) a))
      = [ReadDone (cb_id cb) c Buffer_empty])
  /\ (forall res a', recv_r res <= 0 ->
      Forall (fun e => exists id c', e = ReadDone id c' Buffer_empty)
        (snd (fst (AsyncReadBuffer.call res a')))).
Proof.
  intros Hn a.
  assert (Hlen : Z.of_nat (length (Buffer_alloc n)) = n)
    by (apply Buffer_alloc_size; lia).
  assert (Hne : Buffer_alloc n <> []).
  { intros E. rewrite E in Hlen. cbn in Hlen. lia. }
  assert (Hprogress :
    n < size_t_modulus ->
    forallb recv_progress ress = true ->
    transferred (map recv_r ress) <= n ->
    let done := transferred (map recv_r ress) =? n in
    let '(a', ev, out) := AsyncReadBuffer.run ress a in
    ev = (if done then [ReadDone (cb_id cb) c (stream ress)] else [])
    /\ out = Return (negb done)).
  { intros Hmax Hok Hsum.
    pose proof (run_read_buffer_progress ress a [] (Buffer_alloc n)) as H.
    subst a.
    cbn [AsyncReadBuffer.ctor AsyncReadBuffer.size_ AsyncReadBuffer.buffer_
         AsyncReadBuffer.callback_ AsyncReadBuffer.conn_ app length] in H.
    rewrite Hlen in H. specialize (H eq_refl eq_refl Hne).
    unfold Buffer_size in H. rewrite Hlen in H.
    specialize (H Hmax Hok Hsum). cbv zeta in *.
    destruct (AsyncReadBuffer.run ress _) as [[a1 ev1] out1].
    destruct H as [E1 [E2 _]]. now split. }
  split; [|split; [|split]].
  - destruct (AsyncReadBuffer.run ress a) as [[a' ev] out] eqn:Hrun.
    cbn [fst snd].
    apply read_buffer_run_payload with (n := n) (cb := cb) in Hrun.
    + destruct Hrun as [->|[buf [-> H]]]; [constructor|].
      constructor; [|constructor]. exists buf. split; [reflexivity|exact H].
    + apply Buffer_alloc_size. lia.
    + reflexivity.
  - intros Hmax Hok Hsum.
    specialize (Hprogress Hmax Hok ltac:(lia)). cbv zeta in Hprogress.
    rewrite Hsum, Z.eqb_refl in Hprogress.
    destruct (AsyncReadBuffer.run ress a) as [[a1 ev1] out1].
    cbn [fst snd]. split; [exact (proj1 Hprogress)|].
    unfold Buffer_size. now rewrite stream_length.
  - intros closed Hmax Hok Hsum Hr Herr.
    specialize (Hprogress Hmax Hok ltac:(lia)). cbv zeta in Hprogress.
    replace (transferred (map recv_r ress) =? n) with false in Hprogress
      by (symmetry; apply Z.eqb_neq; lia).
    destruct (AsyncReadBuffer.run ress a) as [[a1 ev1] out1] eqn:Hrun.
    destruct Hprogress as [-> ->]. cbn [negb] in Hrun.
    rewrite (read_buffer_run_app ress [closed] a a1 [] Hrun).
    destruct (read_buffer_run_keeps ress a a1 [] Hrun) as [Hcb Hconn].
    cbn [AsyncReadBuffer.run]. unfold AsyncReadBuffer.call.
    rewrite (proj2 (Z.leb_le _ 0) Hr).
    assert (Htrans : ((recv_errno closed =? EINTR)
                      || (recv_errno closed =? EAGAIN)) = false)
      by (destruct Herr as [->|[->| ->]]; reflexivity).
    assert (Hclose : ((recv_errno closed =? 0) || (recv_errno closed =? EPIPE)
                      || (recv_errno closed =? ECONNRESET)) = true)
      by (destruct Herr as [->|[->| ->]]; reflexivity).
    rewrite Htrans, Hclose.
    cbn [AsyncReadBuffer.callback_ AsyncReadBuffer.conn_ fst snd app].
    rewrite Hcb, Hconn. reflexivity.
  - intros res a' Hr. unfold AsyncReadBuffer.call.
    rewrite (proj2 (Z.leb_le _ 0) Hr).
    destruct ((recv_errno res =? EINTR) || (recv_errno res =? EAGAIN));
      [constructor|].
    destruct ((recv_errno res =? 0) || (recv_errno res =? EPIPE)
              || (recv_errno res =? ECONNRESET)); [|constructor].
    cbn. destruct (AsyncReadBuffer.callback_ a'); constructor; eauto.
Qed.

Lemma buffer_read_delivers_full_or_empty_witness :
  let a := AsyncReadBuffer.ctor 5%nat 3 (Some (mkCallback 1 true)) in
  snd (fst (AsyncReadBuffer.run
              [mkRecv 2 0 [x61; x62]; mkRecv 1 0 [x63]] a))
  = [ReadDone 1 5%nat [x61; x62; x63]]
  /\ snd (fst (AsyncReadBuffer.run
                 ([mkRecv 2 0 [x61; x62]] ++ [mkRecv 0 0 []]) a))
     = [ReadDone 1 5%nat Buffer_empty].
Proof.
  intros a. split.
  - pose proof (buffer_read_delivers_full_or_empty 5%nat 3 (mkCallback 1 true)
                  [mkRecv 2 0 [x61; x62]; mkRecv 1 0 [x63]] ltac:(lia)) as H.
    cbv zeta in H. destruct H as [_ [H _]].
    exact (proj1 (H ltac:(unfold size_t_modulus; lia) eq_refl eq_refl)).
  - pose proof (buffer_read_delivers_full_or_empty 5%nat 3 (mkCallback 1 true)
                  [mkRecv 2 0 [x61; x62]] ltac:(lia)) as H.
    cbv zeta in H. destruct H as [_ [_ [H _]]].
    apply (H (mkRecv 0 0 [])).
    + unfold size_t_modulus. lia.
    + reflexivity.
    + cbn. lia.
    + cbn. lia.
    + left. reflexivity.
Defined.

(** Over a connection that makes progress or fails transiently and
    delivers no more than [n] bytes in all, a buffer read of [n] bytes
    invokes its callback exactly when the [n]-th byte has arrived, with a
    buffer holding the received bytes in the order of their arrival;
    until then the handler stays registered, [IsDone()] is false and
    nothing is reported. *)
Theorem buffer_read_delivers_the_stream
    (c : Connection) (n : Z) (cb : Callback) (ress : list RecvResult) :
  0 < n < size_t_modulus ->
  forallb recv_progress ress = true ->
  transferred (map recv_r ress) <= n ->
  let done := transferred (map recv_r ress) =? n in
  let read := AsyncReadBuffer.run ress (AsyncReadBuffer.ctor c n (Some cb)) in
  snd (fst read)
  = (if done then [ReadDone (cb_id cb) c (stream ress)] else [])
  /\ snd read = Return (negb done)
  /\ (done = false -> AsyncReadBuffer.IsDone (fst (fst read)) = false).
Proof.
  intros Hn Hok Hsum done read. subst read.
  pose proof (run_read_buffer_progress ress
                (AsyncReadBuffer.ctor c n (Some cb)) [] (Buffer_alloc n)) as H.
  cbn [AsyncReadBuffer.ctor AsyncReadBuffer.size_ AsyncReadBuffer.buffer_
       AsyncReadBuffer.callback_ AsyncReadBuffer.conn_ app length] in H.
  assert (Hlen : Z.of_nat (length (Buffer_alloc n)) = n).
  { apply Buffer_alloc_size. lia. }
  rewrite Hlen in H.
  assert (Hne : Buffer_alloc n <> []).
  { intros E. rewrite E in Hlen. cbn in Hlen. lia. }
  specialize (H eq_refl eq_refl Hne).
  unfold Buffer_size in H. rewrite Hlen in H.
  specialize (H ltac:(lia) Hok Hsum). fold done in H.
  destruct (AsyncReadBuffer.run ress _) as [[a1 ev1] out1].
  destruct H as [E1 [E2 E3]]. cbn [fst snd].
  split; [exact E1|]. split; [exact E2|].
  intros Hd. exact (proj1 (E3 Hd)).
Qed.

Lemma buffer_read_delivers_the_stream_witness :
  let ress := [mkRecv 2 0 [x68; x69]; mkRecv (-1) EINTR []; mkRecv 1 0 [x21]] in
  let read := AsyncReadBuffer.run ress
                (AsyncReadBuffer.ctor 5%nat 3 (Some (mkCallback 1 false))) in
  snd (fst read) = [ReadDone 1 5%nat [x68; x69; x21]]
  /\ snd read = Return false.
Proof.
  pose proof (buffer_read_delivers_the_stream 5%nat 3 (mkCallback 1 false)
                [mkRecv 2 0 [x68; x69]; mkRecv (-1) EINTR []; mkRecv 1 0 [x21]])
    as H.
  specialize (H ltac:(unfold size_t_modulus; lia) eq_refl ltac:(cbn; lia)).
  cbv zeta in *. split; [exact (proj1 H)|exact (proj1 (proj2 H))].
Defined.

(** Over a connection that makes progress or fails transiently and
    delivers no more than [n] bytes in all, a block read of [n] bytes
    into a block of at least [n] bytes invokes its callback exactly when
    the [n]-th byte has arrived; the block it hands over starts with the
    received bytes in the order of their arrival and keeps its own bytes
    from position [n] on. *)
Theorem block_read_fills_the_block
    (c : Connection) (n : Z) (blk : ByteBlock) (cb : Callback)
    (ress : list RecvResult) :
  0 < n <= Buffer_size blk -> n < size_t_modulus ->
  forallb recv_progress ress = true ->
  transferred (map recv_r ress) <= n ->
  let done := transferred (map recv_r ress) =? n in
  let read :=
    run_read_block ress (AsyncReadByteBlock.ctor c n (Some blk) (Some cb)) in
  snd (fst read)
  = (if done
     then [ReadBlockDone (cb_id cb) c
             (Some (stream ress ++ skipn (Z.to_nat n) blk))]
     else [])
  /\ snd read = Return (negb done)
  /\ (done = false -> AsyncReadByteBlock.IsDone (fst (fst read)) = false).
Proof.
  intros Hn Hmax Hok Hsum done read. subst read.
  pose proof (run_read_block_progress ress
                (AsyncReadByteBlock.ctor c n (Some blk) (Some cb)) [] blk) as H.
  cbn [AsyncReadByteBlock.ctor AsyncReadByteBlock.size_ AsyncReadByteBlock.pos_
       AsyncReadByteBlock.block_ AsyncReadByteBlock.callback_
       AsyncReadByteBlock.conn_ app length] in H.
  unfold Buffer_size in Hn.
  specialize (H eq_refl eq_refl ltac:(lia) ltac:(lia) Hmax Hok ltac:(lia)).
  rewrite Z.add_0_l in H. fold done in H.
  destruct (run_read_block ress _) as [[a1 ev1] out1].
  destruct H as [E1 [E2 E3]]. cbn [fst snd].
  split; [|split; [exact E2|]].
  - rewrite E1. subst done.
    destruct (Z.eqb_spec (transferred (map recv_r ress)) n) as [->|];
      reflexivity.
  - intros Hd. exact (proj1 (E3 Hd)).
Qed.

Lemma block_read_fills_the_block_witness :
  let ress := [mkRecv 1 0 [x68]; mkRecv 1 0 [x69]] in
  let read := run_read_block ress
                (AsyncReadByteBlock.ctor 5%nat 2 (Some [x00; x00; x2e])
                   (Some (mkCallback 1 true))) in
  snd (fst read) = [ReadBlockDone 1 5%nat (Some [x68; x69; x2e])]
  /\ snd read = Return false.
Proof.
  pose proof (block_read_fills_the_block 5%nat 2 [x00; x00; x2e]
                (mkCallback 1 true) [mkRecv 1 0 [x68]; mkRecv 1 0 [x69]])
    as H.
  specialize (H ltac:(cbn; lia) ltac:(unfold size_t_modulus; lia)
                eq_refl ltac:(cbn; lia)).
  cbv zeta in *. split; [exact (proj1 H)|exact (proj1 (proj2 H))].
Defined.

(* ================================================================== *)
(** * Further properties of [Dispatch()] and [Loop()] *)

(** No timer fires early: every timer callback invoked by a
    [Dispatch()] that started at [now] is fired for an entry whose
    [next_timeout] is not after [now]. *)
Theorem timers_never_fire_early
    (now : Z) (runs : list TimerRun) (io : list Ready) (d : Dispatcher.t) :
  Forall (fun e => e <= now)
    (expiries (since d (fst (Dispatcher.Dispatch now runs io d)))).
Proof.
  assert (Hdrain :
    exists tf,
      Dispatcher.effects (fst (Dispatcher.drain_timers now runs d))
      = Dispatcher.effects d ++ tf
      /\ Forall (fun e => e <= now) (expiries tf)).
  { revert runs d.
    apply (drain_timers_ind now
             (fun d d' => exists tf,
                Dispatcher.effects d' = Dispatcher.effects d ++ tf
                /\ Forall (fun e => e <= now) (expiries tf))).
    - intros d. exists []. rewrite app_nil_r. split; [reflexivity|constructor].
    - intros d top rest run d' _ _ Hdue [tf [E F]].
      exists (TimerFired (cb top) (next_timeout top) (returns run) :: tf).
      split.
      + rewrite E, fire_top_effects. now rewrite <- app_assoc.
      + cbn [expiries]. now constructor. }
  destruct Hdrain as [tf [Etf Ftf]].
  destruct (Dispatch_after_drain now runs io d) as [_ [ev [E C]]].
  rewrite Etf, <- app_assoc in E.
  rewrite (since_app _ _ _ E), !expiries_app.
  destruct (completions_observed 0 ev C) as [_ [-> _]].
  rewrite app_nil_r.
  match goal with
  | |- context [if ?b then _ else _] => destruct b
  end; cbn [expiries]; now rewrite app_nil_r.
Qed.

Lemma Dispatch_terminated (now : Z) (runs : list TimerRun) (io : list Ready)
    (d : Dispatcher.t) :
  Dispatcher.terminate_ d = true ->
  Dispatcher.Dispatch now runs io d = (d, Returned).
Proof.
  intros Ht. unfold Dispatcher.Dispatch.
  assert (Hdrain : Dispatcher.drain_timers now runs d = (d, true)).
  { destruct runs; cbn [Dispatcher.drain_timers];
      destruct (Dispatcher.timer_pq_ d); rewrite ?Ht; reflexivity. }
  rewrite Hdrain. cbn [negb]. now rewrite Ht.
Qed.

Lemma step_keeps_terminated (d : Dispatcher.t) (op : Op) :
  Dispatcher.terminate_ d = true ->
  Dispatcher.terminate_ (step d op) = true.
Proof.
  intros Ht. destruct op; cbn [step]; try exact Ht; try reflexivity.
  - unfold Dispatcher.AsyncRead. now destruct (n =? 0).
  - unfold Dispatcher.AsyncRead_block. now destruct (Buffer_size block =? 0).
  - unfold Dispatcher.AsyncWrite. now destruct (Buffer_size buffer =? 0).
  - unfold Dispatcher.AsyncWrite_block. now destruct (Buffer_size block =? 0).
  - now rewrite Dispatch_terminated.
Qed.

(** Once [Terminate()] has been called the dispatcher stays terminated
    whatever is done with it, and from then on [Dispatch()] does nothing
    at all -- no timer fires, the backend is not waited on, no record is
    reaped -- and [Loop()] returns at once. *)
Theorem terminated_dispatcher_is_inert
    (d : Dispatcher.t) (ops : list Op) (now : Z) (runs : list TimerRun)
    (io : list Ready) (iters : list Iteration) :
  let d' := exec ops (Dispatcher.Terminate d) in
  Dispatcher.terminate_ d' = true
  /\ Dispatcher.Dispatch now runs io d' = (d', Returned)
  /\ Loop iters d' = (d', LoopReturned).
Proof.
  intros d'.
  assert (Ht : Dispatcher.terminate_ d' = true).
  { subst d'. induction ops as [|op ops IH] using rev_ind; [reflexivity|].
    rewrite exec_snoc. now apply step_keeps_terminated. }
  split; [exact Ht|]. split; [now apply Dispatch_terminated|].
  destruct iters; cbn [Loop]; now rewrite Ht.
Qed.

(** A timer callback that calls [Terminate()] ends [Dispatch()] right
    after that callback: no further timer is fired, the backend is not
    waited on, nothing is reaped, and a surrounding [Loop()] returns. *)
Theorem Terminate_in_timer_callback_ends_Dispatch
    (d : Dispatcher.t) (top : Timer) (rest : TimerPQ.t) (now : Z)
    (run : TimerRun) (runs : list TimerRun) (io : list Ready)
    (iters : list Iteration) :
  Dispatcher.timer_pq_ d = top :: rest ->
  Dispatcher.terminate_ d = false ->
  next_timeout top <= now ->
  calls_Terminate run = true ->
  let d' := Dispatcher.fire_top run top d in
  Dispatcher.Dispatch now (run :: runs) io d = (d', Returned)
  /\ Dispatcher.terminate_ d' = true
  /\ since d d' = [TimerFired (cb top) (next_timeout top) (returns run)]
  /\ queue_lengths d' = queue_lengths d
  /\ Loop (mkIteration now (run :: runs) io :: iters) d = (d', LoopReturned).
Proof.
  intros Hpq Hterm Hdue Hcall d'.
  assert (Ht' : Dispatcher.terminate_ d' = true).
  { subst d'. cbn. rewrite Hcall. apply orb_true_r. }
  assert (HD : Dispatcher.Dispatch now (run :: runs) io d = (d', Returned)).
  { unfold Dispatcher.Dispatch. cbn [Dispatcher.drain_timers].
    rewrite Hpq, Hterm, (proj2 (Z.leb_le _ _) Hdue). cbn [negb andb].
    fold d'.
    assert (Hdrain : Dispatcher.drain_timers now runs d' = (d', true)).
    { destruct runs; cbn [Dispatcher.drain_timers];
        destruct (Dispatcher.timer_pq_ d'); rewrite ?Ht'; reflexivity. }
    rewrite Hdrain. cbn [negb]. now rewrite Ht'. }
  split; [exact HD|]. split; [exact Ht'|]. split; [|split].
  - apply since_app. apply fire_top_effects.
  - reflexivity.
  - cbn [Loop it_now it_runs it_io]. rewrite Hterm, HD.
    destruct iters; cbn [Loop]; now rewrite Ht'.
Qed.

Lemma Terminate_in_timer_callback_ends_Dispatch_witness :
  let d := Dispatcher.AddTimer 0 5 1 Dispatcher.init in
  let stop := mkTimerRun true true in
  Dispatcher.effects (fst (Dispatcher.Dispatch 5000000 [stop] [] d))
  = [TimerFired 1 5000000 true]
  /\ Dispatcher.terminate_ (fst (Dispatcher.Dispatch 5000000 [stop] [] d)) = true.
Proof.
  cbv zeta.
  destruct (Terminate_in_timer_callback_ends_Dispatch
              (Dispatcher.AddTimer 0 5 1 Dispatcher.init)
              (mkTimer 5000000 5 1) [] 5000000 (mkTimerRun true true) [] [] [])
    as [H1 [H2 _]]; try reflexivity.
  rewrite H1. cbn [fst]. split; [reflexivity|exact H2].
Defined.

Lemma fire_top_queues (run : TimerRun) (top : Timer) (d : Dispatcher.t) :
  Dispatcher.async_read_ (Dispatcher.fire_top run top d)
  = Dispatcher.async_read_ d
  /\ Dispatcher.async_write_ (Dispatcher.fire_top run top d)
     = Dispatcher.async_write_ d
  /\ Dispatcher.async_read_block_ (Dispatcher.fire_top run top d)
     = Dispatcher.async_read_block_ d
  /\ Dispatcher.async_write_block_ (Dispatcher.fire_top run top d)
     = Dispatcher.async_write_block_ d.
Proof. repeat split. Qed.

(** The timer loop does not touch the transfer queues. *)
Lemma drain_timers_queues (now : Z) (runs : list TimerRun) (d : Dispatcher.t) :
  Dispatcher.async_read_ (fst (Dispatcher.drain_timers now runs d))
  = Dispatcher.async_read_ d
  /\ Dispatcher.async_write_ (fst (Dispatcher.drain_timers now runs d))
     = Dispatcher.async_write_ d
  /\ Dispatcher.async_read_block_ (fst (Dispatcher.drain_timers now runs d))
     = Dispatcher.async_read_block_ d
  /\ Dispatcher.async_write_block_ (fst (Dispatcher.drain_timers now runs d))
     = Dispatcher.async_write_block_ d.
Proof.
  revert runs d.
  apply (drain_timers_ind now
           (fun d d' =>
              Dispatcher.async_read_ d' = Dispatcher.async_read_ d
              /\ Dispatcher.async_write_ d' = Dispatcher.async_write_ d
              /\ Dispatcher.async_read_block_ d' = Dispatcher.async_read_block_ d
              /\ Dispatcher.async_write_block_ d'
                 = Dispatcher.async_write_block_ d)).
  - intros d. repeat split.
  - intros d top rest run d' _ _ _ H. exact H.
Qed.

(** A readiness handler may change its record but never adds or removes
    one. *)
Lemma deliver_queue_lengths (rd : Ready) (d : Dispatcher.t) :
  queue_lengths (fst (Dispatcher.deliver rd d)) = queue_lengths d.
Proof.
  unfold queue_lengths.
  destruct rd as [i res|i res|i res|i res]; cbn [Dispatcher.deliver].
  - destruct (nth_error (Dispatcher.async_read_ d) i) as [a|]; [|reflexivity].
    destruct (AsyncReadBuffer.call res a) as [[a' ev] out]. cbn.
    now rewrite list_set_length.
  - destruct (nth_error (Dispatcher.async_write_ d) i) as [a|]; [|reflexivity].
    destruct (AsyncWriteBuffer.call res a) as [[a' ev] out]. cbn.
    now rewrite list_set_length.
  - destruct (nth_error (Dispatcher.async_read_block_ d) i) as [a|];
      [|reflexivity].
    destruct (AsyncReadByteBlock.call res a) as [[a' ev] out]. cbn.
    now rewrite list_set_length.
  - destruct (nth_error (Dispatcher.async_write_block_ d) i) as [a|];
      [|reflexivity].
    destruct (AsyncWriteBlock.call res a) as [[a' ev] out]. cbn.
    now rewrite list_set_length.
Qed.

Lemma run_backend_queue_lengths (io : list Ready) :
  forall d,
  queue_lengths (fst (Dispatcher.run_backend io d)) = queue_lengths d.
Proof.
  induction io as [|rd io IH]; intros d; [reflexivity|].
  cbn [Dispatcher.run_backend].
  pose proof (deliver_queue_lengths rd d) as H.
  destruct (Dispatcher.deliver rd d) as [d1 [keep|e|]]; cbn [fst] in *.
  - now rewrite IH.
  - exact H.
  - exact H.
Qed.

(** When [Dispatch()] is left by an exception of a readiness handler,
    by a crash, or in the middle of its timer loop, the clean-up at its
    end has not run: no record has been removed from any of the four
    queues. *)
Theorem no_reaping_unless_Dispatch_returns
    (now : Z) (runs : list TimerRun) (io : list Ready) (d : Dispatcher.t) :
  snd (Dispatcher.Dispatch now runs io d) <> Returned ->
  queue_lengths (fst (Dispatcher.Dispatch now runs io d)) = queue_lengths d.
Proof.
  unfold Dispatcher.Dispatch.
  pose proof (drain_timers_queues now runs d) as [Q1 [Q2 [Q3 Q4]]].
  destruct (Dispatcher.drain_timers now runs d) as [d1 exited].
  cbn [fst] in *.
  assert (Hq : queue_lengths d1 = queue_lengths d).
  { unfold queue_lengths. now rewrite Q1, Q2, Q3, Q4. }
  destruct exited; cbn [negb]; [|intros _; exact Hq].
  destruct (Dispatcher.terminate_ d1); [intros _; exact Hq|].
  set (d2 := Dispatcher.emit d1 _).
  pose proof (run_backend_queue_lengths io d2) as H.
  destruct (Dispatcher.run_backend io d2) as [d3 st]. cbn [fst] in H.
  destruct st; cbn [fst snd]; intros Hst; try congruence;
    rewrite H; exact Hq.
Qed.

Lemma no_reaping_unless_Dispatch_returns_witness :
  let d := Dispatcher.AsyncWrite 3%nat [x61] None Dispatcher.init in
  queue_lengths
    (fst (Dispatcher.Dispatch 0 [] [ReadyWrite 0 (mkSend (-1) ECONNRESET)] d))
  = queue_lengths d.
Proof.
  apply no_reaping_unless_Dispatch_returns. discriminate.
Defined.

Lemma reap_reaped_front {A : Type} (is_done : A -> bool) (q : list A) :
  reaped_front is_done q (reap is_done q).
Proof.
  induction q as [|a q IH].
  - exists []. repeat split.
  - cbn [reap]. destruct (is_done a) eqn:Ha.
    + destruct IH as [finished [E [F H]]].
      exists (a :: finished). cbn [forallb app].
      rewrite Ha, F, <- E. repeat split. exact H.
    + exists []. repeat split. exact Ha.
Qed.

(** The clean-up at the end of [Dispatch()] removes, from each of the
    four queues, exactly the finished records at its front: the records
    removed are a prefix of the queue and all done, the record left at
    the front (if any) is not done, and records behind it stay queued
    even if they are done.  Timers, the terminate flag and the effects
    are not touched. *)
Theorem cleanup_reaps_finished_front (d : Dispatcher.t) :
  reaped_front AsyncReadBuffer.IsDone
    (Dispatcher.async_read_ d)
    (Dispatcher.async_read_ (Dispatcher.cleanup d))
  /\ reaped_front AsyncWriteBuffer.IsDone
       (Dispatcher.async_write_ d)
       (Dispatcher.async_write_ (Dispatcher.cleanup d))
  /\ reaped_front AsyncReadByteBlock.IsDone
       (Dispatcher.async_read_block_ d)
       (Dispatcher.async_read_block_ (Dispatcher.cleanup d))
  /\ reaped_front AsyncWriteBlock.IsDone
       (Dispatcher.async_write_block_ d)
       (Dispatcher.async_write_block_ (Dispatcher.cleanup d))
  /\ Dispatcher.timer_pq_ (Dispatcher.cleanup d) = Dispatcher.timer_pq_ d
  /\ Dispatcher.terminate_ (Dispatcher.cleanup d) = Dispatcher.terminate_ d
  /\ Dispatcher.effects (Dispatcher.cleanup d) = Dispatcher.effects d.
Proof.
  repeat split; apply reap_reaped_front.
Qed.

(** After a [Dispatch()] that returned with [terminate_] unset, no
    queue has a finished record at its front. *)
Theorem Dispatch_leaves_no_finished_front
    (now : Z) (runs : list TimerRun) (io : list Ready) (d : Dispatcher.t) :
  let d' := fst (Dispatcher.Dispatch now runs io d) in
  snd (Dispatcher.Dispatch now runs io d) = Returned ->
  Dispatcher.terminate_ d' = false ->
  match Dispatcher.async_read_ d' with
  | a :: _ => AsyncReadBuffer.IsDone a = false
  | [] => True
  end
  /\ match Dispatcher.async_write_ d' with
     | a :: _ => AsyncWriteBuffer.IsDone a = false
     | [] => True
     end
  /\ match Dispatcher.async_read_block_ d' with
     | a :: _ => AsyncReadByteBlock.IsDone a = false
     | [] => True
     end
  /\ match Dispatcher.async_write_block_ d' with
     | a :: _ => AsyncWriteBlock.IsDone a = false
     | [] => True
     end.
Proof.
  intros d'. subst d'. unfold Dispatcher.Dispatch.
  destruct (Dispatcher.drain_timers now runs d) as [d1 exited].
  destruct exited; cbn [negb]; [|discriminate].
  destruct (Dispatcher.terminate_ d1) eqn:Ht; [cbn [fst snd]; congruence|].
  set (d2 := Dispatcher.emit d1 _).
  destruct (Dispatcher.run_backend io d2) as [d3 st].
  destruct st; cbn [fst snd]; try discriminate.
  intros _ _.
  destruct (cleanup_reaps_finished_front d3)
    as [[f1 [_ [_ H1]]] [[f2 [_ [_ H2]]] [[f3 [_ [_ H3]]] [[f4 [_ [_ H4]]] _]]]].
  split; [exact H1|]. split; [exact H2|]. split; [exact H3|exact H4].
Qed.

Lemma Dispatch_leaves_no_finished_front_witness :
  let d := Dispatcher.AsyncWrite 3%nat [x61] None
             (Dispatcher.AsyncWrite 3%nat [x62; x63] None Dispatcher.init) in
  let d' := fst (Dispatcher.Dispatch 0 []
                   [ReadyWrite 0 (mkSend 2 0); ReadyWrite 1 (mkSend (-1) EAGAIN)]
                   d) in
  match Dispatcher.async_write_ d' with
  | a :: _ => AsyncWriteBuffer.IsDone a = false
  | [] => True
  end.
Proof.
  cbv zeta.
  refine (proj1 (proj2 (Dispatch_leaves_no_finished_front 0 []
            [ReadyWrite 0 (mkSend 2 0); ReadyWrite 1 (mkSend (-1) EAGAIN)]
            (Dispatcher.AsyncWrite 3%nat [x61] None
               (Dispatcher.AsyncWrite 3%nat [x62; x63] None Dispatcher.init))
            _ _))); reflexivity.
Defined.

(** The poll timeout against the timers of a heap-ordered queue: it is
    at least 1 ms, and apart from this minimum it does not reach beyond
    the [next_timeout] of any entry. *)
Lemma wait_timeout_bound (now : Z) (pq : TimerPQ.t) :
  heap_ordered pq ->
  1 <= Dispatcher.wait_timeout now pq
  /\ forall x, In x pq ->
       Dispatcher.wait_timeout now pq * ticks_per_ms
       <= Z.max ticks_per_ms (next_timeout x - now).
Proof.
  intros Hord. destruct pq as [|top rest].
  - cbn. split; [lia|]. intros x [].
  - unfold Dispatcher.wait_timeout, duration_cast_ms, ticks_per_ms.
    destruct (Z.ltb_spec ((next_timeout top - now) ÷ 1000000) 1) as [Hlt|Hge].
    + split; [lia|]. intros x _. lia.
    + split; [lia|]. intros x Hx.
      pose proof (heap_head_minimal top rest Hord x Hx) as Hmin.
      assert (Hnn : 0 <= next_timeout top - now).
      { destruct (Z_lt_le_dec (next_timeout top - now) 0) as [Hneg|]; [|lia].
        pose proof (Z.quot_opp_l (next_timeout top - now) 1000000 ltac:(lia)).
        pose proof (Z.quot_pos (- (next_timeout top - now)) 1000000
                      ltac:(lia) ltac:(lia)).
        lia. }
      rewrite Z.quot_div_nonneg in * by lia.
      pose proof (Z.mul_div_le (next_timeout top - now) 1000000 ltac:(lia)).
      lia.
Qed.

(** The backend wait of a [Dispatch()] is at least 1 ms long, and apart
    from this minimum it never reaches beyond the expiry of a timer that
    is waiting in the queue: the dispatcher does not oversleep its next
    timer by more than the 1 ms granularity. *)
Theorem wait_does_not_pass_the_next_timer
    (ops : list Op) (now : Z) (runs : list TimerRun) (io : list Ready) :
  let d := exec ops Dispatcher.init in
  let d' := fst (Dispatcher.Dispatch now runs io d) in
  forall w, In w (waits (since d d')) ->
  1 <= w
  /\ forall x, In x (Dispatcher.timer_pq_ d') ->
       now + w * ticks_per_ms
       <= Z.max (now + ticks_per_ms) (next_timeout x).
Proof.
  intros d d' w.
  destruct (Dispatch_after_drain now runs io d) as [P [ev [E C]]].
  destruct (drain_timers_sorted now runs d (exec_ordered ops))
    as [Hord [tf [Etf _]]].
  destruct (drain_timers_effects now runs d) as [tf' [Etf' Ftf]].
  fold d' in P, E. rewrite Etf' in E. rewrite <- app_assoc in E.
  rewrite (since_app _ _ _ E), !waits_app.
  rewrite (timer_firings_no_wait tf' Ftf).
  destruct (completions_observed 0 ev C) as [-> _].
  rewrite app_nil_r. cbn [app]. rewrite P.
  destruct (_ && _); cbn [waits]; [|intros []].
  intros [<-|[]].
  destruct (wait_timeout_bound now _ Hord) as [H1 H2].
  split; [exact H1|]. intros x Hx. specialize (H2 x Hx). lia.
Qed.

Lemma wait_does_not_pass_the_next_timer_witness :
  let d := exec [OpAddTimer 0 5 1] Dispatcher.init in
  let d' := fst (Dispatcher.Dispatch 2500000 [] [] d) in
  1 <= 2
  /\ forall x, In x (Dispatcher.timer_pq_ d') ->
       2500000 + 2 * ticks_per_ms
       <= Z.max (2500000 + ticks_per_ms) (next_timeout x).
Proof.
  apply (wait_does_not_pass_the_next_timer [OpAddTimer 0 5 1] 2500000 [] [] 2).
  left. reflexivity.
Defined.

Lemma dropped_callbacks_app (a b : list Effect) :
  dropped_callbacks (a ++ b) = dropped_callbacks a ++ dropped_callbacks b.
Proof.
  induction a as [|e a IH]; [reflexivity|].
  destruct e as [| | |c x [|]| | |]; cbn; rewrite IH; reflexivity.
Qed.

Lemma fired_callbacks_app (a b : list Effect) :
  fired_callbacks (a ++ b) = fired_callbacks a ++ fired_callbacks b.
Proof.
  induction a as [|e a IH]; [reflexivity|].
  destruct e; cbn; rewrite IH; reflexivity.
Qed.

Lemma completions_fire_no_timer (ev : list Effect) :
  forallb is_completion ev = true ->
  dropped_callbacks ev = [] /\ fired_callbacks ev = [].
Proof.
  induction ev as [|e ev IH]; [now split|].
  cbn [forallb]. intros H. apply andb_prop in H. destruct H as [He Hev].
  destruct e; try discriminate; cbn; auto.
Qed.

(** One iteration of the timer loop keeps the callback of the fired
    entry registered exactly if it returned [true], and keeps all other
    registrations: the requeued entry and the popped entry both belong
    to the callback that was fired. *)
Lemma fire_top_callbacks (run : TimerRun) (top : Timer) (rest : TimerPQ.t)
    (d : Dispatcher.t) :
  Dispatcher.timer_pq_ d = top :: rest ->
  Permutation
    (map cb (Dispatcher.timer_pq_ (Dispatcher.fire_top run top d))
     ++ (if returns run then [] else [cb top]))
    (map cb (top :: rest)).
Proof.
  intros Hpq. rewrite fire_top_timers, Hpq.
  destruct (returns run).
  - set (N := mkTimer _ _ _).
    pose proof (push_perm (top :: rest) N) as Hp1.
    destruct (push_cons top rest N) as [top' [rest' [Hpush [Htop' _]]]].
    rewrite Hpush in *.
    pose proof (Permutation_trans (pop_perm top' rest') Hp1) as Hp.
    apply (Permutation_map cb) in Hp. cbn [map] in Hp.
    assert (Hcb : cb top' = cb top) by (destruct Htop' as [->| ->]; reflexivity).
    rewrite Hcb in Hp. subst N. cbn [cb] in Hp.
    apply Permutation_cons_inv in Hp.
    rewrite app_nil_r. exact Hp.
  - pose proof (pop_perm top rest) as Hp.
    apply (Permutation_map cb) in Hp. cbn [map] in Hp.
    apply Permutation_cons_inv in Hp.
    cbn [map].
    apply Permutation_trans
      with (l' := cb top :: map cb (TimerPQ.pop (top :: rest))).
    + apply Permutation_sym, Permutation_cons_append.
    + now constructor.
Qed.

(** One iteration of the timer loop for an entry of another callback
    keeps the entries of [c] as they are. *)
Lemma fire_top_keeps_others (c : nat) (run : TimerRun) (top : Timer)
    (rest : TimerPQ.t) (d : Dispatcher.t) :
  Dispatcher.timer_pq_ d = top :: rest ->
  cb top <> c ->
  Permutation
    (entries_of c (Dispatcher.timer_pq_ (Dispatcher.fire_top run top d)))
    (entries_of c (top :: rest)).
Proof.
  intros Hpq Hc. rewrite fire_top_timers, Hpq.
  apply Nat.eqb_neq in Hc.
  destruct (returns run).
  - set (N := mkTimer _ _ _).
    pose proof (push_perm (top :: rest) N) as Hp1.
    destruct (push_cons top rest N) as [top' [rest' [Hpush [Htop' _]]]].
    rewrite Hpush in *.
    pose proof (Permutation_trans (pop_perm top' rest') Hp1) as Hp.
    apply (entries_of_perm c) in Hp.
    assert (Hc' : (cb top' =? c)%nat = false)
      by (destruct Htop' as [->| ->]; exact Hc).
    unfold entries_of in *. cbn [filter] in *. subst N. cbn [cb] in Hp.
    rewrite Hc', Hc in Hp. rewrite Hc. exact Hp.
  - pose proof (pop_perm top rest) as Hp.
    apply (entries_of_perm c) in Hp.
    unfold entries_of in *. cbn [filter] in *. rewrite Hc in *. exact Hp.
Qed.

(** The timer loop: callbacks leave the queue only by returning
    [false], and the entries of a callback that is not fired stay as
    they are. *)
Lemma drain_timers_callbacks (now : Z) (runs : list TimerRun)
    (d : Dispatcher.t) :
  exists tf,
    Dispatcher.effects (fst (Dispatcher.drain_timers now runs d))
    = Dispatcher.effects d ++ tf
    /\ Permutation
         (map cb (Dispatcher.timer_pq_ (fst (Dispatcher.drain_timers now runs d)))
          ++ dropped_callbacks tf)
         (map cb (Dispatcher.timer_pq_ d))
    /\ forall c, ~ In c (fired_callbacks tf) ->
         Permutation
           (entries_of c
              (Dispatcher.timer_pq_ (fst (Dispatcher.drain_timers now runs d))))
           (entries_of c (Dispatcher.timer_pq_ d)).
Proof.
  revert runs d.
  apply (drain_timers_ind now
           (fun d d' => exists tf,
              Dispatcher.effects d' = Dispatcher.effects d ++ tf
              /\ Permutation
                   (map cb (Dispatcher.timer_pq_ d') ++ dropped_callbacks tf)
                   (map cb (Dispatcher.timer_pq_ d))
              /\ forall c, ~ In c (fired_callbacks tf) ->
                   Permutation (entries_of c (Dispatcher.timer_pq_ d'))
                     (entries_of c (Dispatcher.timer_pq_ d)))).
  - intros d. exists []. cbn [dropped_callbacks]. rewrite !app_nil_r.
    split; [reflexivity|]. split; [reflexivity|].
    intros c _. reflexivity.
  - intros d top rest run d' Hpq _ _ [tf [E [Hcbs Hothers]]].
    exists (TimerFired (cb top) (next_timeout top) (returns run) :: tf).
    split; [rewrite E, fire_top_effects; now rewrite <- app_assoc|].
    split.
    + pose proof (fire_top_callbacks run top rest d Hpq) as Hstep.
      rewrite Hpq.
      apply Permutation_trans
        with (l' := (map cb (Dispatcher.timer_pq_ d') ++ dropped_callbacks tf)
                    ++ (if returns run then [] else [cb top])).
      * cbn [dropped_callbacks]. destruct (returns run).
        -- now rewrite app_nil_r.
        -- rewrite <- app_assoc. apply Permutation_app_head.
           apply Permutation_cons_append.
      * apply Permutation_trans with (2 := Hstep).
        now apply Permutation_app_tail.
    + intros c Hc. cbn [fired_callbacks] in Hc.
      rewrite Hpq.
      apply Permutation_trans
        with (l' := entries_of c
                      (Dispatcher.timer_pq_ (Dispatcher.fire_top run top d))).
      * apply Hothers. intros Hin. apply Hc. now right.
      * apply (fire_top_keeps_others c run top rest d Hpq).
        intros Heq. apply Hc. now left.
Qed.

(** No timer is lost or doubled.  Over a [Dispatch()], the callbacks
    registered in the timer queue stay registered, each as often as
    before, except for one registration per firing that returned
    [false]; the entries of a callback that is not fired in this
    [Dispatch()] stay in the queue as they are.  [AddTimer] adds its one
    entry and keeps all others. *)
Theorem timers_leave_only_by_returning_false
    (now : Z) (runs : list TimerRun) (io : list Ready) (d : Dispatcher.t)
    (t0 T : Z) (c : nat) :
  let d' := fst (Dispatcher.Dispatch now runs io d) in
  Permutation
    (map cb (Dispatcher.timer_pq_ d') ++ dropped_callbacks (since d d'))
    (map cb (Dispatcher.timer_pq_ d))
  /\ (forall c', ~ In c' (fired_callbacks (since d d')) ->
        Permutation (entries_of c' (Dispatcher.timer_pq_ d'))
          (entries_of c' (Dispatcher.timer_pq_ d)))
  /\ Permutation (Dispatcher.timer_pq_ (Dispatcher.AddTimer t0 T c d))
       (mkTimer (time_point_plus t0 T) T c :: Dispatcher.timer_pq_ d).
Proof.
  intros d'.
  destruct (drain_timers_callbacks now runs d) as [tf [Etf [Hcbs Hothers]]].
  destruct (Dispatch_after_drain now runs io d) as [P [ev [E C]]].
  fold d' in P, E. rewrite Etf, <- app_assoc in E.
  destruct (completions_fire_no_timer ev C) as [Hd Hf].
  assert (Hdrop : dropped_callbacks (since d d') = dropped_callbacks tf).
  { rewrite (since_app _ _ _ E), !dropped_callbacks_app, Hd.
    match goal with
    | |- context [if ?b then _ else _] => destruct b
    end; cbn [dropped_callbacks]; now rewrite !app_nil_r. }
  assert (Hfired : fired_callbacks (since d d') = fired_callbacks tf).
  { rewrite (since_app _ _ _ E), !fired_callbacks_app, Hf.
    match goal with
    | |- context [if ?b then _ else _] => destruct b
    end; cbn [fired_callbacks]; now rewrite !app_nil_r. }
  rewrite Hdrop, Hfired, P.
  split; [exact Hcbs|]. split; [exact Hothers|].
  cbn [Dispatcher.AddTimer Dispatcher.set_timers Dispatcher.timer_pq_].
  apply push_perm.
Qed.

Lemma Forall_perm_timers (P : Timer -> Prop) (l l' : TimerPQ.t) :
  Permutation l l' -> Forall P l -> Forall P l'.
Proof.
  intros Hp H. rewrite Forall_forall in *. intros x Hx.
  apply H. exact (Permutation_in _ (Permutation_sym Hp) Hx).
Qed.

Lemma pending_firings_perm (now : Z) (l l' : TimerPQ.t) :
  Permutation l l' -> pending_firings now l = pending_firings now l'.
Proof.
  induction 1 as [|x l l' _ IH|x y l|l l' l'' _ IH1 _ IH2]; cbn; lia.
Qed.

Lemma due_firings_nonneg (now : Z) (x : Timer) :
  0 < timeout x -> 0 <= due_firings now x.
Proof.
  intros HT. unfold due_firings, ms_to_ticks, ticks_per_ms.
  destruct (Z.leb_spec (next_timeout x) now); [|lia].
  pose proof (Z.div_pos (now - next_timeout x) (timeout x * 1000000)
                ltac:(lia) ltac:(lia)). lia.
Qed.

Lemma pending_firings_nonneg (now : Z) (pq : TimerPQ.t) :
  Forall (fun x => 0 < timeout x) pq -> 0 <= pending_firings now pq.
Proof.
  induction 1 as [|x pq Hx _ IH]; cbn; [lia|].
  pose proof (due_firings_nonneg now x Hx). lia.
Qed.

(** Requeueing a due entry with a positive interval uses up one of its
    firings. *)
Lemma due_firings_requeue (now : Z) (top : Timer) :
  0 < timeout top -> next_timeout top <= now ->
  due_firings now
    (mkTimer (next_timeout top + ms_to_ticks (timeout top))
       (timeout top) (cb top))
  = due_firings now top - 1.
Proof.
  intros HT Hdue. unfold due_firings. cbn [next_timeout timeout].
  rewrite (proj2 (Z.leb_le _ _) Hdue).
  assert (Hpos : 0 < ms_to_ticks (timeout top))
    by (unfold ms_to_ticks, ticks_per_ms; lia).
  set (T' := ms_to_ticks (timeout top)) in *.
  destruct (Z.leb_spec (next_timeout top + T') now) as [Hle|Hgt].
  - replace (now - (next_timeout top + T'))
      with (now - next_timeout top + (-1) * T') by lia.
    rewrite Z.div_add by lia. lia.
  - rewrite Z.div_small by lia. lia.
Qed.

(** The requeue of a due entry with a positive interval stays within
    the range of the clock when [now] plus the interval does. *)
Lemma requeue_in_range (now : Z) (top : Timer) :
  timer_in_range now top -> next_timeout top <= now ->
  time_point_plus (next_timeout top) (timeout top)
  = next_timeout top + ms_to_ticks (timeout top)
  /\ timer_in_range now
       (mkTimer (next_timeout top + ms_to_ticks (timeout top))
          (timeout top) (cb top)).
Proof.
  unfold timer_in_range, is_int64. intros [HT [Hnext Hnow]] Hdue.
  assert (Hpos : 0 < ms_to_ticks (timeout top))
    by (unfold ms_to_ticks, ticks_per_ms; lia).
  split.
  - apply time_point_plus_small. unfold is_int64. lia.
  - cbn [next_timeout timeout]. lia.
Qed.

Lemma timer_in_range_positive (now : Z) (pq : TimerPQ.t) :
  Forall (timer_in_range now) pq -> Forall (fun x => 0 < timeout x) pq.
Proof. apply Forall_impl. now intros x [H _]. Qed.

(** The timer loop comes to an end when all intervals are positive and
    no requeue leaves the range of the clock: [pending_firings] bounds
    the number of callbacks it invokes. *)
Lemma drain_timers_ends (now : Z) (runs : list TimerRun) :
  forall d,
  Forall (timer_in_range now) (Dispatcher.timer_pq_ d) ->
  pending_firings now (Dispatcher.timer_pq_ d) <= Z.of_nat (length runs) ->
  snd (Dispatcher.drain_timers now runs d) = true.
Proof.
  induction runs as [|run runs IH]; intros d Hpos Hpend;
    cbn [Dispatcher.drain_timers];
    destruct (Dispatcher.timer_pq_ d) as [|top rest] eqn:Hpq; try reflexivity;
    destruct (negb (Dispatcher.terminate_ d) && (next_timeout top <=? now))
      eqn:Hcond; try reflexivity;
    apply andb_prop in Hcond; destruct Hcond as [_ Hdue];
    apply Z.leb_le in Hdue;
    inversion Hpos as [|? ? Htop Hrest]; subst;
    pose proof (proj1 Htop) as HT;
    pose proof (pending_firings_nonneg now rest
                  (timer_in_range_positive now rest Hrest)) as Hnn;
    cbn [pending_firings length] in Hpend;
    assert (Hone : 1 <= due_firings now top)
      by (unfold due_firings; rewrite (proj2 (Z.leb_le _ _) Hdue);
          pose proof (Z.div_pos (now - next_timeout top)
                        (ms_to_ticks (timeout top)) ltac:(lia)
                        ltac:(unfold ms_to_ticks, ticks_per_ms; lia)); lia).
  - lia.
  - destruct (requeue_in_range now top Htop Hdue) as [Hplus HN].
    apply IH; rewrite fire_top_timers, Hpq; destruct (returns run).
    + (* requeued *)
      rewrite Hplus.
      set (N := mkTimer _ _ _) in *.
      destruct (push_cons top rest N) as [top' [rest' [Hpush [_ Hkeep]]]].
      rewrite Hpush.
      assert (Hlt : Timer_lt top N = false).
      { apply Timer_lt_false. subst N. cbn.
        unfold ms_to_ticks, ticks_per_ms. lia. }
      rewrite (Hkeep Hlt) in *.
      pose proof (push_perm (top :: rest) N) as Hp1. rewrite Hpush in Hp1.
      pose proof (Permutation_trans (pop_perm top rest') Hp1) as Hp.
      rewrite (perm_swap top N rest) in Hp.
      apply Permutation_cons_inv in Hp.
      apply (Forall_perm_timers _ _ _ (Permutation_sym Hp)).
      constructor; [exact HN|exact Hrest].
    + pose proof (pop_perm top rest) as Hp.
      apply Permutation_cons_inv in Hp.
      exact (Forall_perm_timers _ _ _ (Permutation_sym Hp) Hrest).
    + rewrite Hplus.
      set (N := mkTimer _ _ _) in *.
      destruct (push_cons top rest N) as [top' [rest' [Hpush [_ Hkeep]]]].
      rewrite Hpush.
      assert (Hlt : Timer_lt top N = false).
      { apply Timer_lt_false. subst N. cbn.
        unfold ms_to_ticks, ticks_per_ms. lia. }
      rewrite (Hkeep Hlt) in *.
      pose proof (push_perm (top :: rest) N) as Hp1. rewrite Hpush in Hp1.
      pose proof (Permutation_trans (pop_perm top rest') Hp1) as Hp.
      rewrite (perm_swap top N rest) in Hp.
      apply Permutation_cons_inv in Hp.
      rewrite (pending_firings_perm now _ _ Hp). cbn [pending_firings].
      subst N. rewrite (due_firings_requeue now top HT Hdue). lia.
    + pose proof (pop_perm top rest) as Hp.
      apply Permutation_cons_inv in Hp.
      rewrite (pending_firings_perm now _ _ Hp). lia.
Qed.

(** When every timer in the queue has a positive interval and an expiry
    within the 64-bit tick range of the clock, and [now] plus any of the
    intervals is within that range too, [Dispatch()] does not get stuck
    in its timer loop: given [pending_firings] runs of timer callbacks
    -- one for every entry that is due and one more for every full
    interval that has passed since -- the loop ends and [Dispatch()]
    goes on to the backend wait or returns. *)
Theorem Dispatch_timer_loop_ends
    (now : Z) (runs : list TimerRun) (io : list Ready) (d : Dispatcher.t) :
  Forall (timer_in_range now) (Dispatcher.timer_pq_ d) ->
  pending_firings now (Dispatcher.timer_pq_ d) <= Z.of_nat (length runs) ->
  snd (Dispatcher.drain_timers now runs d) = true
  /\ snd (Dispatcher.Dispatch now runs io d) <> StillDraining.
Proof.
  intros Hpos Hpend.
  pose proof (drain_timers_ends now runs d Hpos Hpend) as Hend.
  split; [exact Hend|].
  unfold Dispatcher.Dispatch.
  destruct (Dispatcher.drain_timers now runs d) as [d1 exited].
  cbn [snd] in Hend. subst exited. cbn [negb].
  destruct (Dispatcher.terminate_ d1); [discriminate|].
  set (d2 := Dispatcher.emit d1 _).
  assert (Hst : forall io d, snd (Dispatcher.run_backend io d) <> StillDraining).
  { clear. induction io as [|rd io IH]; intros d; cbn [Dispatcher.run_backend];
      [discriminate|].
    destruct (Dispatcher.deliver rd d) as [d1 [keep|e|]]; cbn [snd];
      [apply IH|discriminate|discriminate]. }
  specialize (Hst io d2).
  destruct (Dispatcher.run_backend io d2) as [d3 st]. cbn [snd] in *.
  destruct st; cbn [snd]; congruence.
Qed.

Lemma Dispatch_timer_loop_ends_witness :
  let d := Dispatcher.AddTimer 0 20 7 Dispatcher.init in
  let again := mkTimerRun true false in
  snd (Dispatcher.drain_timers 45000000 [again; again] d) = true
  /\ snd (Dispatcher.Dispatch 45000000 [again; again] [] d) <> StillDraining.
Proof.
  apply Dispatch_timer_loop_ends.
  - repeat constructor; vm_compute; congruence.
  - vm_compute. discriminate.
Defined.

(** One iteration of the timer loop in which the callback returns
    [true]: if the queue holds a due entry with an interval that is not
    positive and a requeue time within the range of the clock, it still
    does afterwards. *)
Lemma fire_top_keeps_spinning (now : Z) (run : TimerRun) (top : Timer)
    (rest : TimerPQ.t) (d : Dispatcher.t) :
  Dispatcher.timer_pq_ d = top :: rest ->
  heap_ordered (top :: rest) ->
  returns run = true ->
  Exists (spinning_timer now) (top :: rest) ->
  Exists (spinning_timer now)
    (Dispatcher.timer_pq_ (Dispatcher.fire_top run top d)).
Proof.
  intros Hpq Hord Hret Hex. rewrite fire_top_timers, Hpq, Hret.
  set (N := mkTimer _ _ _).
  pose proof (push_perm (top :: rest) N) as Hp1.
  pose proof (push_ordered (top :: rest) N Hord) as Hord'.
  destruct (push_cons top rest N) as [top' [rest' [Hpush [Htop' _]]]].
  rewrite Hpush in *.
  pose proof (Permutation_trans (pop_perm top' rest') Hp1) as Hp.
  rewrite Exists_exists in *. destruct Hex as [x [Hx Hspin]].
  destruct Htop' as [->| ->].
  - (* the requeued entry is popped again: the queue is as before *)
    apply Permutation_cons_inv in Hp.
    exists x. split; [|exact Hspin].
    exact (Permutation_in _ (Permutation_sym Hp) Hx).
  - assert (HinN : In N (top :: rest'))
      by (apply (Permutation_in _ (Permutation_sym Hp1)); now left).
    pose proof (heap_head_minimal top rest' Hord' N HinN) as Hmin.
    rewrite (perm_swap top N rest) in Hp.
    apply Permutation_cons_inv in Hp.
    destruct Hx as [<-|Hx].
    + (* the fired entry stays behind its requeued copy: the interval
         is zero *)
      exists N. split.
      * apply (Permutation_in _ (Permutation_sym Hp)). now left.
      * destruct Hspin as [Hdue [HT Hrange]].
        subst N. cbn [next_timeout] in Hmin.
        rewrite (time_point_plus_small _ _ Hrange) in Hmin.
        rewrite (time_point_plus_small _ _ Hrange).
        assert (Hz : ms_to_ticks (timeout top) = 0)
          by (unfold ms_to_ticks, ticks_per_ms in *; lia).
        unfold spinning_timer. cbn [next_timeout timeout].
        rewrite Hz in Hrange. rewrite Hz, !Z.add_0_r.
        rewrite Z.add_0_r in Hrange.
        split; [exact Hdue|]. split; [exact HT|exact Hrange].
    + exists x. split; [|exact Hspin].
      apply (Permutation_in _ (Permutation_sym Hp)). now right.
Qed.

Lemma drain_timers_spins (now : Z) (runs : list TimerRun) :
  forall d,
  heap_ordered (Dispatcher.timer_pq_ d) ->
  Dispatcher.terminate_ d = false ->
  Exists (spinning_timer now) (Dispatcher.timer_pq_ d) ->
  forallb (fun run => returns run && negb (calls_Terminate run)) runs = true ->
  snd (Dispatcher.drain_timers now runs d) = false.
Proof.
  induction runs as [|run runs IH]; intros d Hord Hterm Hex Hruns;
    cbn [Dispatcher.drain_timers];
    destruct (Dispatcher.timer_pq_ d) as [|top rest] eqn:Hpq;
    try (now inversion Hex);
    assert (Hdue : next_timeout top <= now)
      by (apply Exists_exists in Hex; destruct Hex as [x [Hx [Hd _]]];
          pose proof (heap_head_minimal top rest Hord x Hx); lia);
    rewrite Hterm, (proj2 (Z.leb_le _ _) Hdue); cbn [negb andb].
  - reflexivity.
  - cbn [forallb] in Hruns. apply andb_prop in Hruns.
    destruct Hruns as [Hrun Hruns]. apply andb_prop in Hrun.
    destruct Hrun as [Hret Hnt]. apply negb_true_iff in Hnt.
    apply IH.
    + apply fire_top_ordered. now rewrite Hpq.
    + cbn. now rewrite Hterm, Hnt.
    + now apply (fire_top_keeps_spinning now run top rest d).
    + exact Hruns.
Qed.

(** A repeating timer with interval zero or less that is due, and whose
    requeue time (expiry plus interval) is within the 64-bit tick range
    of the clock, keeps [Dispatch()] in its timer loop for as long as
    the timer callbacks return [true] and none of them calls
    [Terminate()]: however many callbacks have run, the loop has not
    ended, and the backend wait is never reached. *)
Theorem zero_interval_timer_spins
    (ops : list Op) (now : Z) (runs : list TimerRun) (io : list Ready) :
  let d := exec ops Dispatcher.init in
  Dispatcher.terminate_ d = false ->
  Exists (spinning_timer now) (Dispatcher.timer_pq_ d) ->
  forallb (fun run => returns run && negb (calls_Terminate run)) runs = true ->
  snd (Dispatcher.Dispatch now runs io d) = StillDraining
  /\ waits (since d (fst (Dispatcher.Dispatch now runs io d))) = [].
Proof.
  intros d Hterm Hex Hruns.
  pose proof (drain_timers_spins now runs d (exec_ordered ops) Hterm Hex Hruns)
    as Hspin.
  destruct (Dispatch_after_drain now runs io d) as [_ [ev [E C]]].
  destruct (drain_timers_effects now runs d) as [tf [Etf Ftf]].
  rewrite Hspin, Etf, <- app_assoc in E. cbn [andb app] in E.
  split.
  - unfold Dispatcher.Dispatch.
    destruct (Dispatcher.drain_timers now runs d) as [d1 exited].
    cbn [snd] in Hspin. subst exited. reflexivity.
  - rewrite (since_app _ _ _ E), waits_app.
    rewrite (timer_firings_no_wait tf Ftf).
    now destruct (completions_observed 0 ev C) as [-> _].
Qed.

Lemma zero_interval_timer_spins_witness :
  let d := exec [OpAddTimer 0 0 7] Dispatcher.init in
  let again := mkTimerRun true false in
  snd (Dispatcher.Dispatch 5 [again; again; again] [] d) = StillDraining
  /\ waits (since d (fst (Dispatcher.Dispatch 5 [again; again; again] [] d)))
     = [].
Proof.
  apply (zero_interval_timer_spins [OpAddTimer 0 0 7] 5
           [mkTimerRun true false; mkTimerRun true false; mkTimerRun true false]
           []).
  - reflexivity.
  - apply Exists_cons_hd. vm_compute. repeat split; congruence.
  - reflexivity.
Defined.

(** Why the timer loop ends: [terminate_] is set, or the queue is empty,
    or its top entry is not yet due. *)
Lemma drain_timers_exit (now : Z) (runs : list TimerRun) :
  forall d,
  snd (Dispatcher.drain_timers now runs d) = true ->
  Dispatcher.terminate_ (fst (Dispatcher.drain_timers now runs d)) = true
  \/ match Dispatcher.timer_pq_ (fst (Dispatcher.drain_timers now runs d)) with
     | [] => True
     | top :: _ => now < next_timeout top
     end.
Proof.
  induction runs as [|run runs IH]; intros d;
    cbn [Dispatcher.drain_timers];
    destruct (Dispatcher.timer_pq_ d) as [|top rest] eqn:Hpq;
    try (cbn [fst snd]; rewrite Hpq; now right);
    destruct (negb (Dispatcher.terminate_ d) && (next_timeout top <=? now))
      eqn:Hcond;
    try (cbn [fst snd]; discriminate);
    try (apply IH);
    cbn [fst snd]; intros _; rewrite Hpq;
    apply andb_false_iff in Hcond; destruct Hcond as [Hc|Hc];
    try (apply negb_false_iff in Hc; now left);
    apply Z.leb_gt in Hc; now right.
Qed.

(** All due timers are served before the backend is waited on: when a
    [Dispatch()] reaches its backend wait, no timer left in the queue is
    due at the [now] of this [Dispatch()]. *)
Theorem no_timer_is_due_at_the_wait
    (ops : list Op) (now : Z) (runs : list TimerRun) (io : list Ready) :
  let d := exec ops Dispatcher.init in
  let d' := fst (Dispatcher.Dispatch now runs io d) in
  waits (since d d') <> [] ->
  forall x, In x (Dispatcher.timer_pq_ d') -> now < next_timeout x.
Proof.
  intros d d'.
  destruct (Dispatch_after_drain now runs io d) as [P [ev [E C]]].
  destruct (drain_timers_sorted now runs d (exec_ordered ops))
    as [Hord _].
  destruct (drain_timers_effects now runs d) as [tf [Etf Ftf]].
  pose proof (drain_timers_exit now runs d) as Hexit.
  fold d' in P, E. rewrite Etf in E. rewrite <- app_assoc in E.
  rewrite (since_app _ _ _ E), !waits_app.
  rewrite (timer_firings_no_wait tf Ftf).
  destruct (completions_observed 0 ev C) as [-> _].
  rewrite app_nil_r. cbn [app]. rewrite P.
  destruct (snd (Dispatcher.drain_timers now runs d)); cbn [andb];
    [|intros H; now elim H].
  destruct (Dispatcher.terminate_ (fst (Dispatcher.drain_timers now runs d)));
    cbn [negb]; [intros H; now elim H|].
  intros _ x Hx.
  destruct (Hexit eq_refl) as [Hc|Hc]; [discriminate|].
  destruct (Dispatcher.timer_pq_ (fst (Dispatcher.drain_timers now runs d)))
    as [|top rest]; [now inversion Hx|].
  pose proof (heap_head_minimal top rest Hord x Hx). lia.
Qed.

Lemma no_timer_is_due_at_the_wait_witness :
  let d := exec [OpAddTimer 0 5 1; OpAddTimer 0 9 2] Dispatcher.init in
  let d' := fst (Dispatcher.Dispatch 6000000 [mkTimerRun false false] [] d) in
  waits (since d d') = [3]
  /\ Forall (fun x => 6000000 < next_timeout x) (Dispatcher.timer_pq_ d').
Proof.
  split; [reflexivity|].
  apply Forall_forall.
  apply (no_timer_is_due_at_the_wait [OpAddTimer 0 5 1; OpAddTimer 0 9 2]
           6000000 [mkTimerRun false false] []).
  discriminate.
Defined.

Lemma transferred_app (rs rs' : list Z) :
  transferred (rs ++ rs') = transferred rs + transferred rs'.
Proof. induction rs as [|r rs IH]; cbn [app transferred]; lia. Qed.

(** One [Dispatch()] in which the backend reports the connection of the
    only queued buffer write as writable. *)
Lemma Dispatch_one_send (now : Z) (runs : list TimerRun) (res : SendResult)
    (a : AsyncWriteBuffer.t) (d : Dispatcher.t) :
  Dispatcher.terminate_ d = false ->
  Dispatcher.timer_pq_ d = [] ->
  Dispatcher.async_write_ d = [a] ->
  0 <= AsyncWriteBuffer.size_ a < Buffer_size (AsyncWriteBuffer.buffer_ a) ->
  Buffer_size (AsyncWriteBuffer.buffer_ a) < size_t_modulus ->
  send_progress res = true ->
  AsyncWriteBuffer.size_ a + Z.max 0 (send_r res)
  <= Buffer_size (AsyncWriteBuffer.buffer_ a) ->
  let done :=
    AsyncWriteBuffer.size_ a + Z.max 0 (send_r res)
    =? Buffer_size (AsyncWriteBuffer.buffer_ a) in
  let d' := fst (Dispatcher.Dispatch now runs [ReadyWrite 0 res] d) in
  snd (Dispatcher.Dispatch now runs [ReadyWrite 0 res] d) = Returned
  /\ Dispatcher.terminate_ d' = false
  /\ Dispatcher.timer_pq_ d' = []
  /\ Dispatcher.effects d'
     = Dispatcher.effects d ++ [DispatchOne 10000]
       ++ (if done
           then fire_write (AsyncWriteBuffer.callback_ a)
                  (AsyncWriteBuffer.conn_ a)
           else [])
  /\ Dispatcher.async_write_ d'
     = (if done then []
        else [AsyncWriteBuffer.mk (AsyncWriteBuffer.conn_ a)
                (AsyncWriteBuffer.buffer_ a)
                (AsyncWriteBuffer.size_ a + Z.max 0 (send_r res))
                (AsyncWriteBuffer.callback_ a)]).
Proof.
  intros Hterm Hpq Hq Hcur Hsz Hprog Hle done d'.
  subst d' done. unfold Dispatcher.Dispatch.
  assert (Hdr : Dispatcher.drain_timers now runs d = (d, true)).
  { destruct runs; cbn [Dispatcher.drain_timers]; now rewrite Hpq. }
  rewrite Hdr. cbn [negb]. rewrite Hterm, Hpq.
  cbn [Dispatcher.wait_timeout Dispatcher.run_backend Dispatcher.deliver].
  cbn [Dispatcher.emit Dispatcher.async_write_]. rewrite Hq.
  cbn [nth_error list_set].
  destruct a as [conn buf cur cbk].
  cbn [AsyncWriteBuffer.size_ AsyncWriteBuffer.buffer_ AsyncWriteBuffer.conn_
       AsyncWriteBuffer.callback_] in *.
  unfold AsyncWriteBuffer.call.
  cbn [AsyncWriteBuffer.size_ AsyncWriteBuffer.buffer_ AsyncWriteBuffer.conn_
       AsyncWriteBuffer.callback_].
  destruct (send_progress_cases res Hprog) as [Hr|[Hr Herr]].
  - destruct (Z.leb_spec (send_r res) 0) as [|_]; [lia|].
    rewrite Z.max_r in * by lia.
    rewrite wrap_small by (unfold is_size_t; lia).
    unfold AsyncWriteBuffer.DoCallback.
    cbn [AsyncWriteBuffer.size_ AsyncWriteBuffer.buffer_ AsyncWriteBuffer.conn_
         AsyncWriteBuffer.callback_].
    destruct (Z.eqb_spec (cur + send_r res) (Buffer_size buf)) as [E|E].
    + cbn [fst snd Dispatcher.cleanup Dispatcher.emit
           Dispatcher.set_async_write Dispatcher.set_async_read
           Dispatcher.set_async_read_block Dispatcher.set_async_write_block
           Dispatcher.async_write_ Dispatcher.terminate_ Dispatcher.timer_pq_
           Dispatcher.effects Dispatcher.async_read_
           Dispatcher.async_read_block_ Dispatcher.async_write_block_ reap].
      unfold AsyncWriteBuffer.IsDone.
      cbn [AsyncWriteBuffer.size_ AsyncWriteBuffer.buffer_].
      rewrite (proj2 (Z.eqb_eq _ _) E). cbn [reap].
      repeat split; try assumption.
      now rewrite <- app_assoc.
    + cbn [fst snd Dispatcher.cleanup Dispatcher.emit
           Dispatcher.set_async_write Dispatcher.set_async_read
           Dispatcher.set_async_read_block Dispatcher.set_async_write_block
           Dispatcher.async_write_ Dispatcher.terminate_ Dispatcher.timer_pq_
           Dispatcher.effects Dispatcher.async_read_
           Dispatcher.async_read_block_ Dispatcher.async_write_block_ reap].
      unfold AsyncWriteBuffer.IsDone.
      cbn [AsyncWriteBuffer.size_ AsyncWriteBuffer.buffer_].
      rewrite (proj2 (Z.eqb_neq _ _) E).
      repeat split; try assumption.
      now rewrite !app_nil_r.
  - destruct (Z.leb_spec (send_r res) 0) as [_|]; [|lia].
    rewrite Herr. rewrite Z.max_l in * by lia. rewrite Z.add_0_r in *.
    destruct (Z.eqb_spec cur (Buffer_size buf)) as [E|E]; [lia|].
    cbn [fst snd Dispatcher.cleanup Dispatcher.emit
         Dispatcher.set_async_write Dispatcher.set_async_read
         Dispatcher.set_async_read_block Dispatcher.set_async_write_block
         Dispatcher.async_write_ Dispatcher.terminate_ Dispatcher.timer_pq_
         Dispatcher.effects Dispatcher.async_read_
         Dispatcher.async_read_block_ Dispatcher.async_write_block_ reap].
    unfold AsyncWriteBuffer.IsDone.
    cbn [AsyncWriteBuffer.size_ AsyncWriteBuffer.buffer_].
    rewrite (proj2 (Z.eqb_neq _ _) E).
    repeat split; try assumption.
    now rewrite !app_nil_r.
Qed.

Lemma Loop_app (more : list Iteration) (iters : list Iteration) :
  forall d,
  snd (Loop iters d) = LoopRunning ->
  Loop (iters ++ more) d = Loop more (fst (Loop iters d)).
Proof.
  induction iters as [|it iters IH]; intros d H.
  - cbn [Loop app] in *.
    destruct (Dispatcher.terminate_ d) eqn:Ht; [discriminate|].
    cbn [fst]. reflexivity.
  - cbn [Loop app] in *.
    destruct (Dispatcher.terminate_ d) eqn:Ht; [discriminate|].
    destruct (Dispatcher.Dispatch (it_now it) (it_runs it) (it_io it) d)
      as [d1 st].
    destruct st; try discriminate. now apply IH.
Qed.

(** A buffer write that is alone in its queue, over the [Dispatch()]
    calls of a [Loop()] in each of which its connection is reported
    writable once, as long as bytes are left to send. *)
Lemma Loop_keeps_unsent_write (ress : list SendResult) :
  forall (iters : list Iteration) (a : AsyncWriteBuffer.t) (d : Dispatcher.t),
  Dispatcher.terminate_ d = false ->
  Dispatcher.timer_pq_ d = [] ->
  Dispatcher.async_write_ d = [a] ->
  0 <= AsyncWriteBuffer.size_ a ->
  Buffer_size (AsyncWriteBuffer.buffer_ a) < size_t_modulus ->
  forallb send_progress ress = true ->
  AsyncWriteBuffer.size_ a + transferred (map send_r ress)
  < Buffer_size (AsyncWriteBuffer.buffer_ a) ->
  map it_io iters = map (fun res => [ReadyWrite 0 res]) ress ->
  let d' := fst (Loop iters d) in
  snd (Loop iters d) = LoopRunning
  /\ Dispatcher.terminate_ d' = false
  /\ Dispatcher.timer_pq_ d' = []
  /\ Dispatcher.async_write_ d'
     = [AsyncWriteBuffer.mk (AsyncWriteBuffer.conn_ a)
          (AsyncWriteBuffer.buffer_ a)
          (AsyncWriteBuffer.size_ a + transferred (map send_r ress))
          (AsyncWriteBuffer.callback_ a)]
  /\ Dispatcher.effects d'
     = Dispatcher.effects d ++ repeat (DispatchOne 10000) (length iters).
Proof.
  induction ress as [|res ress IH]; intros iters a d Hterm Hpq Hq Hcur Hsz
    Hprog Hlt Hio.
  - destruct iters; [|discriminate]. cbn [Loop]. rewrite Hterm.
    cbn [fst snd map transferred length repeat]. rewrite Z.add_0_r, app_nil_r.
    destruct a. repeat split; assumption.
  - destruct iters as [|it iters]; [discriminate|].
    cbn [map] in Hio. injection Hio as Hit Hio.
    cbn [forallb] in Hprog. apply andb_prop in Hprog as [Hp Hprog].
    cbn [map transferred] in Hlt.
    pose proof (transferred_nonneg (map send_r ress)) as Hnn.
    destruct (Dispatch_one_send (it_now it) (it_runs it) res a d
                Hterm Hpq Hq ltac:(lia) Hsz Hp ltac:(lia))
      as [Hst [Hterm' [Hpq' [Heff Hq']]]].
    destruct (Z.eqb_spec (AsyncWriteBuffer.size_ a + Z.max 0 (send_r res))
                (Buffer_size (AsyncWriteBuffer.buffer_ a))) as [E|_]; [lia|].
    cbn [Loop]. rewrite Hterm, Hit.
    destruct (Dispatcher.Dispatch (it_now it) (it_runs it)
                [ReadyWrite 0 res] d) as [d1 st] eqn:HD.
    cbn [fst snd] in *. subst st.
    destruct (IH iters _ d1 Hterm' Hpq' Hq') as [Hs [Ht [Hp' [Hq'' He]]]];
      cbn [AsyncWriteBuffer.size_ AsyncWriteBuffer.buffer_
           AsyncWriteBuffer.conn_ AsyncWriteBuffer.callback_];
      try assumption; try lia.
    cbn [AsyncWriteBuffer.size_ AsyncWriteBuffer.buffer_
         AsyncWriteBuffer.conn_ AsyncWriteBuffer.callback_] in *.
    repeat split; try assumption.
    + rewrite Hq''. cbn [map transferred]. f_equal. f_equal. lia.
    + rewrite He, Heff. rewrite app_nil_r, <- app_assoc. reflexivity.
Qed.

(** A buffer write stays queued ([HasAsyncWrites()] holds) over the
    [Dispatch()] calls of [Loop()] while bytes are left to send, and in
    the [Dispatch()] in which the connection takes the last byte the
    callback is invoked and the record is removed from the queue. *)
Theorem write_is_removed_once_sent
    (c : Connection) (payload : Buffer) (cb : Delegate) (d : Dispatcher.t)
    (iters : list Iteration) (it_last : Iteration)
    (ress : list SendResult) (last : SendResult) :
  Dispatcher.terminate_ d = false ->
  Dispatcher.timer_pq_ d = [] ->
  Dispatcher.async_write_ d = [] ->
  Buffer_size payload < size_t_modulus ->
  forallb send_progress ress = true ->
  0 < send_r last ->
  transferred (map send_r ress) + send_r last = Buffer_size payload ->
  map it_io iters = map (fun res => [ReadyWrite 0 res]) ress ->
  it_io it_last = [ReadyWrite 0 last] ->
  let d1 := Dispatcher.AsyncWrite c payload cb d in
  let before := Loop iters d1 in
  let after := Loop (iters ++ [it_last]) d1 in
  (snd before = LoopRunning
   /\ Dispatcher.HasAsyncWrites (fst before) = true
   /\ since d1 (fst before) = repeat (DispatchOne 10000) (length iters))
  /\ (snd after = LoopRunning
      /\ Dispatcher.async_write_ (fst after) = []
      /\ since d1 (fst after)
         = repeat (DispatchOne 10000) (length iters)
           ++ [DispatchOne 10000] ++ fire_write cb c).
Proof.
  intros Hterm Hpq Hq Hsz Hprog Hlast Hsum Hio Hio_last d1 before after.
  pose proof (transferred_nonneg (map send_r ress)) as Hnn.
  assert (Hne : (Buffer_size payload =? 0) = false) by (apply Z.eqb_neq; lia).
  assert (Hq1 : Dispatcher.async_write_ d1
                = [AsyncWriteBuffer.ctor c payload cb]).
  { unfold d1, Dispatcher.AsyncWrite. rewrite Hne.
    cbn [Dispatcher.emit Dispatcher.set_async_write Dispatcher.async_write_].
    now rewrite Hq. }
  assert (Hterm1 : Dispatcher.terminate_ d1 = false).
  { unfold d1, Dispatcher.AsyncWrite. now rewrite Hne. }
  assert (Hpq1 : Dispatcher.timer_pq_ d1 = []).
  { unfold d1, Dispatcher.AsyncWrite. now rewrite Hne. }
  destruct (Loop_keeps_unsent_write ress iters _ d1 Hterm1 Hpq1 Hq1)
    as [Hs [Ht [Hp [Hqm He]]]];
    cbn [AsyncWriteBuffer.ctor AsyncWriteBuffer.size_ AsyncWriteBuffer.buffer_];
    try assumption; try lia.
  cbn [AsyncWriteBuffer.ctor AsyncWriteBuffer.size_ AsyncWriteBuffer.buffer_
       AsyncWriteBuffer.conn_ AsyncWriteBuffer.callback_] in Hqm.
  fold before in Hs, Ht, Hp, Hqm, He.
  split.
  - split; [exact Hs|]. split.
    + unfold Dispatcher.HasAsyncWrites. rewrite Hqm. reflexivity.
    + apply since_app. exact He.
  - unfold after. rewrite (Loop_app [it_last] iters d1 Hs). fold before.
    cbn [Loop]. rewrite Ht, Hio_last.
    destruct (Dispatch_one_send (it_now it_last) (it_runs it_last) last _
                (fst before) Ht Hp Hqm) as [Hst [Hterm' [Hpq' [Heff Hq']]]];
      cbn [AsyncWriteBuffer.size_ AsyncWriteBuffer.buffer_];
      try lia.
    { unfold send_progress.
      rewrite (proj2 (Z.ltb_lt _ _) Hlast). reflexivity. }
    cbn [AsyncWriteBuffer.size_ AsyncWriteBuffer.buffer_
         AsyncWriteBuffer.conn_ AsyncWriteBuffer.callback_] in *.
    replace (0 + transferred (map send_r ress) + Z.max 0 (send_r last)
             =? Buffer_size payload) with true in *
      by (symmetry; apply Z.eqb_eq; lia).
    destruct (Dispatcher.Dispatch (it_now it_last) (it_runs it_last)
                [ReadyWrite 0 last] (fst before)) as [d2 st].
    cbn [fst snd] in *. subst st. rewrite Hterm'. cbn [fst snd].
    split; [reflexivity|]. split; [exact Hq'|].
    apply since_app. rewrite Heff, He, <- app_assoc. reflexivity.
Qed.

Lemma write_is_removed_once_sent_witness :
  let d1 := Dispatcher.AsyncWrite 3%nat [x61; x62; x63]
              (Some (mkCallback 1 false)) Dispatcher.init in
  let it res := mkIteration 0 [] [ReadyWrite 0 res] in
  let iters := [it (mkSend 2 0); it (mkSend (-1) EAGAIN)] in
  (snd (Loop iters d1) = LoopRunning
   /\ Dispatcher.HasAsyncWrites (fst (Loop iters d1)) = true
   /\ since d1 (fst (Loop iters d1)) = [DispatchOne 10000; DispatchOne 10000])
  /\ (snd (Loop (iters ++ [it (mkSend 1 0)]) d1) = LoopRunning
      /\ Dispatcher.async_write_ (fst (Loop (iters ++ [it (mkSend 1 0)]) d1))
         = []
      /\ since d1 (fst (Loop (iters ++ [it (mkSend 1 0)]) d1))
         = [DispatchOne 10000; DispatchOne 10000; DispatchOne 10000;
            WriteDone 1 3%nat]).
Proof.
  intros d1 it iters.
  apply (write_is_removed_once_sent 3%nat [x61; x62; x63]
           (Some (mkCallback 1 false)) Dispatcher.init
           iters (it (mkSend 1 0))
           [mkSend 2 0; mkSend (-1) EAGAIN] (mkSend 1 0));
    try reflexivity.
Defined.
